(** * UnrealScript fixer: detection-and-repair engine

    Shallow embedding of the heuristics of [UnrealScripFixer.py]
    (the detectors, their repair closures and [scan_doc_for_issues])
    together with the properties of the engine.

    Modelling conventions.
    - A document (a Python [str]) is a [list ascii]: a sequence of
      characters with code points 0..255.  The character classes of
      Python ([str.isspace], the [\s] and [\w] of [re], the line
      boundaries of [str.splitlines]) are given on that range.
    - Python [int]s that only index are [nat]; the [line] and [span]
      stored in an [Issue], and the running brace count, are [Z].
    - Slices [s[:p]] and [s[p:]] are [take p s] and [drop p s]; like the
      Python slices they clamp at the end of the sequence.
    - An indexing [s[i]] is a [lookup] that raises [IndexError] when out
      of range; a [while] loop is a fixpoint on fuel that ends in
      [OutOfFuel] when the fuel is used up.  Both are outcomes of the
      [outcome] monad, next to the normal return [Ret].
    - A repair ([apply_fn]) is a closure: the nested function and the
      values it captured, run by [call]. *)

From Stdlib Require Import ZArith Ascii String Sorted.
From stdpp Require Import gmap strings list pretty.

Open Scope nat_scope.

(** ** Outcomes of Python code *)

Inductive exn := IndexError.

Inductive outcome (A : Type) : Type :=
| Ret (a : A)
| Raise (e : exn)
| OutOfFuel.
Arguments Ret {A} a.
Arguments Raise {A} e.
Arguments OutOfFuel {A}.

Definition obind {A B} (m : outcome A) (k : A -> outcome B) : outcome B :=
  match m with
  | Ret a => k a
  | Raise e => Raise e
  | OutOfFuel => OutOfFuel
  end.

#[global] Instance outcome_ret : MRet outcome := fun A a => Ret a.
#[global] Instance outcome_bind : MBind outcome := fun A B k m => obind m k.

(** [returns m P]: the computation [m] returns normally, with a value
    that satisfies [P]. *)
Definition returns {A} (m : outcome A) (P : A -> Prop) : Prop :=
  match m with
  | Ret a => P a
  | _ => False
  end.

(** [s[i]] *)
Definition getitem {A} (s : list A) (i : nat) : outcome A :=
  match s !! i with
  | Some x => Ret x
  | None => Raise IndexError
  end.

(** ** Python strings *)

Definition str (s : string) : list ascii := list_ascii_of_string s.

Definition chr_eqb (a b : ascii) : bool := Ascii.eqb a b.

Definition code (c : ascii) : nat := nat_of_ascii c.

Definition in_range (lo hi : nat) (c : ascii) : bool :=
  (lo <=? code c) && (code c <=? hi).

(** [str.isspace] on one character, which is also the [\s] of [re]. *)
Definition isspace (c : ascii) : bool :=
  in_range 9 13 c || in_range 28 32 c || (code c =? 133) || (code c =? 160).

(** The [\w] of [re]: alphanumeric or underscore. *)
Definition isword (c : ascii) : bool :=
  in_range 48 57 c || in_range 65 90 c || in_range 97 122 c || (code c =? 95)
  || (code c =? 170) || in_range 178 179 c || (code c =? 181)
  || in_range 185 186 c || in_range 188 190 c
  || in_range 192 214 c || in_range 216 246 c || in_range 248 255 c.

(** Line boundaries of [str.splitlines], apart from the pair CR LF. *)
Definition islinebreak (c : ascii) : bool :=
  in_range 10 13 c || in_range 28 30 c || (code c =? 133).

(** Lower case of the letters A-Z, for [re.I]. *)
Definition lower (c : ascii) : ascii :=
  if in_range 65 90 c then ascii_of_nat (code c + 32) else c.

Definition NL : ascii := "010"%char.
Definition CR : ascii := "013"%char.

(** [s.splitlines(True)]; [cur] is the line read so far. *)
Fixpoint splitlines_from (cur : list ascii) (s : list ascii) : list (list ascii) :=
  match s with
  | [] => match cur with [] => [] | _ => [cur] end
  | c :: r =>
      if chr_eqb c CR then
        match r with
        | c' :: r' =>
            if chr_eqb c' NL then (cur ++ [c; c']) :: splitlines_from [] r'
            else (cur ++ [c]) :: splitlines_from [] r
        | [] => (cur ++ [c]) :: splitlines_from [] r
        end
      else if islinebreak c then (cur ++ [c]) :: splitlines_from [] r
      else splitlines_from (cur ++ [c]) r
  end.

Definition splitlines (s : list ascii) : list (list ascii) := splitlines_from [] s.

(** [join] of the empty string: the concatenation of [ls]. *)
Definition join (ls : list (list ascii)) : list ascii := concat ls.

(** [s.count(c)] for a one-character [c]. *)
Definition count (c : ascii) (s : list ascii) : nat :=
  length (filter (fun x => chr_eqb x c = true) s).

(** [c in s] *)
Definition contains (c : ascii) (s : list ascii) : bool :=
  existsb (fun x => chr_eqb x c) s.

(** [s.lstrip()] and [s.rstrip()] with the characters to drop given by [p]. *)
Fixpoint lstrip_by (p : ascii -> bool) (s : list ascii) : list ascii :=
  match s with
  | [] => []
  | c :: r => if p c then lstrip_by p r else s
  end.

Definition rstrip_by (p : ascii -> bool) (s : list ascii) : list ascii :=
  foldr (fun c acc => match acc with
                      | [] => if p c then [] else [c]
                      | _ => c :: acc
                      end) [] s.

Definition rstrip (s : list ascii) : list ascii := rstrip_by isspace s.
Definition strip (s : list ascii) : list ascii := lstrip_by isspace (rstrip s).
(** [s.rstrip(NL)] *)
Definition rstrip_nl (s : list ascii) : list ascii := rstrip_by (fun c => chr_eqb c NL) s.

Fixpoint startswith (s pre : list ascii) : bool :=
  match pre, s with
  | [], _ => true
  | p :: pre', c :: s' => chr_eqb c p && startswith s' pre'
  | _ :: _, [] => false
  end.

Definition endswith (s suf : list ascii) : bool :=
  startswith (rev s) (rev suf).

(** [l.insert(i, x)]: past the end it appends. *)
Definition list_insert_at {A} (i : nat) (x : A) (l : list A) : list A :=
  take i l ++ x :: drop i l.

(** ** Regular expressions: the fragment of [re] the rules use

    A backtracking matcher with the priorities of [re]: alternatives are
    tried left to right and repetitions are greedy.  A match state is the
    cursor and the spans of the groups closed so far. *)

Record flags := { ignorecase : bool; multiline : bool }.

Definition NOFLAGS : flags := {| ignorecase := false; multiline := false |}.
Definition RE_I : flags := {| ignorecase := true; multiline := false |}.
Definition RE_IM : flags := {| ignorecase := true; multiline := true |}.

Inductive regex : Type :=
| RChar (c : ascii)              (* a literal character *)
| RSet (p : ascii -> bool)        (* a class or a set of characters *)
| RBol                           (* ^ *)
| REol                           (* $ *)
| RWordB                         (* \b *)
| REps
| RSeq (r1 r2 : regex)
| RAlt (r1 r2 : regex)
| RStar (r : regex)              (* r*, greedy *)
| RGroup (n : nat) (r : regex).  (* the capturing group number n *)

Definition RPlus (r : regex) : regex := RSeq r (RStar r).
Definition ROpt (r : regex) : regex := RAlt r REps.

(** A literal word. *)
Fixpoint RLit (w : list ascii) : regex :=
  match w with
  | [] => REps
  | [c] => RChar c
  | c :: w' => RSeq (RChar c) (RLit w')
  end.

(** [(w1|w2|...)] without the group. *)
Fixpoint RWords (ws : list string) : regex :=
  match ws with
  | [] => RSet (fun _ => false)
  | [w] => RLit (str w)
  | w :: ws' => RAlt (RLit (str w)) (RWords ws')
  end.

Fixpoint RCat (rs : list regex) : regex :=
  match rs with
  | [] => REps
  | [r] => r
  | r :: rs' => RSeq r (RCat rs')
  end.

(** [\s], [\w], [.], [[^c]] and [[...]] *)
Definition r_s : regex := RSet isspace.
Definition r_w : regex := RSet isword.
Definition r_dot : regex := RSet (fun c => negb (chr_eqb c NL)).
Definition r_not (c : ascii) : regex := RSet (fun x => negb (chr_eqb x c)).

Definition caps := list (nat * (nat * nat)).
Definition mstate := (nat * caps)%type.

Section Matcher.
Variable fl : flags.
Variable s : list ascii.

Definition lit_match (c x : ascii) : bool :=
  if ignorecase fl then chr_eqb (lower x) (lower c) else chr_eqb x c.

Definition word_at (i : nat) : bool :=
  match s !! i with Some x => isword x | None => false end.

Definition at_bol (i : nat) : bool :=
  match i with
  | 0 => true
  | S j => multiline fl && match s !! j with Some x => chr_eqb x NL | None => false end
  end.

(** [$] without [re.M]: at the end, or before a newline that ends the string. *)
Definition at_eol (i : nat) : bool :=
  (i =? length s)
  || ((S i =? length s) && match s !! i with Some x => chr_eqb x NL | None => false end).

Definition at_wordb (i : nat) : bool :=
  xorb (match i with 0 => false | S j => word_at j end) (word_at i).

(** [r*]: [body] runs one [r]; a turn that does not move the cursor is
    not taken. *)
Fixpoint star_run (body : mstate -> (mstate -> option mstate) -> option mstate)
    (k : mstate -> option mstate) (fuel : nat) (st : mstate) : option mstate :=
  match fuel with
  | 0 => k st
  | S fuel' =>
      match body st (fun st' => if st.1 <? st'.1 then star_run body k fuel' st' else None) with
      | Some res => Some res
      | None => k st
      end
  end.

Fixpoint re_run (r : regex) (st : mstate) (k : mstate -> option mstate) : option mstate :=
  match r with
  | RChar c =>
      match s !! st.1 with
      | Some x => if lit_match c x then k (S st.1, st.2) else None
      | None => None
      end
  | RSet p =>
      match s !! st.1 with
      | Some x => if p x then k (S st.1, st.2) else None
      | None => None
      end
  | RBol => if at_bol st.1 then k st else None
  | REol => if at_eol st.1 then k st else None
  | RWordB => if at_wordb st.1 then k st else None
  | REps => k st
  | RSeq r1 r2 => re_run r1 st (fun st' => re_run r2 st' k)
  | RAlt r1 r2 =>
      match re_run r1 st k with
      | Some res => Some res
      | None => re_run r2 st k
      end
  | RStar r1 => star_run (re_run r1) k (S (length s - st.1)) st
  | RGroup n r1 => re_run r1 st (fun st' => k (st'.1, (n, (st.1, st'.1)) :: st'.2))
  end.
End Matcher.

Record rmatch := { m_start : nat; m_end : nat; m_caps : caps }.

(** [m.group(n)] *)
Definition m_group (s : list ascii) (m : rmatch) (n : nat) : list ascii :=
  match list_find (fun e => e.1 = n) (m_caps m) with
  | Some (_, (_, (a, b))) => take (b - a) (drop a s)
  | None => []
  end.

(** A match that starts at [p]. *)
Definition re_match_at (fl : flags) (r : regex) (s : list ascii) (p : nat) : option rmatch :=
  match re_run fl s r (p, []) Some with
  | Some st => Some {| m_start := p; m_end := st.1; m_caps := st.2 |}
  | None => None
  end.

(** [re.match(r, s, fl)] *)
Definition re_match (fl : flags) (r : regex) (s : list ascii) : option rmatch :=
  re_match_at fl r s 0.

(** The leftmost match that starts at one of the [n] positions from [p]. *)
Fixpoint re_search_from (fl : flags) (r : regex) (s : list ascii) (n p : nat) : option rmatch :=
  match n with
  | 0 => None
  | S n' =>
      match re_match_at fl r s p with
      | Some m => Some m
      | None => re_search_from fl r s n' (S p)
      end
  end.

(** [re.search(r, s, fl)] *)
Definition re_search (fl : flags) (r : regex) (s : list ascii) : option rmatch :=
  re_search_from fl r s (S (length s)) 0.

(** [re.finditer(r, s, fl)] for an [r] that matches no empty string: the
    next search starts where the last match ended. *)
Fixpoint re_finditer_from (fl : flags) (r : regex) (s : list ascii) (fuel p : nat) : list rmatch :=
  match fuel with
  | 0 => []
  | S fuel' =>
      match re_search_from fl r s (S (length s) - p) p with
      | Some m => m :: re_finditer_from fl r s fuel' (Nat.max (m_end m) (S (m_start m)))
      | None => []
      end
  end.

Definition re_finditer (fl : flags) (r : regex) (s : list ascii) : list rmatch :=
  re_finditer_from fl r s (S (length s)) 0.

(** [re.split(r, s)] for an [r] that is one group and matches at most
    once in [s]: the text before, the group and the text after. *)
Definition re_split1 (fl : flags) (r : regex) (s : list ascii) : list (list ascii) :=
  match re_search fl r s with
  | Some m => [take (m_start m) s; m_group s m 1; drop (m_end m) s]
  | None => [s]
  end.

(** ** Loops *)

(** What one turn of a loop decides: go on with a new state, or leave
    the loop ([break], [return], or the loop test failing) with a result. *)
Inductive ctl (St R : Type) : Type :=
| Continue (s : St)
| Leave (r : R).
Arguments Continue {St R} s.
Arguments Leave {St R} r.

(** A [while] loop; [step] is the loop test followed by the body. *)
Fixpoint loop {St R} (fuel : nat) (step : St -> outcome (ctl St R)) (st : St) : outcome R :=
  match fuel with
  | 0 => OutOfFuel
  | S fuel' =>
      c ← step st;
      match c with
      | Continue st' => loop fuel' step st'
      | Leave r => Ret r
      end
  end.

(** [for i, x in enumerate(l)] from index [i], with the loop state [st]. *)
Fixpoint for_each {A St} (body : nat -> A -> St -> outcome St) (i : nat) (l : list A) (st : St) : outcome St :=
  match l with
  | [] => Ret st
  | x :: l' => st' ← body i x st; for_each body (S i) l' st'
  end.

(** [b and e] where only [e] can raise. *)
Definition oand (b : bool) (e : outcome bool) : outcome bool :=
  if b then e else Ret false.

(** ** Rules pack: the patterns of [RULES] and those written inline

    Each pattern is quoted with blanks between its tokens. *)

Definition TOP_LEVEL_WORDS : list string :=
  ["class"; "function"; "event"; "state"; "defaultproperties"; "var";
   "struct"; "enum"; "cpptext"; "replication"]%string.

(** [(?m) ^ \s* ( class | function | ... | replication ) \b], always
    used with [re.I]. *)
Definition top_level_tokens : regex :=
  RCat [RBol; RStar r_s; RGroup 1 (RWords TOP_LEVEL_WORDS); RWordB].

(** [^ \s* ( if | while | for ) \s* \(], compiled with [re.I]. *)
Definition CONTROL_LINE : regex :=
  RCat [RBol; RStar r_s; RGroup 1 (RWords ["if"; "while"; "for"]%string); RStar r_s; RChar "("].

(** [\bcpptext\b] *)
Definition re_cpptext : regex := RCat [RWordB; RLit (str "cpptext"); RWordB].

(** [^ \s* ( // .* )? $] *)
Definition re_blank_or_comment : regex :=
  RCat [RBol; RStar r_s; ROpt (RGroup 1 (RSeq (RLit (str "//")) (RStar r_dot))); REol].

(** [^ \s* \{] *)
Definition re_open_brace_line : regex := RCat [RBol; RStar r_s; RChar "{"].

(** [\bdefaultproperties\b] *)
Definition re_defaultproperties : regex :=
  RCat [RWordB; RLit (str "defaultproperties"); RWordB].

(** [\s* \{] *)
Definition re_ws_open_brace : regex := RSeq (RStar r_s) (RChar "{").

(** [^ ( var ( \s+ \w+ | \( [^)]* \) )* ) \s+ [\w\[\]]+ ( \s* = \s* [^;]+ )? $] *)
Definition re_var_decl : regex :=
  RCat [RBol;
        RGroup 1 (RSeq (RLit (str "var"))
                    (RStar (RGroup 2 (RAlt (RSeq (RPlus r_s) (RPlus r_w))
                                           (RCat [RChar "("; RStar (r_not ")"); RChar ")"])))));
        RPlus r_s;
        RPlus (RSet (fun c => isword c || chr_eqb c "[" || chr_eqb c "]"));
        ROpt (RGroup 3 (RCat [RStar r_s; RChar "="; RStar r_s; RPlus (r_not ";")]));
        REol].

(** [^ [A-Za-z_] \w* \s* = \s* [^;]+ $] *)
Definition re_assign : regex :=
  RCat [RBol;
        RSet (fun c => in_range 65 90 c || in_range 97 122 c || chr_eqb c "_");
        RStar r_w; RStar r_s; RChar "="; RStar r_s; RPlus (r_not ";"); REol].

(** [//] *)
Definition re_slashes : regex := RLit (str "//").

(** [( // .* ) $] *)
Definition re_trailing_comment : regex :=
  RSeq (RGroup 1 (RSeq (RLit (str "//")) (RStar r_dot))) REol.

(** [(?im) ^ \s* ( struct | enum ) \b [^\n]* \{] *)
Definition re_struct_enum : regex :=
  RCat [RBol; RStar r_s; RGroup 1 (RWords ["struct"; "enum"]%string); RWordB;
        RStar (r_not NL); RChar "{"].

(** [[{}]] *)
Definition re_brace : regex := RSet (fun c => chr_eqb c "{" || chr_eqb c "}").

(** ** Issue model *)

(** The repair closures.  Each [apply] of the source is a nested
    function whose only captured values are its default arguments
    ([anchor=line_no], [pos=m.end()], [ia=insert_at], [pos=idx]); a
    closure is that function together with the captured value, and
    [call] below runs it on a text. *)
Inductive closure : Type :=
| Cpptext_apply (anchor : nat)            (* in find_cpptext_missing_brace *)
| Safe_close_apply                        (* in safe_close_balance *)
| Defaultproperties_apply (pos : nat)     (* in check_defaultproperties *)
| Semicolons_apply (anchor : nat)         (* in check_semicolons_strict *)
| Control_paren_apply (anchor : nat)      (* in extended_control_paren_balance *)
| Struct_enum_apply (ia : nat)            (* in extended_struct_enum_closer *)
| Delete_char_apply (pos : nat).          (* in the two parenthesis detectors *)

Record Issue := {
  kind : string;
  message : string;
  line : Z;                (* 1-based line number *)
  span : Z * Z;            (* (start_offset, end_offset) *)
  fix_preview : option string;
  apply_fn : option closure   (* present only if safe fix exists *)
}.

(** The key that tells two findings apart. *)
Definition issue_key (it : Issue) : string * Z * string * (Z * Z) :=
  (kind it, line it, message it, span it).

(** The decimal numeral of an f-string. *)
Definition fmt (n : Z) : string := pretty n.

(** [doc.count(NL, 0, p)] *)
Definition count_nl_before (doc : list ascii) (p : nat) : nat := count NL (take p doc).

(** Truth value of a match object. *)
Definition is_match (o : option rmatch) : bool :=
  match o with Some _ => true | None => false end.

Definition LBRACE : ascii := "{"%char.
Definition RBRACE : ascii := "}"%char.
Definition LPAREN : ascii := "("%char.
Definition RPAREN : ascii := ")"%char.
Definition SLASH : ascii := "/"%char.
Definition STAR : ascii := "*"%char.
Definition BACKSLASH : ascii := "092"%char.
Definition SQUOTE : ascii := "'"%char.
Definition DQUOTE : ascii := "034"%char.
Definition SEMI : ascii := ";"%char.

(** ** Heuristics (strict) *)

(** The repair of [find_cpptext_missing_brace]; [anchor] is the line
    number kept from the detection. *)
Definition cpptext_apply (anchor : nat) (doc_in : list ascii) : outcome (list ascii) :=
  let dlines := splitlines doc_in in
  let idx := anchor - 1 in
  let dlines := list_insert_at (idx + 1) [LBRACE; NL] dlines in
  Ret (join dlines).

(** The inner [while] of [find_cpptext_missing_brace]: skip blank and
    comment lines from line [j]. *)
Definition cpptext_skip_step (lines : list (list ascii)) (j : nat) : outcome (ctl nat nat) :=
  b ← oand (j <? length lines)
        (l ← getitem lines j; Ret (is_match (re_match NOFLAGS re_blank_or_comment l)));
  Ret (if b : bool then Continue (j + 1) else Leave j).

Definition cpptext_body (lines : list (list ascii)) (i : nat) (line : list ascii)
    (st : list Issue * nat) : outcome (list Issue * nat) :=
  let '(issues, offs) := st in
  if is_match (re_search RE_I re_cpptext line) then
    if contains LBRACE line then Ret (issues, offs + length line)
    else
      j ← loop (S (length lines)) (cpptext_skip_step lines) (i + 1);
      next_line ← (if j <? length lines then getitem lines j else Ret []);
      let issues :=
        if negb (is_match (re_match NOFLAGS re_open_brace_line next_line)) then
          let start := offs in
          let end_ := offs + length line in
          let line_no := i + 1 in
          issues ++ [ {| kind := "cpptext-brace";
                         message := "Missing '{' after 'cpptext' at line "
                                    +:+ fmt (Z.of_nat line_no) +:+ ".";
                         line := Z.of_nat line_no;
                         span := (Z.of_nat start, Z.of_nat end_);
                         fix_preview := None;
                         apply_fn := Some (Cpptext_apply line_no) |} ]
        else issues in
      Ret (issues, offs + length line)
  else Ret (issues, offs + length line).

Definition find_cpptext_missing_brace (doc : list ascii) : outcome (list Issue) :=
  let lines := splitlines doc in
  st ← for_each (cpptext_body lines) 0 lines ([], 0);
  Ret st.1.

(** The running count of [safe_close_balance]. *)
Definition open_count (doc : list ascii) : Z :=
  foldl (fun oc ch => if chr_eqb ch LBRACE then (oc + 1)%Z
                      else if chr_eqb ch RBRACE then (oc - 1)%Z else oc) 0%Z doc.

Definition safe_close_apply (doc_in : list ascii) : outcome (list ascii) :=
  let joined := doc_in in
  let insert_at :=
    match re_search RE_IM top_level_tokens joined with
    | Some m => m_start m
    | None => length joined
    end in
  Ret (take insert_at joined ++ [RBRACE; NL] ++ drop insert_at joined).

Definition safe_close_balance (doc : list ascii) : outcome (list Issue) :=
  let oc := open_count doc in
  if (oc <? 0)%Z then
    Ret [ {| kind := "brace-balance";
             message := "Too many '}' braces found.";
             line := 1;
             span := (0, Z.min 50 (Z.of_nat (length doc)))%Z;
             fix_preview := None;
             apply_fn := None |} ]
  else if (oc >? 0)%Z then
    Ret [ {| kind := "brace-balance";
             message := "Unbalanced braces: more '{' than '}'.";
             line := 1;
             span := (0, Z.min 50 (Z.of_nat (length doc)))%Z;
             fix_preview := None;
             apply_fn := Some Safe_close_apply |} ]
  else Ret [].

(** The repair of [check_defaultproperties]; [pos] is the end of the
    match kept from the detection. *)
Definition defaultproperties_apply (pos : nat) (doc_in : list ascii) : outcome (list ascii) :=
  Ret (take pos doc_in ++ [" "%char; LBRACE; NL; RBRACE; NL] ++ drop pos doc_in).

Definition defaultproperties_body (doc : list ascii) (_ : nat) (m : rmatch)
    (issues : list Issue) : outcome (list Issue) :=
  let tail := drop (m_end m) doc in
  if negb (is_match (re_match NOFLAGS re_ws_open_brace tail)) then
    let start := Z.max 0 (Z.of_nat (m_start m) - 5) in
    let end_ := Z.min (Z.of_nat (length doc)) (Z.of_nat (m_end m) + 5) in
    let line_no := count_nl_before doc (m_start m) + 1 in
    Ret (issues ++ [ {| kind := "defaultprops-brace";
                        message := "'defaultproperties' at line " +:+ fmt (Z.of_nat line_no)
                                   +:+ " should be followed by '{...}'.";
                        line := Z.of_nat line_no;
                        span := (start, end_);
                        fix_preview := None;
                        apply_fn := Some (Defaultproperties_apply (m_end m)) |} ])
  else Ret issues.

Definition check_defaultproperties (doc : list ascii) : outcome (list Issue) :=
  for_each (defaultproperties_body doc) 0 (re_finditer RE_I re_defaultproperties doc) [].

(** The repair of [check_semicolons_strict]. *)
Definition semicolons_apply (anchor : nat) (doc_in : list ascii) : outcome (list ascii) :=
  let d := splitlines doc_in in
  let idx := anchor - 1 in
  if idx <? length d then
    d_idx ← getitem d idx;
    if endswith (rstrip d_idx) [SEMI] then Ret doc_in
    else
      let parts := re_split1 NOFLAGS re_trailing_comment d_idx in
      if length parts =? 3 then
        p0 ← getitem parts 0;
        p1 ← getitem parts 1;
        let p0 := rstrip (rstrip_nl p0) ++ [SEMI] in
        Ret (join (<[idx := p0 ++ p1 ++ [NL]]> d))
      else
        Ret (join (<[idx := rstrip (rstrip_nl d_idx) ++ [SEMI; NL]]> d))
  else Ret (join d).

Definition semicolons_body (i : nat) (line : list ascii)
    (st : list Issue * nat) : outcome (list Issue * nat) :=
  let '(issues, offs) := st in
  let stripped := strip line in
  if (match stripped with [] => true | _ => false end)
     || startswith stripped [SLASH; SLASH] || endswith stripped [LBRACE]
     || endswith stripped [RBRACE] || startswith stripped [SLASH; STAR]
  then Ret (issues, offs + length line)
  else
    let var_decl := re_match RE_I re_var_decl stripped in
    let assign := re_match NOFLAGS re_assign stripped in
    let issues :=
      if (is_match var_decl || is_match assign) && negb (endswith stripped [SEMI]) then
        let start := offs in
        let end_ := offs + length line in
        let line_no := i + 1 in
        issues ++ [ {| kind := "semicolon-missing";
                       message := "Likely missing ';' at line " +:+ fmt (Z.of_nat line_no) +:+ ".";
                       line := Z.of_nat line_no;
                       span := (Z.of_nat start, Z.of_nat end_);
                       fix_preview := None;
                       apply_fn := Some (Semicolons_apply line_no) |} ]
      else issues in
    Ret (issues, offs + length line).

Definition check_semicolons_strict (doc : list ascii) : outcome (list Issue) :=
  let lines := splitlines doc in
  st ← for_each semicolons_body 0 lines ([], 0);
  Ret st.1.

(** ** Extended helpers (conservative) *)

(** The repair of [extended_control_paren_balance]. *)
Definition control_paren_apply (anchor : nat) (doc_in : list ascii) : outcome (list ascii) :=
  let d := splitlines doc_in in
  let idx := anchor - 1 in
  d_idx ← getitem d idx;
  let s := rstrip_nl d_idx in
  let s :=
    match re_search NOFLAGS re_slashes s with
    | Some m =>
        let insert_at := m_start m in
        rstrip (take insert_at s) ++ [RPAREN] ++ [" "%char] ++ drop insert_at s
    | None => rstrip s ++ [RPAREN]
    end in
  Ret (join (<[idx := s ++ [NL]]> d)).

Definition control_paren_body (i : nat) (line : list ascii)
    (st : list Issue * nat) : outcome (list Issue * nat) :=
  let '(issues, offs) := st in
  if negb (is_match (re_search RE_I CONTROL_LINE line)) then Ret (issues, offs + length line)
  else
    let opens := Z.of_nat (count LPAREN line) in
    let closes := Z.of_nat (count RPAREN line) in
    let issues :=
      if (opens - closes =? 1)%Z then
        let start := offs in
        let end_ := offs + length line in
        let line_no := i + 1 in
        issues ++ [ {| kind := "paren-control-close";
                       message := "Control statement may be missing a ')' at line "
                                  +:+ fmt (Z.of_nat line_no) +:+ ".";
                       line := Z.of_nat line_no;
                       span := (Z.of_nat start, Z.of_nat end_);
                       fix_preview := None;
                       apply_fn := Some (Control_paren_apply line_no) |} ]
      else issues in
    Ret (issues, offs + length line).

Definition extended_control_paren_balance (doc : list ascii) : outcome (list Issue) :=
  let lines := splitlines doc in
  st ← for_each control_paren_body 0 lines ([], 0);
  Ret st.1.

(** The repair of [extended_struct_enum_closer]; [ia] is the offset kept
    from the detection. *)
Definition struct_enum_apply (ia : nat) (doc_in : list ascii) : outcome (list ascii) :=
  Ret (take ia doc_in ++ [RBRACE; NL] ++ drop ia doc_in).

(** One turn of the [while True] of [extended_struct_enum_closer]; the
    state is [(count, pos)]. *)
Definition struct_enum_step (text : list ascii) (st : Z * nat) : outcome (ctl (Z * nat) (Z * nat)) :=
  let '(count, pos) := st in
  match re_search NOFLAGS re_brace (drop pos text) with
  | None => Ret (Leave (count, pos))
  | Some nxt =>
      c ← getitem text (pos + m_start nxt);
      let pos := pos + m_start nxt + 1 in
      let count := if chr_eqb c LBRACE then (count + 1)%Z else (count - 1)%Z in
      if (count =? 0)%Z then Ret (Leave (count, pos)) else Ret (Continue (count, pos))
  end.

Definition struct_enum_body (text : list ascii) (_ : nat) (m : rmatch)
    (issues : list Issue) : outcome (list Issue) :=
  let start_block := m_end m in
  '(count, pos) ← loop (S (length text)) (struct_enum_step text) (1%Z, start_block);
  if negb (count =? 0)%Z then
    let insert_at :=
      match re_search RE_IM top_level_tokens (drop pos text) with
      | Some tl => pos + m_start tl
      | None => length text
      end in
    let line_no := count_nl_before text (m_start m) + 1 in
    Ret (issues ++ [ {| kind := "struct-enum-close";
                        message := "Missing '}' to close "
                                   +:+ string_of_list_ascii (m_group text m 1)
                                   +:+ " block starting at line " +:+ fmt (Z.of_nat line_no) +:+ ".";
                        line := Z.of_nat line_no;
                        span := (Z.of_nat (m_start m), Z.of_nat (m_end m));
                        fix_preview := None;
                        apply_fn := Some (Struct_enum_apply insert_at) |} ])
  else Ret issues.

Definition extended_struct_enum_closer (doc : list ascii) : outcome (list Issue) :=
  let text := doc in
  for_each (struct_enum_body text) 0 (re_finditer RE_IM re_struct_enum text) [].

(** *** The lexical skipper

    [skip_line_comment], [skip_block_comment] and [skip_string] are
    written twice in the source, once in each of the two parenthesis
    detectors, with the same text; [line] is the variable of the
    enclosing detector that the last two update. *)
Section Skipper.
Variable doc : list ascii.
Let n := length doc.

Definition skip_line_comment_step (j : nat) : outcome (ctl nat nat) :=
  b ← oand (j <? n) (c ← getitem doc j; Ret (negb (chr_eqb c NL)));
  Ret (if b : bool then Continue (j + 1) else Leave j).

Definition skip_line_comment (j : nat) : outcome nat :=
  loop (S n) skip_line_comment_step j.

Definition skip_block_comment_step (st : nat * Z) : outcome (ctl (nat * Z) (nat * Z)) :=
  let '(j, line) := st in
  b ← oand (j + 1 <? n)
        (c ← getitem doc j;
         e ← oand (chr_eqb c STAR) (c1 ← getitem doc (j + 1); Ret (chr_eqb c1 SLASH));
         Ret (negb e));
  if b : bool then
    c ← getitem doc j;
    let line := if chr_eqb c NL then (line + 1)%Z else line in
    Ret (Continue (j + 1, line))
  else Ret (Leave (j, line)).

Definition skip_block_comment (j : nat) (line : Z) : outcome (nat * Z) :=
  let j := j + 2 in
  '(j, line) ← loop (S n) skip_block_comment_step (j, line);
  Ret (Nat.min (j + 2) n, line).

Definition skip_string_step (quote : ascii) (st : nat * Z) : outcome (ctl (nat * Z) (nat * Z)) :=
  let '(j, line) := st in
  if j <? n then
    c ← getitem doc j;
    if chr_eqb c BACKSLASH then Ret (Continue (j + 2, line))
    else if chr_eqb c quote then Ret (Leave (j + 1, line))
    else
      let line := if chr_eqb c NL then (line + 1)%Z else line in
      Ret (Continue (j + 1, line))
  else Ret (Leave (j, line)).

Definition skip_string (j : nat) (quote : ascii) (line : Z) : outcome (nat * Z) :=
  let j := j + 1 in
  loop (S n) (skip_string_step quote) (j, line).

End Skipper.

(** The repair of both parenthesis detectors: drop the character at the
    offset [pos] kept from the detection. *)
Definition delete_char_apply (pos : nat) (doc_in : list ascii) : outcome (list ascii) :=
  Ret (take pos doc_in ++ drop (pos + 1) doc_in).

(** Calling a repair closure on a text. *)
Definition call (f : closure) (doc_in : list ascii) : outcome (list ascii) :=
  match f with
  | Cpptext_apply anchor => cpptext_apply anchor doc_in
  | Safe_close_apply => safe_close_apply doc_in
  | Defaultproperties_apply pos => defaultproperties_apply pos doc_in
  | Semicolons_apply anchor => semicolons_apply anchor doc_in
  | Control_paren_apply anchor => control_paren_apply anchor doc_in
  | Struct_enum_apply ia => struct_enum_apply ia doc_in
  | Delete_char_apply pos => delete_char_apply pos doc_in
  end.

(** One turn of the main loop of [extended_unmatched_close_paren]; the
    state is [(i, depth, line)] and the loop is left with [issues]. *)
Definition close_paren_step (doc : list ascii) (st : nat * Z * Z)
    : outcome (ctl (nat * Z * Z) (list Issue)) :=
  let '(i, depth, line) := st in
  let n := length doc in
  if i <? n then
    c ← getitem doc i;
    if chr_eqb c NL then Ret (Continue (i + 1, depth, (line + 1)%Z))
    else
      b1 ← oand (chr_eqb c SLASH)
             (oand (i + 1 <? n) (c1 ← getitem doc (i + 1); Ret (chr_eqb c1 SLASH)));
      if b1 : bool then
        i' ← skip_line_comment doc (i + 2); Ret (Continue (i', depth, line))
      else
        b2 ← oand (chr_eqb c SLASH)
               (oand (i + 1 <? n) (c1 ← getitem doc (i + 1); Ret (chr_eqb c1 STAR)));
        if b2 : bool then
          '(i', line') ← skip_block_comment doc i line; Ret (Continue (i', depth, line'))
        else if chr_eqb c SQUOTE || chr_eqb c DQUOTE then
          '(i', line') ← skip_string doc i c line; Ret (Continue (i', depth, line'))
        else if chr_eqb c LPAREN then Ret (Continue (i + 1, (depth + 1)%Z, line))
        else if chr_eqb c RPAREN then
          if (depth =? 0)%Z then
            let idx := i in
            let line_no := line in
            Ret (Leave [ {| kind := "paren-extra-close";
                            message := "Unmatched ')' at line " +:+ fmt line_no +:+ ".";
                            line := line_no;
                            span := (Z.of_nat idx, Z.of_nat (idx + 1));
                            fix_preview := None;
                            apply_fn := Some (Delete_char_apply idx) |} ])
          else Ret (Continue (i + 1, (depth - 1)%Z, line))
        else Ret (Continue (i + 1, depth, line))
  else Ret (Leave []).

Definition extended_unmatched_close_paren (doc : list ascii) : outcome (list Issue) :=
  loop (S (length doc)) (close_paren_step doc) (0, 0%Z, 1%Z).

(** One turn of the main loop of [extended_unmatched_open_paren]; the
    state is [(i, line, stack)], the top of the stack is the last
    element, and the loop is left with the stack. *)
Definition open_paren_step (doc : list ascii) (st : nat * Z * list (nat * Z))
    : outcome (ctl (nat * Z * list (nat * Z)) (list (nat * Z))) :=
  let '(i, line, stack) := st in
  let n := length doc in
  if i <? n then
    c ← getitem doc i;
    if chr_eqb c NL then Ret (Continue (i + 1, (line + 1)%Z, stack))
    else
      b1 ← oand (chr_eqb c SLASH)
             (oand (i + 1 <? n) (c1 ← getitem doc (i + 1); Ret (chr_eqb c1 SLASH)));
      if b1 : bool then
        i' ← skip_line_comment doc (i + 2); Ret (Continue (i', line, stack))
      else
        b2 ← oand (chr_eqb c SLASH)
               (oand (i + 1 <? n) (c1 ← getitem doc (i + 1); Ret (chr_eqb c1 STAR)));
        if b2 : bool then
          '(i', line') ← skip_block_comment doc i line; Ret (Continue (i', line', stack))
        else if chr_eqb c SQUOTE || chr_eqb c DQUOTE then
          '(i', line') ← skip_string doc i c line; Ret (Continue (i', line', stack))
        else if chr_eqb c LPAREN then Ret (Continue (i + 1, line, stack ++ [(i, line)]))
        else if chr_eqb c RPAREN then
          Ret (Continue (i + 1, line,
                         match stack with [] => stack | _ => removelast stack end))
        else Ret (Continue (i + 1, line, stack))
  else Ret (Leave stack).

Definition extended_unmatched_open_paren (doc : list ascii) : outcome (list Issue) :=
  stack ← loop (S (length doc)) (open_paren_step doc) (0, 1%Z, []);
  match last stack with
  | None => Ret []
  | Some (idx, line_no) =>
      Ret [ {| kind := "paren-extra-open";
               message := "Unmatched '(' at line " +:+ fmt line_no +:+ ".";
               line := line_no;
               span := (Z.of_nat idx, Z.of_nat (idx + 1));
               fix_preview := None;
               apply_fn := Some (Delete_char_apply idx) |} ]
  end.

(** ** Scanning *)

(** The de-duplication loop: [dedup] is the dictionary of the keys seen. *)
Fixpoint dedup_loop (issues : list Issue) (dedup : gmap (string * Z * string * (Z * Z)) bool)
    (res : list Issue) : list Issue :=
  match issues with
  | [] => res
  | it :: issues' =>
      let key := issue_key it in
      match dedup !! key with
      | None => dedup_loop issues' (<[key := true]> dedup) (res ++ [it])
      | Some _ => dedup_loop issues' dedup res
      end
  end.

Definition dedup_issues (issues : list Issue) : list Issue := dedup_loop issues ∅ [].

Definition paren_balance (doc : list ascii) : list Issue :=
  let open_p := Z.of_nat (count LPAREN doc) in
  let close_p := Z.of_nat (count RPAREN doc) in
  if negb (open_p =? close_p)%Z then
    let diff := (open_p - close_p)%Z in
    let msg := if (diff >? 0)%Z then "More '(' than ')'." else "More ')' than '('." in
    [ {| kind := "paren-balance";
         message := "Unbalanced parentheses: " +:+ msg;
         line := 1;
         span := (0, Z.min 50 (Z.of_nat (length doc)))%Z;
         fix_preview := None;
         apply_fn := None |} ]
  else [].

(** The findings of [scan_doc_for_issues] before the de-duplication. *)
Definition detector_output (doc : list ascii) (extended : bool) : outcome (list Issue) :=
  let issues := [] in
  i1 ← find_cpptext_missing_brace doc; let issues := issues ++ i1 in
  i2 ← safe_close_balance doc; let issues := issues ++ i2 in
  i3 ← check_defaultproperties doc; let issues := issues ++ i3 in
  i4 ← check_semicolons_strict doc; let issues := issues ++ i4 in
  let issues := issues ++ paren_balance doc in
  if extended then
    i5 ← extended_control_paren_balance doc; let issues := issues ++ i5 in
    i6 ← extended_struct_enum_closer doc; let issues := issues ++ i6 in
    i7 ← extended_unmatched_close_paren doc; let issues := issues ++ i7 in
    Ret issues
  else Ret issues.

Definition scan_doc_for_issues (doc : list ascii) (extended : bool) : outcome (list Issue) :=
  issues ← detector_output doc extended;
  Ret (dedup_issues issues).

(** The issue list that [scan_now] builds from the text of the editor:
    the scan, the detector of the unmatched opening parenthesis when its
    toggle is set, and one more de-duplication. *)
Definition scan_now (doc : list ascii) (extended unmatched_open : bool) : outcome (list Issue) :=
  issues ← scan_doc_for_issues doc extended;
  issues ← (if unmatched_open then i8 ← extended_unmatched_open_paren doc; Ret (issues ++ i8)
            else Ret issues);
  Ret (dedup_issues issues).

(** The text of a line followed by a newline. *)
Definition ln (s : string) : list ascii := str s ++ [NL].


(** The repair of an issue, applied to [text], returns [out]. *)
Definition repairs_to (it : Issue) (text out : list ascii) : Prop :=
  exists f, apply_fn it = Some f /\ call f text = Ret out.

(** The scenario of the default properties block without braces. *)
Definition doc_defaultprops : list ascii := ln "defaultproperties" ++ ln "Health=100".
Definition doc_defaultprops_fixed : list ascii :=
  ln "defaultproperties {" ++ ln "}" ++ ln "" ++ ln "Health=100".
(** The same without the empty line that follows the closing brace. *)
Definition doc_defaultprops_tight : list ascii :=
  ln "defaultproperties {" ++ ln "}" ++ ln "Health=100".


(** ** The cursor of the parenthesis detectors

    The main loops of the two detectors start every turn in the same
    way: they look at what stands at the cursor, a newline, the start of
    a comment or of a string (that they skip), or a character of the
    code.  [lex_at] is that common start. *)
Inductive lexeme :=
| LNewline
| LSkipTo (i' : nat) (line' : Z)
| LCode (c : ascii).

Definition lex_at (doc : list ascii) (i : nat) (line : Z) : outcome lexeme :=
  let n := length doc in
  c ← getitem doc i;
  if chr_eqb c NL then Ret LNewline
  else
    b1 ← oand (chr_eqb c SLASH)
           (oand (i + 1 <? n) (c1 ← getitem doc (i + 1); Ret (chr_eqb c1 SLASH)));
    if b1 : bool then j ← skip_line_comment doc (i + 2); Ret (LSkipTo j line)
    else
      b2 ← oand (chr_eqb c SLASH)
             (oand (i + 1 <? n) (c1 ← getitem doc (i + 1); Ret (chr_eqb c1 STAR)));
      if b2 : bool then '(j, line') ← skip_block_comment doc i line; Ret (LSkipTo j line')
      else if chr_eqb c SQUOTE || chr_eqb c DQUOTE then
        '(j, line') ← skip_string doc i c line; Ret (LSkipTo j line')
      else Ret (LCode c).

(** ** What the properties speak about *)

(** A line number from 1 and a span inside the document. *)
Definition span_ok (doc : list ascii) (it : Issue) : Prop :=
  (1 <= line it)%Z /\ (0 <= (span it).1)%Z /\ ((span it).1 <= (span it).2)%Z
  /\ ((span it).2 <= Z.of_nat (length doc))%Z.

(** Where an issue found in [doc] comes from: its kind, and the closure
    that repairs it with the value the closure captured. *)
Inductive issue_of (doc : list ascii) (it : Issue) : Prop :=
| of_cpptext (a : nat) :
    kind it = "cpptext-brace" -> 1 <= a -> line it = Z.of_nat a ->
    apply_fn it = Some (Cpptext_apply a) -> issue_of doc it
| of_brace_close :
    kind it = "brace-balance" -> line it = 1%Z -> (open_count doc < 0)%Z ->
    apply_fn it = None -> issue_of doc it
| of_brace_open :
    kind it = "brace-balance" -> line it = 1%Z -> (0 < open_count doc)%Z ->
    apply_fn it = Some Safe_close_apply -> issue_of doc it
| of_defaultprops (pos : nat) :
    kind it = "defaultprops-brace" -> pos <= length doc ->
    apply_fn it = Some (Defaultproperties_apply pos) -> issue_of doc it
| of_semicolon (a : nat) :
    kind it = "semicolon-missing" -> 1 <= a -> line it = Z.of_nat a ->
    apply_fn it = Some (Semicolons_apply a) -> issue_of doc it
| of_paren_balance :
    kind it = "paren-balance" -> line it = 1%Z -> count LPAREN doc <> count RPAREN doc ->
    apply_fn it = None -> issue_of doc it
| of_control_paren (a : nat) :
    kind it = "paren-control-close" -> 1 <= a -> line it = Z.of_nat a ->
    apply_fn it = Some (Control_paren_apply a) -> issue_of doc it
| of_struct_enum (ia : nat) :
    kind it = "struct-enum-close" -> ia <= length doc ->
    apply_fn it = Some (Struct_enum_apply ia) -> issue_of doc it
| of_extra_close (idx : nat) :
    kind it = "paren-extra-close" -> doc !! idx = Some RPAREN ->
    span it = (Z.of_nat idx, Z.of_nat (idx + 1)) ->
    apply_fn it = Some (Delete_char_apply idx) -> issue_of doc it
| of_extra_open (idx : nat) :
    kind it = "paren-extra-open" -> doc !! idx = Some LPAREN ->
    span it = (Z.of_nat idx, Z.of_nat (idx + 1)) ->
    apply_fn it = Some (Delete_char_apply idx) -> issue_of doc it.

Definition issue_ok (doc : list ascii) (it : Issue) : Prop :=
  span_ok doc it /\ issue_of doc it.

(** The invariant of the loops over the lines. *)
Definition lines_inv (doc : list ascii) (k : nat) (st : list Issue * nat) : Prop :=
  st.2 = length (join (take k (splitlines doc))) /\ Forall (issue_ok doc) st.1.


(** What [lex_at] returns at a position of the document. *)
Definition lexeme_ok (doc : list ascii) (i : nat) (line : Z) (lx : lexeme) : Prop :=
  match lx with
  | LNewline => doc !! i = Some NL
  | LSkipTo i' line' => i < i' /\ (line <= line')%Z
  | LCode c => doc !! i = Some c
  end.


(** The entries of [l] that no earlier entry of [l] shares its key with,
    in the order of [l]. *)
Fixpoint first_occurrences (l : list Issue) : list Issue :=
  match l with
  | [] => []
  | it :: l' => it :: filter (fun it' => issue_key it' <> issue_key it) (first_occurrences l')
  end.

(** The two issues of [safe_close_balance]. *)
Definition brace_issue (doc : list ascii) (msg : string) (f : option closure) : Issue :=
  {| kind := "brace-balance";
     message := msg;
     line := 1;
     span := (0, Z.min 50 (Z.of_nat (length doc)))%Z;
     fix_preview := None;
     apply_fn := f |}.

(** ** Repairs: what they capture and when they edit *)

(** A repair that captures nothing: all it uses is the text it is given. *)
Definition text_repair (it : Issue) (f : closure) : Prop :=
  kind it = "brace-balance" /\ forall text, call f text = safe_close_apply text.

(** A repair that captures the line number of its issue and finds that
    line again in the text it is given. *)
Definition anchored_repair (it : Issue) (f : closure) : Prop :=
  exists a, 1 <= a /\ line it = Z.of_nat a /\
    ((kind it = "cpptext-brace" /\ forall text, call f text = cpptext_apply a text)
     \/ (kind it = "semicolon-missing" /\ forall text, call f text = semicolons_apply a text)
     \/ (kind it = "paren-control-close"
         /\ forall text, call f text = control_paren_apply a text)).

(** A repair that captures a character offset of the scanned document
    [doc] and edits the text it is given at that offset. *)
Definition offset_repair (doc : list ascii) (it : Issue) (f : closure) : Prop :=
  exists pos, pos <= length doc /\
    ((kind it = "defaultprops-brace"
      /\ forall text, call f text
                      = Ret (take pos text ++ [" "%char; LBRACE; NL; RBRACE; NL] ++ drop pos text))
     \/ (kind it = "struct-enum-close"
         /\ forall text, call f text = Ret (take pos text ++ [RBRACE; NL] ++ drop pos text))
     \/ ((kind it = "paren-extra-close" \/ kind it = "paren-extra-open")
         /\ span it = (Z.of_nat pos, Z.of_nat (pos + 1))
         /\ forall text, call f text = Ret (take pos text ++ drop (pos + 1) text))).

(** C1 as it is stated: a repair uses no offset from the detection, so
    two repairs for the same kind of issue at the same line give the
    same result on every text, whatever documents their issues came
    from. *)
Definition repairs_use_only_the_text : Prop :=
  forall (d1 d2 text : list ascii) (extended : bool) (is1 is2 : list Issue)
         (it1 it2 : Issue) (f1 f2 : closure),
    scan_doc_for_issues d1 extended = Ret is1 ->
    scan_doc_for_issues d2 extended = Ret is2 ->
    it1 ∈ is1 -> it2 ∈ is2 ->
    kind it1 = kind it2 -> line it1 = line it2 ->
    apply_fn it1 = Some f1 -> apply_fn it2 = Some f2 ->
    call f1 text = call f2 text.

(** No issue of [issues] has the kind and the line of [it]. *)
Definition not_reported (it : Issue) (issues : list Issue) : Prop :=
  forall it', it' ∈ issues -> ~ (kind it' = kind it /\ line it' = line it).

(** C2 as it is stated: a repair returns the text unchanged when a scan
    of that text no longer reports the issue. *)
Definition repairs_guard_themselves : Prop :=
  forall (doc text : list ascii) (extended : bool) (issues issues' : list Issue)
         (it : Issue) (f : closure),
    scan_doc_for_issues doc extended = Ret issues ->
    it ∈ issues -> apply_fn it = Some f ->
    scan_doc_for_issues text extended = Ret issues' ->
    not_reported it issues' ->
    call f text = Ret text.

(** C9 as it is stated: after a repair the scan of the repaired
    document does not report the kind and line of the repaired issue. *)
Definition repairs_converge : Prop :=
  forall (doc : list ascii) (extended : bool) (issues : list Issue)
         (it : Issue) (f : closure),
    scan_doc_for_issues doc extended = Ret issues ->
    it ∈ issues -> apply_fn it = Some f ->
    returns (call f doc) (fun doc' =>
      returns (scan_doc_for_issues doc' extended) (not_reported it)).

(** The guard of the repair of [check_semicolons_strict]: the text has
    no line [anchor], or that line ends in a semicolon once the white
    space at its end is dropped. *)
Definition semicolon_guard (anchor : nat) (text : list ascii) : bool :=
  match splitlines text !! (anchor - 1) with
  | Some l => endswith (rstrip l) [SEMI]
  | None => true
  end.

(** What the repair [f] of [it] does to any text, guard or no guard. *)
Definition repair_effect (it : Issue) (f : closure) (text : list ascii) : Prop :=
  (kind it = "semicolon-missing"
   -> exists a, line it = Z.of_nat a
                /\ (semicolon_guard a text = true -> call f text = Ret text))
  /\ (kind it = "brace-balance" \/ kind it = "cpptext-brace" \/ kind it = "struct-enum-close"
      -> returns (call f text) (fun out => length out = length text + 2))
  /\ (kind it = "defaultprops-brace"
      -> returns (call f text) (fun out => length out = length text + 5))
  /\ (kind it = "paren-extra-close" \/ kind it = "paren-extra-open"
      -> exists pos, span it = (Z.of_nat pos, Z.of_nat (pos + 1))
           /\ returns (call f text) (fun out =>
                if pos <? length text then S (length out) = length text else out = text)).

Definition doc_one_brace : list ascii := [LBRACE].
Definition doc_two_braces : list ascii := [LBRACE; LBRACE].
Definition doc_two_braces_fixed : list ascii := [LBRACE; LBRACE; RBRACE; NL].
Definition doc_dp1 : list ascii := ln "defaultproperties".
Definition doc_dp2 : list ascii := ln " defaultproperties".

(** ** The parentheses of the code

    The two parenthesis detectors walk the document with the same
    cursor: [lex_at] tells what stands at the cursor and [advance] where
    the cursor and the line counter go from there. *)

Definition advance (i : nat) (line : Z) (lx : lexeme) : nat * Z :=
  match lx with
  | LNewline => (i + 1, (line + 1)%Z)
  | LSkipTo i' line' => (i', line')
  | LCode _ => (i + 1, line)
  end.

(** [reaches doc i line s sline]: the cursor, at [i] with the line
    counter at [line], comes to [s] with the line counter at [sline]. *)
Inductive reaches (doc : list ascii) : nat -> Z -> nat -> Z -> Prop :=
| reaches_here (i : nat) (line : Z) : reaches doc i line i line
| reaches_step (i : nat) (line : Z) (lx : lexeme) (s : nat) (sline : Z) :
    i < length doc ->
    lex_at doc i line = Ret lx ->
    reaches doc (advance i line lx).1 (advance i line lx).2 s sline ->
    reaches doc i line s sline.

(** [p] lies inside a comment or a string literal: the cursor, on its
    way from the start of the document, stands at some [s] before [p]
    where a line comment, a block comment or a string starts, and the
    skipper takes it from there to a position after [p]. *)
Definition in_comment_or_string (doc : list ascii) (p : nat) : Prop :=
  exists s sline e eline,
    reaches doc 0 1%Z s sline /\ s < length doc
    /\ lex_at doc s sline = Ret (LSkipTo e eline) /\ s < p < e.

(** The characters that mean nothing to the skipper inside a comment or
    a string: all but the newline, the slash, the star, the backslash
    and the two quotes. *)
Definition plain (c : ascii) : bool :=
  negb (chr_eqb c NL || chr_eqb c SLASH || chr_eqb c STAR || chr_eqb c BACKSLASH
        || chr_eqb c SQUOTE || chr_eqb c DQUOTE).

(** A parenthesis of the code: offset, line and character. *)
Definition token := (nat * Z * ascii)%type.

(** The walk of the detectors with nothing but the parentheses kept. *)
Definition paren_token_step (doc : list ascii) (st : nat * Z * list token)
    : outcome (ctl (nat * Z * list token) (list token)) :=
  let '(i, line, toks) := st in
  if i <? length doc then
    lx ← lex_at doc i line;
    match lx with
    | LNewline => Ret (Continue (i + 1, (line + 1)%Z, toks))
    | LSkipTo i' line' => Ret (Continue (i', line', toks))
    | LCode c =>
        Ret (Continue (i + 1, line,
                       if chr_eqb c LPAREN || chr_eqb c RPAREN then toks ++ [(i, line, c)]
                       else toks))
    end
  else Ret (Leave toks).

Definition paren_tokens (doc : list ascii) : outcome (list token) :=
  loop (S (length doc)) (paren_token_step doc) (0, 1%Z, []).

Definition is_open (t : token) : bool := chr_eqb t.2 LPAREN.

Definition opens (toks : list token) : nat := length (filter (fun t => is_open t = true) toks).
Definition closes (toks : list token) : nat := length (filter (fun t => is_open t = false) toks).

(** No closing parenthesis of [toks] comes without an opening one
    before it, when [d] parentheses are open at the start. *)
Definition never_surplus (d : nat) (toks : list token) : Prop :=
  forall pre, pre `prefix_of` toks -> closes pre <= d + opens pre.

(** The token [t], followed by [post], is an opening parenthesis that
    nothing closes. *)
Definition unmatched_open (t : token) (post : list token) : Prop :=
  is_open t = true /\ never_surplus 0 post.

(** The first closing parenthesis met with [depth] at zero. *)
Fixpoint first_unmatched_close (depth : nat) (toks : list token) : option token :=
  match toks with
  | [] => None
  | t :: r =>
      if is_open t then first_unmatched_close (S depth) r
      else match depth with
           | 0 => Some t
           | S d => first_unmatched_close d r
           end
  end.

(** The stack of the opening parentheses, after [toks]. *)
Definition stack_after (stack : list (nat * Z)) (toks : list token) : list (nat * Z) :=
  foldl (fun st (t : token) =>
           if is_open t then st ++ [t.1]
           else match st with [] => st | _ => removelast st end) stack toks.

(** The greatest surplus of closing parentheses over the prefixes of [toks]. *)
Fixpoint max_surplus (toks : list token) : nat :=
  match toks with
  | [] => 0
  | t :: r => if is_open t then max_surplus r - 1 else S (max_surplus r)
  end.

(** The opening parentheses of [toks] that nothing closes. *)
Fixpoint unmatched_opens (toks : list token) : list (nat * Z) :=
  match toks with
  | [] => []
  | t :: r =>
      if is_open t && (max_surplus r =? 0) then t.1 :: unmatched_opens r
      else unmatched_opens r
  end.

(** The issues of the two detectors. *)
Definition close_issue (idx : nat) (line_no : Z) : Issue :=
  {| kind := "paren-extra-close";
     message := "Unmatched ')' at line " +:+ fmt line_no +:+ ".";
     line := line_no;
     span := (Z.of_nat idx, Z.of_nat (idx + 1));
     fix_preview := None;
     apply_fn := Some (Delete_char_apply idx) |}.

Definition open_issue (idx : nat) (line_no : Z) : Issue :=
  {| kind := "paren-extra-open";
     message := "Unmatched '(' at line " +:+ fmt line_no +:+ ".";
     line := line_no;
     span := (Z.of_nat idx, Z.of_nat (idx + 1));
     fix_preview := None;
     apply_fn := Some (Delete_char_apply idx) |}.

(** A token of [doc]: a parenthesis that stands at its offset, at a
    line from 1. *)
Definition token_ok (doc : list ascii) (t : token) : Prop :=
  doc !! t.1.1 = Some t.2 /\ (t.2 = LPAREN \/ t.2 = RPAREN) /\ (1 <= t.1.2)%Z.

(** The tokens come in the order of their offsets. *)
Definition by_offset (t u : token) : Prop := t.1.1 < u.1.1.

(** The cursor at [i] does not stop at [p] any more: it is past [p], or
    on its way to a comment or a string that holds [p]. *)
Definition clear_of (doc : list ascii) (p : nat) (i : nat) (line : Z) : Prop :=
  p < i
  \/ exists s sline e eline,
       reaches doc i line s sline
       /\ lex_at doc s sline = Ret (LSkipTo e eline) /\ s < p < e.

(** A document with a closing parenthesis in a block comment, and the
    offset of that parenthesis. *)
Definition doc_comment_paren : list ascii := str "(a) /* ) */".
Definition comment_paren_offset : nat := 7.

(** Where a skip comes to rest: at the end of the document, or at what
    closes the construct. *)
Definition block_comment_end (doc : list ascii) (i : nat) (r : nat * Z) : Prop :=
  r.1 = length doc
  \/ (i + 2 <= r.1 - 2 /\ r.1 <= length doc
      /\ doc !! (r.1 - 2) = Some STAR /\ doc !! (r.1 - 1) = Some SLASH).

Definition string_end (doc : list ascii) (i : nat) (quote : ascii) (r : nat * Z) : Prop :=
  length doc <= r.1
  \/ (i + 1 <= r.1 - 1 /\ r.1 <= length doc /\ doc !! (r.1 - 1) = Some quote).

Definition line_comment_end (doc : list ascii) (j : nat) (j' : nat) : Prop :=
  j <= j' /\ (length doc <= j' \/ doc !! j' = Some NL).

(** The scenarios of the missing semicolon, of the control statement and
    of the closing parenthesis too many. *)
Definition doc_semicolon : list ascii := ln "var int Count".
Definition doc_semicolon_fixed : list ascii := ln "var int Count;".
Definition doc_control : list ascii := ln "if (x > 0" ++ ln "  DoThing();".
Definition doc_control_fixed : list ascii := ln "if (x > 0)" ++ ln "  DoThing();".
Definition doc_extra_close : list ascii := ln "DoThing(x));".
Definition doc_extra_close_fixed : list ascii := ln "DoThing(x);".
(** A declaration whose modifier list holds two slashes. *)
Definition doc_semicolon_slashes : list ascii := ln "var(a//b) int x".
Definition doc_semicolon_slashes_fixed : list ascii := ln "var(a;//b) int x".

(** Start, end and first group of a match. *)
Definition match_view (s : list ascii) (o : option rmatch) : option (nat * nat * string) :=
  match o with
  | Some m => Some (m_start m, m_end m, string_of_list_ascii (m_group s m 1))
  | None => None
  end.

(** ** The lines of a document *)

(** No line boundary in [body]. *)
Definition no_break (body : list ascii) : Prop :=
  Forall (fun c => islinebreak c = false) body.

(** What ends a line: CR LF, or one line boundary. *)
Definition is_term (t : list ascii) : Prop :=
  t = [CR; NL] \/ exists x, t = [x] /\ islinebreak x = true.

(** A line that a lone CR ends is not followed by a line that starts
    with LF (the two would be one line). *)
Definition adj_ok (term : list ascii) (ls : list (list ascii)) : Prop :=
  term = [CR] -> forall l ls', ls = l :: ls' -> head l <> Some NL.

(** The shape of what [splitlines] returns: lines that end in a line
    boundary, but for the last, which may end without. *)
Inductive well_split : list (list ascii) -> Prop :=
| ws_nil : well_split []
| ws_last (body : list ascii) :
    body <> [] -> no_break body -> well_split [body]
| ws_cons (body term : list ascii) (ls : list (list ascii)) :
    no_break body -> is_term term -> adj_ok term ls -> well_split ls ->
    well_split ((body ++ term) :: ls).

(** Two slashes side by side in a line. *)
Definition has_slashes (l : list ascii) : Prop :=
  exists i, l !! i = Some SLASH /\ l !! S i = Some SLASH.

(** The line [n] of [doc], counted from 1, has no two slashes side by
    side. *)
Definition line_without_slashes (doc : list ascii) (n : Z) : Prop :=
  forall l, splitlines doc !! (Z.to_nat n - 1) = Some l -> ~ has_slashes l.

(** * More of the program

    ** What the detectors that read line by line report *)

(** [doc[s:e]] for a span [(s, e)] of [doc]. *)
Definition span_text (doc : list ascii) (sp : Z * Z) : list ascii :=
  take (Z.to_nat sp.2 - Z.to_nat sp.1) (drop (Z.to_nat sp.1) doc).

Definition by_line (a b : Issue) : Prop := (line a < line b)%Z.

(** [issues] is what a detector reports that flags lines of [doc] with
    [flag], for the first [n] lines.  Every issue has the kind [K] and
    stands for a flagged line: its line number is that of the line,
    from 1, and its span is that line, from its first character to the
    end of its line boundary.  Every flagged line has an issue, and the
    issues come by growing line number, so there is one for each. *)
Definition reports_lines_upto (doc : list ascii) (flag : nat -> list ascii -> bool)
    (K : string) (n : nat) (issues : list Issue) : Prop :=
  (forall it, it ∈ issues ->
     kind it = K
     /\ exists k l, k < n /\ splitlines doc !! k = Some l /\ flag k l = true
          /\ line it = Z.of_nat (k + 1)
          /\ (span it).1 = Z.of_nat (length (join (take k (splitlines doc))))
          /\ span_text doc (span it) = l)
  /\ (forall k l, k < n -> splitlines doc !! k = Some l -> flag k l = true ->
        exists it, it ∈ issues /\ line it = Z.of_nat (k + 1))
  /\ StronglySorted by_line issues.

Definition reports_lines (doc : list ascii) (flag : nat -> list ascii -> bool)
    (K : string) (issues : list Issue) : Prop :=
  reports_lines_upto doc flag K (length (splitlines doc)) issues.

(** The line that [find_cpptext_missing_brace] reads after a line with
    [cpptext]: the first of [ls] that is neither blank nor a comment of
    two slashes, and the empty string when there is none. *)
Fixpoint next_code_line (ls : list (list ascii)) : list ascii :=
  match ls with
  | [] => []
  | l :: ls' =>
      if is_match (re_match NOFLAGS re_blank_or_comment l) then next_code_line ls' else l
  end.

(** The lines that [find_cpptext_missing_brace] flags: the word
    [cpptext], no opening brace in the line, and no opening brace at
    the start of the next line of code. *)
Definition cpptext_flagged (lines : list (list ascii)) (i : nat) (line : list ascii) : bool :=
  is_match (re_search RE_I re_cpptext line)
  && negb (contains LBRACE line)
  && negb (is_match (re_match NOFLAGS re_open_brace_line (next_code_line (drop (i + 1) lines)))).

(** The lines that [check_semicolons_strict] flags. *)
Definition semicolons_flagged (line : list ascii) : bool :=
  let stripped := strip line in
  negb ((match stripped with [] => true | _ => false end)
        || startswith stripped [SLASH; SLASH] || endswith stripped [LBRACE]
        || endswith stripped [RBRACE] || startswith stripped [SLASH; STAR])
  && (is_match (re_match RE_I re_var_decl stripped)
      || is_match (re_match NOFLAGS re_assign stripped))
  && negb (endswith stripped [SEMI]).

(** The lines that [extended_control_paren_balance] flags. *)
Definition control_paren_flagged (line : list ascii) : bool :=
  is_match (re_search RE_I CONTROL_LINE line)
  && (Z.of_nat (count LPAREN line) - Z.of_nat (count RPAREN line) =? 1)%Z.

(** ** The kinds of the issues *)

(** The kinds that every scan may report, those of the extended mode
    and the kind of the detector with a toggle of its own. *)
Definition strict_kinds : list string :=
  ["cpptext-brace"; "brace-balance"; "defaultprops-brace"; "semicolon-missing";
   "paren-balance"]%string.
Definition extended_kinds : list string :=
  ["paren-control-close"; "struct-enum-close"; "paren-extra-close"]%string.

Definition kinds_of_mode (extended unmatched_open : bool) : list string :=
  strict_kinds ++ (if extended then extended_kinds else [])
  ++ (if unmatched_open then ["paren-extra-open"%string] else []).

(** What the detectors return, one by one, and how [scan_doc_for_issues]
    puts it together before the de-duplication. *)
Record findings := {
  f_cpptext : list Issue;
  f_brace : list Issue;
  f_defaultprops : list Issue;
  f_semicolons : list Issue;
  f_control_paren : list Issue;
  f_struct_enum : list Issue;
  f_close_paren : list Issue;
  f_open_paren : list Issue }.

Definition findings_of (doc : list ascii) (fs : findings) : Prop :=
  find_cpptext_missing_brace doc = Ret (f_cpptext fs)
  /\ safe_close_balance doc = Ret (f_brace fs)
  /\ check_defaultproperties doc = Ret (f_defaultprops fs)
  /\ check_semicolons_strict doc = Ret (f_semicolons fs)
  /\ extended_control_paren_balance doc = Ret (f_control_paren fs)
  /\ extended_struct_enum_closer doc = Ret (f_struct_enum fs)
  /\ extended_unmatched_close_paren doc = Ret (f_close_paren fs)
  /\ extended_unmatched_open_paren doc = Ret (f_open_paren fs).

Definition gathered (doc : list ascii) (extended : bool) (fs : findings) : list Issue :=
  f_cpptext fs ++ f_brace fs ++ f_defaultprops fs ++ f_semicolons fs ++ paren_balance doc
  ++ (if extended then f_control_paren fs ++ f_struct_enum fs ++ f_close_paren fs else []).

(** ** The window: scanning and applying repairs

    Of [MainWindow] the model keeps the text of the editor, the list of
    issues and the three check boxes that the methods below read.  The
    row that the user picked and the answer to the question of a dialog
    are arguments.  The files, the backup and the widgets are left
    out. *)
Module MainWindow.

Record t := {
  editor : list ascii;
  issues : list Issue;
  extended_cb : bool;
  unmatched_open_cb : bool;
  confirm_each : bool }.

Definition setPlainText (self : t) (text : list ascii) : t :=
  {| editor := text; issues := issues self; extended_cb := extended_cb self;
     unmatched_open_cb := unmatched_open_cb self; confirm_each := confirm_each self |}.

Definition set_issues (self : t) (l : list Issue) : t :=
  {| editor := editor self; issues := l; extended_cb := extended_cb self;
     unmatched_open_cb := unmatched_open_cb self; confirm_each := confirm_each self |}.

Definition _extended_mode (self : t) : bool := extended_cb self.
Definition _unmatched_open_enabled (self : t) : bool := unmatched_open_cb self.

(** [scan_now], as far as the list of issues goes. *)
Definition scan_now (self : t) : outcome t :=
  l ← scan_now (editor self) (_extended_mode self) (_unmatched_open_enabled self);
  Ret (set_issues self l).

(** [try: text = it.apply_fn(text)] and [except Exception: pass]; an
    issue without repair has [None] for [apply_fn], and the call of
    [None] is an exception like any other. *)
Definition try_apply (it : Issue) (text : list ascii) : outcome (list ascii) :=
  match apply_fn it with
  | Some f =>
      match call f text with
      | Ret text' => Ret text'
      | Raise _ => Ret text
      | OutOfFuel => OutOfFuel
      end
  | None => Ret text
  end.

Definition _apply_autofixes (self : t) (text : list ascii) : outcome (list ascii) :=
  let extended := _extended_mode self in
  l ← scan_doc_for_issues text extended;
  l ← (if _unmatched_open_enabled self then
         i ← extended_unmatched_open_paren text; Ret (l ++ i)
       else Ret l);
  for_each (fun _ it text => match apply_fn it with
                            | Some _ => try_apply it text
                            | None => Ret text
                            end) 0 l text.

(** The loop of [_count_issues_for_text]. *)
Fixpoint count_loop (l : list Issue) (dedup : gmap (string * Z * string * (Z * Z)) bool)
    (c : nat) : nat :=
  match l with
  | [] => c
  | it :: l' =>
      let key := issue_key it in
      match dedup !! key with
      | None => count_loop l' (<[key := true]> dedup) (c + 1)
      | Some _ => count_loop l' dedup c
      end
  end.

Definition _count_issues_for_text (self : t) (text : list ascii) : outcome nat :=
  l ← scan_doc_for_issues text (_extended_mode self);
  l ← (if _unmatched_open_enabled self then
         i ← extended_unmatched_open_paren text; Ret (l ++ i)
       else Ret l);
  Ret (count_loop l ∅ 0).

Definition _post_apply_refresh (self : t) : outcome t := scan_now self.

(** [apply_selected]; [row] is the current row of the list of issues
    and [yes] the answer to the question, when it is asked.  An
    exception of the repair is not caught here. *)
Definition apply_selected (self : t) (row : Z) (yes : bool) : outcome t :=
  if (row <? 0)%Z || (row >=? Z.of_nat (length (issues self)))%Z then Ret self
  else
    issue ← getitem (issues self) (Z.to_nat row);
    match apply_fn issue with
    | None => Ret self
    | Some f =>
        if confirm_each self && negb yes then Ret self
        else
          new_text ← call f (editor self);
          _post_apply_refresh (setPlainText self new_text)
    end.

Definition apply_all (self : t) (yes : bool) : outcome t :=
  match issues self with
  | [] => Ret self
  | _ =>
      let auto_issues := filter (fun i => is_Some (apply_fn i)) (issues self) in
      match auto_issues with
      | [] => Ret self
      | _ =>
          if confirm_each self && negb yes then Ret self
          else
            text ← for_each (fun _ it text => try_apply it text) 0 auto_issues (editor self);
            _post_apply_refresh (setPlainText self text)
      end
  end.

(** The list of issues is that of a scan of the text of the editor. *)
Definition fresh (self : t) : Prop := scan_now self = Ret self.

End MainWindow.

(** ** The underlines of the highlighter *)

Module USHighlighter.

(** One turn of the second loop of [highlightBlock], over the error
    ranges: [calls] are the calls of [setFormat] so far, each with its
    start in the block and its length. *)
Definition error_body (block_pos len_text : Z) (calls : list (Z * Z)) (r : Z * Z)
    : list (Z * Z) :=
  let '(s, e) := r in
  let bs := block_pos in
  let be := (block_pos + len_text)%Z in
  if (e <=? bs)%Z || (s >=? be)%Z then calls
  else
    let start_in_block := Z.max 0 (s - bs) in
    let end_in_block := Z.min len_text (e - bs) in
    if (end_in_block >? start_in_block)%Z then
      calls ++ [(start_in_block, (end_in_block - start_in_block)%Z)]
    else calls.

Definition highlightBlock_errors (block_pos : Z) (text : list ascii)
    (error_ranges : list (Z * Z)) : list (Z * Z) :=
  foldl (error_body block_pos (Z.of_nat (length text))) [] error_ranges.

(** The call [(start, n)] of [setFormat] covers the position [p] of the
    block. *)
Definition covers (call : Z * Z) (p : Z) : Prop := (call.1 <= p < call.1 + call.2)%Z.

End USHighlighter.

(** A [cpptext] line that no opening brace follows. *)
Definition doc_cpptext : list ascii := ln "cpptext" ++ ln "native int X;".

(** A window on [doc_control], in the extended mode, that asks no
    question. *)
Definition window_control : MainWindow.t :=
  {| MainWindow.editor := doc_control; MainWindow.issues := [];
     MainWindow.extended_cb := true; MainWindow.unmatched_open_cb := false;
     MainWindow.confirm_each := false |}.

(** The same window after [scan_now]. *)
Definition window_control_scanned : MainWindow.t :=
  match MainWindow.scan_now window_control with
  | Ret w => w
  | _ => window_control
  end.

(** [out] is [text] with its line [k], counted from 0, replaced by
    [new]: what stands before the line and what stands after it are
    the same in both. *)
Definition line_replaced (text : list ascii) (k : nat) (new out : list ascii) : Prop :=
  exists l, splitlines text !! k = Some l
    /\ text = join (take k (splitlines text)) ++ l ++ join (drop (S k) (splitlines text))
    /\ out = join (take k (splitlines text)) ++ new ++ join (drop (S k) (splitlines text)).

(** A window whose list of issues is out of date: the issues are those
    of [doc_control] and the editor is empty. *)
Definition window_stale : MainWindow.t :=
  MainWindow.setPlainText window_control_scanned [].

(** ** Two ways to number the lines

    The detectors that read line by line number the lines of
    [splitlines]; [check_defaultproperties] and
    [extended_struct_enum_closer] count the newlines before an
    offset. *)

(** The line boundaries of [doc] are newlines, with or without a
    carriage return before. *)
Definition newline_only (doc : list ascii) : Prop :=
  forall i c, doc !! i = Some c -> islinebreak c = true ->
    c = NL \/ (c = CR /\ doc !! S i = Some NL).

(** The offset [p] lies in the line [k] of [doc], counted from 0. *)
Definition in_line (doc : list ascii) (k p : nat) : Prop :=
  exists l, splitlines doc !! k = Some l
    /\ length (join (take k (splitlines doc))) <= p
       < length (join (take k (splitlines doc))) + length l.

(** ** What [check_defaultproperties] reports *)

Definition DEFAULTPROPERTIES : list ascii := str "defaultproperties".

(** The word [w] stands at the offset [p] of [doc], in any case of the
    letters, as a whole word: what stands right before it and right
    after it is the end of the document or a character that is not of
    a word, when the first and last characters of [w] are. *)
Definition word_stands_at (doc w : list ascii) (p : nat) : Prop :=
  (lower <$> take (length w) (drop p doc)) = (lower <$> w)
  /\ at_wordb doc p = true /\ at_wordb doc (p + length w) = true.

(** The occurrences that [check_defaultproperties] reports: no opening
    brace follows the word, with or without white space between. *)
Definition defaultprops_flagged (doc : list ascii) (p : nat) : Prop :=
  word_stands_at doc DEFAULTPROPERTIES p
  /\ is_match (re_match NOFLAGS re_ws_open_brace (drop (p + length DEFAULTPROPERTIES) doc))
     = false.

(** The issue of the occurrence at the offset [p]. *)
Definition defaultprops_issue_at (doc : list ascii) (p : nat) (it : Issue) : Prop :=
  kind it = "defaultprops-brace"
  /\ line it = Z.of_nat (count_nl_before doc p + 1)
  /\ span it = (Z.max 0 (Z.of_nat p - 5),
                Z.min (Z.of_nat (length doc)) (Z.of_nat (p + length DEFAULTPROPERTIES) + 5))
  /\ apply_fn it = Some (Defaultproperties_apply (p + length DEFAULTPROPERTIES)).

(** The characters of [w] stand in [s] from the offset [p], as the
    matcher compares them. *)
Fixpoint lit_at (fl : flags) (s w : list ascii) (p : nat) : bool :=
  match w with
  | [] => true
  | c :: w' =>
      match s !! p with
      | Some x => lit_match fl c x && lit_at fl s w' (S p)
      | None => false
      end
  end.

(** The first character of [t] that is not white space is an opening
    brace. *)
Definition brace_follows (t : list ascii) : bool :=
  match lstrip_by isspace t with
  | c :: _ => chr_eqb c LBRACE
  | [] => false
  end.

(** What the repair of [defaultprops-brace] puts after the word. *)
Definition DEFAULTPROPS_BLOCK : list ascii := [" "%char; LBRACE; NL; RBRACE; NL].

(** The document that the repair of the occurrence at [p] returns. *)
Definition defaultprops_repaired (doc : list ascii) (p : nat) : list ascii :=
  take (p + length DEFAULTPROPERTIES) doc ++ DEFAULTPROPS_BLOCK
  ++ drop (p + length DEFAULTPROPERTIES) doc.

(** No backslash of [doc] stands directly before a newline. *)
Definition no_escaped_newline (doc : list ascii) : Prop :=
  forall j, doc !! j = Some BACKSLASH -> doc !! (j + 1) <> Some NL.

(** How a line counter stands to a count of newlines: equal, or not above. *)
Definition line_rel (exact : bool) (a b : Z) : Prop :=
  if exact then a = b else (a <= b)%Z.

(** The line counter of the walk, against the newlines of the document:
    what [lex_at] at offset [i] with the counter at [line] does to the
    difference of the two. *)
Definition lexeme_line (exact : bool) (doc : list ascii) (i : nat) (line : Z)
    (lx : lexeme) : Prop :=
  match lx with
  | LNewline => count_nl_before doc (i + 1) = count_nl_before doc i + 1
  | LSkipTo i' line' =>
      i' < length doc ->
      line_rel exact (line' - Z.of_nat (count_nl_before doc i'))
                     (line - Z.of_nat (count_nl_before doc i))
  | LCode _ => count_nl_before doc (i + 1) = count_nl_before doc i
  end.

(** A string with a newline inside, then an unmatched parenthesis on the
    second line. *)
Definition doc_paren_line : list ascii :=
  ln "s = 'a" ++ str "b'; )".

(** ** The blocks of [extended_struct_enum_closer] *)

Definition is_brace (c : ascii) : bool := chr_eqb c LBRACE || chr_eqb c RBRACE.

(** The depth of the braces after the characters of [text] from [from]
    up to [k], the brace that opens the block before [from] counted. *)
Definition block_depth (text : list ascii) (from k : nat) : Z :=
  (1 + Z.of_nat (count LBRACE (take (k - from) (drop from text)))
   - Z.of_nat (count RBRACE (take (k - from) (drop from text))))%Z.

(** The block open at [from] closes: somewhere the depth comes to zero. *)
Definition block_closes (text : list ascii) (from : nat) : Prop :=
  exists k, from <= k <= length text /\ block_depth text from k = 0%Z.

(** [pos] is past every brace of [text]: it is [from], or the place
    right after a brace at or after [from], and no brace follows. *)
Definition past_braces (text : list ascii) (from pos : nat) : Prop :=
  from <= pos <= length text
  /\ (forall k c, pos <= k -> text !! k = Some c -> is_brace c = false)
  /\ (pos = from
      \/ from < pos /\ exists c, text !! (pos - 1) = Some c /\ is_brace c = true).

(** Where the repair puts the closing brace: at the first top-level
    word from [pos] on, or at the end of the text. *)
Definition insert_at (text : list ascii) (pos : nat) : nat :=
  match re_search RE_IM top_level_tokens (drop pos text) with
  | Some tl => pos + m_start tl
  | None => length text
  end.

(** The issue for the block that the match [m] opens. *)
Definition struct_enum_issue_at (text : list ascii) (m : rmatch) (it : Issue) : Prop :=
  kind it = "struct-enum-close"
  /\ line it = Z.of_nat (count_nl_before text (m_start m) + 1)
  /\ span it = (Z.of_nat (m_start m), Z.of_nat (m_end m))
  /\ exists pos, past_braces text (m_end m) pos
                 /\ apply_fn it = Some (Struct_enum_apply (insert_at text pos)).

(** The issues are, in the order of the matches, one for each match
    whose block does not close. *)
Inductive open_blocks (text : list ascii) : list rmatch -> list Issue -> Prop :=
| open_blocks_nil : open_blocks text [] []
| open_blocks_closed m ms its :
    block_closes text (m_end m) -> open_blocks text ms its ->
    open_blocks text (m :: ms) its
| open_blocks_open m ms it its :
    ~ block_closes text (m_end m) -> struct_enum_issue_at text m it ->
    open_blocks text ms its -> open_blocks text (m :: ms) (it :: its).

(** ** A scan that reports nothing *)

(** No line of [doc] is flagged by [flag]. *)
Definition no_line_flagged (doc : list ascii) (flag : nat -> list ascii -> bool) : Prop :=
  forall k l, splitlines doc !! k = Some l -> flag k l = false.

(** Nothing for the five detectors of every scan to report. *)
Definition strict_clean (doc : list ascii) : Prop :=
  no_line_flagged doc (cpptext_flagged (splitlines doc))
  /\ count LBRACE doc = count RBRACE doc
  /\ (forall p, ~ defaultprops_flagged doc p)
  /\ no_line_flagged doc (fun _ => semicolons_flagged)
  /\ count LPAREN doc = count RPAREN doc.

(** Nothing for the three detectors of the extended mode to report. *)
Definition extended_clean (doc : list ascii) : Prop :=
  no_line_flagged doc (fun _ => control_paren_flagged)
  /\ (forall m, m ∈ re_finditer RE_IM re_struct_enum doc -> block_closes doc (m_end m))
  /\ returns (paren_tokens doc) (never_surplus 0).
(** * Properties *)

(** ** Reasoning about outcomes and loops *)

Lemma returns_ret {A} (a : A) (P : A -> Prop) : P a -> returns (Ret a) P.
Proof. done. Qed.

Lemma returns_inv {A} (m : outcome A) (P : A -> Prop) :
  returns m P -> exists a, m = Ret a /\ P a.
Proof. destruct m; simpl; [eauto | done | done]. Qed.

Lemma returns_mono {A} (m : outcome A) (P Q : A -> Prop) :
  returns m P -> (forall a, P a -> Q a) -> returns m Q.
Proof. destruct m; simpl; auto. Qed.

Lemma returns_bind {A B} (m : outcome A) (k : A -> outcome B) (P : A -> Prop) (Q : B -> Prop) :
  returns m P -> (forall a, P a -> returns (k a) Q) -> returns (m ≫= k) Q.
Proof. destruct m; simpl; [auto | done | done]. Qed.

Lemma returns_and {A} (m : outcome A) (P Q : A -> Prop) :
  returns m P -> returns m Q -> returns m (fun a => P a /\ Q a).
Proof. destruct m; simpl; auto. Qed.

Lemma bind_ret {A B} (a : A) (k : A -> outcome B) : (Ret a ≫= k) = k a.
Proof. done. Qed.

(** Total correctness of a loop: an invariant and a measure that every
    turn lowers. *)
Lemma loop_rule {St R} (Inv : St -> Prop) (mu : St -> nat) (Post : R -> Prop)
    (step : St -> outcome (ctl St R)) :
  (forall st, Inv st ->
     returns (step st) (fun c => match c with
                                 | Continue st' => Inv st' /\ mu st' < mu st
                                 | Leave r => Post r
                                 end)) ->
  forall fuel st, Inv st -> mu st < fuel -> returns (loop fuel step st) Post.
Proof.
  intros Hstep fuel. induction fuel as [|fuel IH]; intros st Hinv Hmu; [lia|].
  simpl. eapply returns_bind; [apply Hstep, Hinv|].
  intros [st'|r]; simpl; [|done].
  intros [Hinv' Hlt]. apply IH; [done | lia].
Qed.

Lemma for_each_rule {A St} (Inv : nat -> St -> Prop) (body : nat -> A -> St -> outcome St)
    (l : list A) :
  forall i st,
  (forall k x st, l !! k = Some x -> Inv (i + k) st -> returns (body (i + k) x st) (Inv (S (i + k)))) ->
  Inv i st -> returns (for_each body i l st) (Inv (i + length l)).
Proof.
  induction l as [|x l IH]; intros i st Hbody Hinv; simpl.
  - by rewrite Nat.add_0_r.
  - eapply returns_bind.
    + specialize (Hbody 0 x st eq_refl). rewrite Nat.add_0_r in Hbody. by apply Hbody.
    + intros st' Hst'. replace (i + S (length l)) with (S i + length l) by lia.
      apply IH; [|done]. intros k y st0 Hk H0.
      replace (S i + k) with (i + S k) in * by lia. by apply Hbody.
Qed.

(** ** Scenario: [defaultproperties] without a block *)

Lemma scan_doc_defaultprops (extended : bool) :
  exists it1 it2,
    scan_doc_for_issues doc_defaultprops extended = Ret [it1; it2]
    /\ kind it1 = "defaultprops-brace" /\ line it1 = 1%Z
    /\ apply_fn it1 = Some (Defaultproperties_apply 17)
    /\ kind it2 = "semicolon-missing".
Proof.
  destruct extended; do 2 eexists; (split; [vm_compute; reflexivity|]); repeat split.
Qed.

Lemma scan_now_defaultprops (extended unmatched_open : bool) :
  exists it1 it2,
    scan_now doc_defaultprops extended unmatched_open = Ret [it1; it2]
    /\ kind it1 = "defaultprops-brace" /\ line it1 = 1%Z
    /\ apply_fn it1 = Some (Defaultproperties_apply 17)
    /\ kind it2 = "semicolon-missing".
Proof.
  destruct extended, unmatched_open;
    do 2 eexists; (split; [vm_compute; reflexivity|]); repeat split.
Qed.

(** C4, as amended: on the document made of the lines
    [defaultproperties] and [Health=100], the scan (in either mode, with
    or without the toggle of the unmatched opening parenthesis) reports a
    [defaultprops-brace] issue at line 1, and the repair of that issue
    applied to the same document gives the lines [defaultproperties {],
    [}], an empty line and [Health=100]: the block is inserted between
    the keyword and the newline that followed it. *)
Theorem defaultprops_scenario (extended unmatched_open : bool) :
  returns (scan_doc_for_issues doc_defaultprops extended) (fun issues =>
    exists it, it ∈ issues /\ kind it = "defaultprops-brace" /\ line it = 1%Z
               /\ repairs_to it doc_defaultprops doc_defaultprops_fixed)
  /\ returns (scan_now doc_defaultprops extended unmatched_open) (fun issues =>
    exists it, it ∈ issues /\ kind it = "defaultprops-brace" /\ line it = 1%Z
               /\ repairs_to it doc_defaultprops doc_defaultprops_fixed).
Proof.
  split.
  - destruct (scan_doc_defaultprops extended) as (it1 & it2 & -> & Hk & Hl & Hf & _).
    simpl. exists it1. split; [apply list_elem_of_here|]. do 2 (split; [done|]).
    exists (Defaultproperties_apply 17). split; [done|]. vm_compute. reflexivity.
  - destruct (scan_now_defaultprops extended unmatched_open)
      as (it1 & it2 & -> & Hk & Hl & Hf & _).
    simpl. exists it1. split; [apply list_elem_of_here|]. do 2 (split; [done|]).
    exists (Defaultproperties_apply 17). split; [done|]. vm_compute. reflexivity.
Qed.

(** C4, as stated, fails: the repair does not give the three lines
    [defaultproperties {], [}] and [Health=100]. *)
Lemma defaultprops_scenario_tight_fails :
  ~ returns (scan_doc_for_issues doc_defaultprops false) (fun issues =>
      exists it, it ∈ issues /\ kind it = "defaultprops-brace" /\ line it = 1%Z
                 /\ repairs_to it doc_defaultprops doc_defaultprops_tight).
Proof.
  destruct (scan_doc_defaultprops false) as (it1 & it2 & -> & Hk1 & Hl & Hf & Hk2).
  simpl. intros (it & Hin & Hkind & _ & f & Hf' & Hout).
  apply list_elem_of_In in Hin. destruct Hin as [<-|[<-|[]]].
  - rewrite Hf in Hf'. injection Hf' as <-. vm_compute in Hout. discriminate Hout.
  - rewrite Hk2 in Hkind. discriminate Hkind.
Qed.
(** ** The matcher stays inside the text *)

Section MatcherBounds.
Variable fl : flags.
Variable s : list ascii.

Lemma star_run_bounds (body : mstate -> (mstate -> option mstate) -> option mstate)
    (k : mstate -> option mstate) (fuel : nat) :
  (forall st k res, st.1 <= length s -> body st k = Some res ->
     exists st', st.1 <= st'.1 <= length s /\ k st' = Some res) ->
  forall st res, st.1 <= length s -> star_run body k fuel st = Some res ->
    exists st', st.1 <= st'.1 <= length s /\ k st' = Some res.
Proof.
  intros Hbody. induction fuel as [|fuel IHf]; intros st res Hle Hrun; simpl in Hrun.
  - exists st. split; [lia|done].
  - match type of Hrun with
    | match ?e with _ => _ end = _ => destruct e as [res'|] eqn:H1
    end.
    + injection Hrun as ->.
      apply Hbody in H1 as (st1 & Hb1 & H1); [|done].
      destruct (st.1 <? st1.1) eqn:Hlt; [|done].
      apply IHf in H1 as (st2 & Hb2 & H2); [|lia].
      exists st2. split; [lia|done].
    + exists st. split; [lia|done].
Qed.

Lemma re_run_bounds (r : regex) :
  forall (st : mstate) (k : mstate -> option mstate) (res : mstate),
    st.1 <= length s ->
    re_run fl s r st k = Some res ->
    exists st', st.1 <= st'.1 <= length s /\ k st' = Some res.
Proof.
  induction r as [c|p| | | | |r1 IH1 r2 IH2|r1 IH1 r2 IH2|r1 IH1|g r1 IH1];
    intros st k res Hle Hrun.
  - simpl in Hrun. destruct (s !! st.1) as [x|] eqn:Hx; [|done].
    destruct (lit_match fl c x); [|done].
    apply lookup_lt_Some in Hx. exists (S st.1, st.2). simpl. split; [lia|done].
  - simpl in Hrun. destruct (s !! st.1) as [x|] eqn:Hx; [|done].
    destruct (p x); [|done].
    apply lookup_lt_Some in Hx. exists (S st.1, st.2). simpl. split; [lia|done].
  - simpl in Hrun. destruct (at_bol fl s st.1); [|done]. exists st. split; [lia|done].
  - simpl in Hrun. destruct (at_eol s st.1); [|done]. exists st. split; [lia|done].
  - simpl in Hrun. destruct (at_wordb s st.1); [|done]. exists st. split; [lia|done].
  - exists st. split; [lia|done].
  - simpl in Hrun. apply IH1 in Hrun as (st1 & Hb1 & Hrun); [|done].
    apply IH2 in Hrun as (st2 & Hb2 & Hrun); [|lia].
    exists st2. split; [lia|done].
  - simpl in Hrun. destruct (re_run fl s r1 st k) as [res'|] eqn:H1.
    + injection Hrun as ->. by apply IH1 in H1.
    + by apply IH2 in Hrun.
  - eapply star_run_bounds; [exact IH1 | done | exact Hrun].
  - simpl in Hrun. apply IH1 in Hrun as (st1 & Hb1 & Hrun); [|done].
    eexists (_, _). split; [|exact Hrun]. simpl. lia.
Qed.

Lemma re_match_at_bounds (r : regex) (p : nat) (m : rmatch) :
  p <= length s -> re_match_at fl r s p = Some m ->
  m_start m = p /\ p <= m_end m <= length s.
Proof.
  intros Hp. unfold re_match_at.
  destruct (re_run fl s r (p, []) Some) as [st|] eqn:Hrun; [|done].
  intros [= <-]. simpl. split; [done|].
  apply re_run_bounds in Hrun as (st' & Hb & [= ->]); simpl in *; lia.
Qed.

Lemma re_search_from_Some (r : regex) (n : nat) :
  forall (p : nat) (m : rmatch),
    re_search_from fl r s n p = Some m ->
    p <= m_start m < p + n /\ re_match_at fl r s (m_start m) = Some m
    /\ forall q, p <= q < m_start m -> re_match_at fl r s q = None.
Proof.
  induction n as [|n IH]; intros p m; simpl; [done|].
  destruct (re_match_at fl r s p) as [m'|] eqn:Hm.
  - intros [= ->].
    assert (m_start m = p) as Hs.
    { unfold re_match_at in Hm. destruct (re_run _ _ _ _ _); [|done]. by injection Hm as <-. }
    rewrite Hs. repeat split; [lia|lia|done|]. intros q Hq. lia.
  - intros Hr. apply IH in Hr as (Hb & Hat & Hbefore).
    repeat split; [lia|lia|done|].
    intros q Hq. destruct (decide (q = p)) as [->|]; [done|]. apply Hbefore. lia.
Qed.

Lemma re_search_from_bounds (r : regex) (n p : nat) (m : rmatch) :
  p + n <= S (length s) ->
  re_search_from fl r s n p = Some m ->
  p <= m_start m /\ m_start m <= m_end m <= length s.
Proof.
  intros Hn Hr. apply re_search_from_Some in Hr as (Hb & Hat & _).
  apply re_match_at_bounds in Hat as (_ & Hb'); lia.
Qed.

Lemma re_search_bounds (r : regex) (m : rmatch) :
  re_search fl r s = Some m -> m_start m <= m_end m <= length s.
Proof.
  unfold re_search. intros Hr. apply re_search_from_bounds in Hr; [lia|simpl; lia].
Qed.

Lemma re_finditer_from_bounds (r : regex) (fuel : nat) :
  forall p, Forall (fun m => p <= m_start m /\ m_start m <= m_end m <= length s)
              (re_finditer_from fl r s fuel p).
Proof.
  induction fuel as [|fuel IH]; intros p; simpl; [constructor|].
  destruct (re_search_from fl r s (S (length s) - p) p) as [m|] eqn:Hm; [|constructor].
  destruct (decide (p <= length s)) as [Hp|Hp].
  - apply re_search_from_bounds in Hm as Hb; [|lia].
    constructor; [done|].
    eapply Forall_impl; [apply IH|]. simpl. intros m' Hm'. lia.
  - replace (S (length s) - p) with 0 in Hm by lia. done.
Qed.

Lemma re_finditer_bounds (r : regex) :
  Forall (fun m => m_start m <= m_end m <= length s) (re_finditer fl r s).
Proof.
  eapply Forall_impl; [apply re_finditer_from_bounds|]. simpl. intros m. lia.
Qed.
End MatcherBounds.

(** ** Lines *)

Lemma splitlines_from_cons (cur : list ascii) (c : ascii) (r : list ascii) :
  splitlines_from cur (c :: r) =
    if chr_eqb c CR then
      match r with
      | c' :: r' =>
          if chr_eqb c' NL then (cur ++ [c; c']) :: splitlines_from [] r'
          else (cur ++ [c]) :: splitlines_from [] r
      | [] => (cur ++ [c]) :: splitlines_from [] r
      end
    else if islinebreak c then (cur ++ [c]) :: splitlines_from [] r
    else splitlines_from (cur ++ [c]) r.
Proof. done. Qed.

Lemma join_splitlines_from (s : list ascii) :
  forall cur, join (splitlines_from cur s) = cur ++ s.
Proof.
  unfold join. remember (length s) as n eqn:Hn.
  assert (length s <= n) as Hle by lia. clear Hn. revert s Hle.
  induction n as [|n IH]; intros s Hle cur.
  { destruct s; [|simpl in Hle; lia]. destruct cur; simpl; by rewrite ?app_nil_r. }
  destruct s as [|c r].
  { destruct cur; simpl; by rewrite ?app_nil_r. }
  rewrite splitlines_from_cons. simpl in Hle.
  destruct (chr_eqb c CR).
  - destruct r as [|c' r'].
    + simpl. by rewrite app_nil_r.
    + destruct (chr_eqb c' NL); rewrite concat_cons, IH by (simpl in *; lia);
        by rewrite <- app_assoc.
  - destruct (islinebreak c).
    + rewrite concat_cons, IH by lia. by rewrite <- app_assoc.
    + rewrite IH by lia. by rewrite <- app_assoc.
Qed.

Lemma join_splitlines (s : list ascii) : join (splitlines s) = s.
Proof. apply join_splitlines_from. Qed.

Lemma join_take_le (ls : list (list ascii)) (k : nat) :
  length (join (take k ls)) <= length (join ls).
Proof.
  unfold join. rewrite <- (take_drop k ls) at 2. rewrite concat_app, length_app. lia.
Qed.

Lemma join_take_S (ls : list (list ascii)) (k : nat) (x : list ascii) :
  ls !! k = Some x ->
  length (join (take (S k) ls)) = length (join (take k ls)) + length x.
Proof.
  intros Hk. unfold join. erewrite take_S_r by done.
  rewrite concat_app, length_app. simpl. rewrite app_nil_r. done.
Qed.

(** The offset that the loops over the lines keep is the length of the
    lines already seen, so a line lies inside the document. *)
Lemma line_span_in_doc (doc : list ascii) (k : nat) (x : list ascii) :
  splitlines doc !! k = Some x ->
  length (join (take k (splitlines doc))) + length x <= length doc.
Proof.
  intros Hk. rewrite <- (join_take_S _ _ _ Hk).
  rewrite <- (join_splitlines doc) at 2. apply join_take_le.
Qed.

(** ** Every detector returns, with well-formed issues *)

Lemma getitem_lt {A} (l : list A) (i : nat) :
  i < length l -> exists x, l !! i = Some x /\ getitem l i = Ret x.
Proof.
  intros Hi. destruct (lookup_lt_is_Some_2 l i Hi) as [x Hx].
  exists x. unfold getitem. by rewrite Hx.
Qed.

Lemma cpptext_skip_returns (lines : list (list ascii)) (j : nat) :
  returns (loop (S (length lines)) (cpptext_skip_step lines) j) (fun _ => True).
Proof.
  apply (loop_rule (fun _ => True) (fun j => length lines - j)); [|done|lia].
  intros j' _. unfold cpptext_skip_step.
  destruct (j' <? length lines) eqn:Hj; simpl; [|done].
  apply Nat.ltb_lt in Hj. destruct (getitem_lt lines j' Hj) as (x & _ & ->). simpl.
  destruct (is_match _); simpl; [|done]. split; [done|lia].
Qed.

Lemma lines_inv_step (doc : list ascii) (k : nat) (x : list ascii) (issues : list Issue) (offs : nat) :
  splitlines doc !! k = Some x ->
  lines_inv doc k (issues, offs) ->
  lines_inv doc (S k) (issues, offs + length x).
Proof.
  intros Hk [Ho Hf]. split; [|done]. simpl in *. rewrite (join_take_S _ _ _ Hk). lia.
Qed.

Lemma lines_inv_issue (doc : list ascii) (k : nat) (x : list ascii) (issues : list Issue)
    (offs : nat) (it : Issue) :
  splitlines doc !! k = Some x ->
  lines_inv doc k (issues, offs) ->
  line it = Z.of_nat (k + 1) ->
  span it = (Z.of_nat offs, Z.of_nat (offs + length x)) ->
  issue_of doc it ->
  lines_inv doc (S k) (issues ++ [it], offs + length x).
Proof.
  intros Hk [Ho Hf] Hline Hspan Hof. simpl in *. split.
  - simpl. rewrite (join_take_S _ _ _ Hk). lia.
  - simpl. apply Forall_app. split; [done|]. constructor; [|constructor].
    split; [|done]. pose proof (line_span_in_doc doc k x Hk) as Hb.
    unfold span_ok. rewrite Hline, Hspan. simpl. lia.
Qed.

Lemma find_cpptext_missing_brace_ok (doc : list ascii) :
  returns (find_cpptext_missing_brace doc) (Forall (issue_ok doc)).
Proof.
  unfold find_cpptext_missing_brace.
  eapply returns_bind.
  - apply (for_each_rule (lines_inv doc)) with (i := 0); [|split; [done|constructor]].
    intros k x [issues offs] Hk Hinv. simpl. unfold cpptext_body.
    destruct (is_match (re_search RE_I re_cpptext x)); [|by apply lines_inv_step].
    destruct (contains LBRACE x); [by apply lines_inv_step|].
    eapply returns_bind; [apply cpptext_skip_returns|]. intros j _.
    eapply returns_bind with (P := fun _ => True).
    { destruct (j <? length (splitlines doc)) eqn:Hj; [|done].
      apply Nat.ltb_lt in Hj. by destruct (getitem_lt _ j Hj) as (y & _ & ->). }
    intros next_line _. simpl.
    destruct (negb _); [|by apply lines_inv_step].
    apply lines_inv_issue; [done|done|done|done|].
    eapply of_cpptext; [done| |done|done]. lia.
  - intros [issues offs] [_ Hf]. done.
Qed.

Lemma open_count_acc (s : list ascii) :
  forall a : Z,
    foldl (fun oc ch => if chr_eqb ch LBRACE then (oc + 1)%Z
                        else if chr_eqb ch RBRACE then (oc - 1)%Z else oc) a s
    = (a + open_count s)%Z.
Proof.
  unfold open_count. induction s as [|d s IH]; intros a; simpl; [lia|].
  rewrite IH. rewrite (IH (if chr_eqb d LBRACE then _ else _)).
  destruct (chr_eqb d LBRACE), (chr_eqb d RBRACE); lia.
Qed.

Lemma open_count_cons (c : ascii) (s : list ascii) :
  open_count (c :: s) =
    ((if chr_eqb c LBRACE then 1 else if chr_eqb c RBRACE then -1 else 0) + open_count s)%Z.
Proof.
  unfold open_count at 1. simpl. rewrite open_count_acc.
  destruct (chr_eqb c LBRACE), (chr_eqb c RBRACE); lia.
Qed.

Lemma open_count_app (s t : list ascii) :
  open_count (s ++ t) = (open_count s + open_count t)%Z.
Proof.
  induction s as [|c s IH]; simpl; [unfold open_count at 2; simpl; lia|].
  rewrite !open_count_cons, IH. lia.
Qed.

Lemma safe_close_balance_ok (doc : list ascii) :
  returns (safe_close_balance doc) (Forall (issue_ok doc)).
Proof.
  unfold safe_close_balance.
  destruct (open_count doc <? 0)%Z eqn:Hneg.
  - apply Z.ltb_lt in Hneg. simpl. constructor; [|constructor]. split.
    + unfold span_ok. simpl. lia.
    + by apply of_brace_close.
  - destruct (open_count doc >? 0)%Z eqn:Hpos; simpl; [|constructor].
    apply Z.gtb_lt in Hpos. constructor; [|constructor]. split.
    + unfold span_ok. simpl. lia.
    + by apply of_brace_open.
Qed.

Lemma count_nl_line (doc : list ascii) (p : nat) :
  (1 <= Z.of_nat (count_nl_before doc p + 1))%Z.
Proof. lia. Qed.

Lemma check_defaultproperties_ok (doc : list ascii) :
  returns (check_defaultproperties doc) (Forall (issue_ok doc)).
Proof.
  unfold check_defaultproperties.
  pose proof (re_finditer_bounds RE_I doc re_defaultproperties) as Hb.
  eapply returns_mono.
  - apply (for_each_rule (fun _ issues => Forall (issue_ok doc) issues)) with (i := 0);
      [|constructor].
    intros k m issues Hk Hinv. simpl. unfold defaultproperties_body.
    destruct (negb _); [|done]. simpl.
    apply Forall_app. split; [done|]. constructor; [|constructor].
    rewrite Forall_lookup in Hb. specialize (Hb _ _ Hk). simpl in Hb. split.
    + unfold span_ok. simpl. lia.
    + eapply of_defaultprops; [done| |done]. lia.
  - done.
Qed.

Lemma check_semicolons_strict_ok (doc : list ascii) :
  returns (check_semicolons_strict doc) (Forall (issue_ok doc)).
Proof.
  unfold check_semicolons_strict.
  eapply returns_bind.
  - apply (for_each_rule (lines_inv doc)) with (i := 0); [|split; [done|constructor]].
    intros k x [issues offs] Hk Hinv. simpl. unfold semicolons_body.
    match goal with |- returns (if ?b then _ else _) _ => destruct b end;
      [by apply lines_inv_step|].
    match goal with |- returns (Ret (if ?b then _ else _, _)) _ => destruct b end;
      [|by apply lines_inv_step].
    apply lines_inv_issue; [done|done|done|done|].
    eapply of_semicolon; [done| |done|done]. lia.
  - intros [issues offs] [_ Hf]. done.
Qed.

Lemma paren_balance_ok (doc : list ascii) : Forall (issue_ok doc) (paren_balance doc).
Proof.
  unfold paren_balance.
  destruct (negb _) eqn:Hne; [|constructor].
  apply negb_true_iff, Z.eqb_neq in Hne.
  constructor; [|constructor]. split.
  - unfold span_ok. simpl. lia.
  - apply of_paren_balance; [done|done| |done]. lia.
Qed.

Lemma extended_control_paren_balance_ok (doc : list ascii) :
  returns (extended_control_paren_balance doc) (Forall (issue_ok doc)).
Proof.
  unfold extended_control_paren_balance.
  eapply returns_bind.
  - apply (for_each_rule (lines_inv doc)) with (i := 0); [|split; [done|constructor]].
    intros k x [issues offs] Hk Hinv. simpl. unfold control_paren_body.
    destruct (negb _); [by apply lines_inv_step|].
    match goal with |- returns (Ret (if ?b then _ else _, _)) _ => destruct b end;
      [|by apply lines_inv_step].
    apply lines_inv_issue; [done|done|done|done|].
    eapply of_control_paren; [done| |done|done]. lia.
  - intros [issues offs] [_ Hf]. done.
Qed.

Lemma re_search_set (fl : flags) (p : ascii -> bool) (s : list ascii) (m : rmatch) :
  re_search fl (RSet p) s = Some m ->
  exists c, s !! m_start m = Some c /\ p c = true /\ m_end m = S (m_start m).
Proof.
  unfold re_search. intros Hr. apply re_search_from_Some in Hr as (_ & Hat & _).
  unfold re_match_at in Hat. simpl in Hat.
  destruct (s !! m_start m) as [c|] eqn:Hc; [|done].
  destruct (p c) eqn:Hp; [|done].
  injection Hat as Hm. exists c. repeat split; [done|]. rewrite <- Hm at 1. done.
Qed.

Lemma struct_enum_loop_returns (text : list ascii) (count0 : Z) (pos0 : nat) :
  pos0 <= length text ->
  returns (loop (S (length text)) (struct_enum_step text) (count0, pos0))
          (fun st => st.2 <= length text).
Proof.
  intros Hpos0.
  apply (loop_rule (fun st => st.2 <= length text) (fun st => length text - st.2));
    [|done|simpl; lia].
  intros [count pos] Hpos. simpl in Hpos. unfold struct_enum_step.
  destruct (re_search NOFLAGS re_brace (drop pos text)) as [nxt|] eqn:Hnxt; [|done].
  apply re_search_set in Hnxt as (c & Hc & _ & _).
  rewrite lookup_drop in Hc. unfold getitem. rewrite Hc. simpl.
  apply lookup_lt_Some in Hc.
  destruct (_ =? 0)%Z; simpl; lia.
Qed.

Lemma extended_struct_enum_closer_ok (doc : list ascii) :
  returns (extended_struct_enum_closer doc) (Forall (issue_ok doc)).
Proof.
  unfold extended_struct_enum_closer.
  pose proof (re_finditer_bounds RE_IM doc re_struct_enum) as Hb.
  eapply returns_mono.
  - apply (for_each_rule (fun _ issues => Forall (issue_ok doc) issues)) with (i := 0);
      [|constructor].
    intros k m issues Hk Hinv. simpl. unfold struct_enum_body.
    rewrite Forall_lookup in Hb. specialize (Hb _ _ Hk). simpl in Hb.
    eapply returns_bind; [apply struct_enum_loop_returns; lia|].
    intros [count pos] Hpos. simpl in Hpos.
    destruct (negb _); [|done]. simpl.
    apply Forall_app. split; [done|]. constructor; [|constructor]. split.
    + unfold span_ok. simpl. lia.
    + eapply of_struct_enum; [done| |done].
      destruct (re_search RE_IM top_level_tokens (drop pos doc)) as [tl|] eqn:Htl; [|done].
      apply re_search_bounds in Htl. rewrite length_drop in Htl. lia.
  - done.
Qed.

(** *** The lexical skipper returns, further on in the text *)

Lemma chr_eqb_eq (a b : ascii) : chr_eqb a b = true -> a = b.
Proof. apply Ascii.eqb_eq. Qed.

Lemma skip_line_comment_returns (doc : list ascii) (j : nat) :
  j <= length doc ->
  returns (skip_line_comment doc j) (fun j' => j <= j' <= length doc).
Proof.
  intros Hj. unfold skip_line_comment.
  apply (loop_rule (fun j' => j <= j' <= length doc) (fun j' => length doc - j'));
    [|lia|lia].
  intros j' Hj'. unfold skip_line_comment_step.
  destruct (j' <? length doc) eqn:Hlt; simpl; [|done].
  apply Nat.ltb_lt in Hlt. destruct (getitem_lt doc j' Hlt) as (c & _ & ->). simpl.
  destruct (negb _); simpl; lia.
Qed.

Lemma skip_block_comment_returns (doc : list ascii) (i : nat) (line : Z) :
  i + 2 <= length doc ->
  returns (skip_block_comment doc i line)
          (fun r => i + 2 <= r.1 <= length doc /\ (line <= r.2)%Z).
Proof.
  intros Hi. unfold skip_block_comment.
  eapply returns_bind.
  - apply (loop_rule (fun st => i + 2 <= st.1 <= length doc /\ (line <= st.2)%Z)
                     (fun st => length doc - st.1)
                     (fun st => i + 2 <= st.1 <= length doc /\ (line <= st.2)%Z));
      [|simpl; lia|simpl; lia].
    intros [j l] [Hj Hl]. simpl in Hj, Hl. unfold skip_block_comment_step.
    destruct (j + 1 <? length doc) eqn:Hlt; simpl; [|lia].
    apply Nat.ltb_lt in Hlt.
    destruct (getitem_lt doc j ltac:(lia)) as (c & _ & ->). simpl.
    destruct (getitem_lt doc (j + 1) Hlt) as (c1 & _ & Hc1).
    destruct (chr_eqb c STAR); simpl.
    + rewrite Hc1. simpl. destruct (chr_eqb c1 SLASH); simpl; [lia|].
      destruct (chr_eqb c NL); lia.
    + destruct (chr_eqb c NL); lia.
  - intros [j l] [Hj Hl]. simpl in *. lia.
Qed.

Lemma skip_string_returns (doc : list ascii) (i : nat) (quote : ascii) (line : Z) :
  i + 1 <= length doc ->
  returns (skip_string doc i quote line) (fun r => i + 1 <= r.1 /\ (line <= r.2)%Z).
Proof.
  intros Hi. unfold skip_string.
  apply (loop_rule (fun st => i + 1 <= st.1 /\ (line <= st.2)%Z)
                   (fun st => length doc - st.1)); [|simpl; lia|simpl; lia].
  intros [j l] [Hj Hl]. simpl in Hj, Hl. unfold skip_string_step.
  destruct (j <? length doc) eqn:Hlt; simpl; [|lia].
  apply Nat.ltb_lt in Hlt.
  destruct (getitem_lt doc j Hlt) as (c & _ & ->). simpl.
  destruct (chr_eqb c BACKSLASH); simpl; [lia|].
  destruct (chr_eqb c quote); simpl; [lia|].
  destruct (chr_eqb c NL); lia.
Qed.

Lemma lex_at_returns (doc : list ascii) (i : nat) (line : Z) :
  i < length doc -> returns (lex_at doc i line) (lexeme_ok doc i line).
Proof.
  intros Hi. unfold lex_at.
  destruct (getitem_lt doc i Hi) as (c & Hc & ->). simpl.
  destruct (chr_eqb c NL) eqn:Hnl.
  { apply chr_eqb_eq in Hnl as ->. done. }
  destruct (chr_eqb c SLASH) eqn:Hsl; simpl.
  - destruct (i + 1 <? length doc) eqn:Hlt; simpl.
    + apply Nat.ltb_lt in Hlt.
      destruct (getitem_lt doc (i + 1) Hlt) as (c1 & _ & ->). simpl.
      destruct (chr_eqb c1 SLASH); simpl.
      * eapply returns_bind; [apply skip_line_comment_returns; lia|].
        intros j Hj. simpl in *. lia.
      * destruct (chr_eqb c1 STAR); simpl.
        -- eapply returns_bind; [apply skip_block_comment_returns; lia|].
           intros [j l] Hj. simpl in *. lia.
        -- destruct (chr_eqb c SQUOTE || chr_eqb c DQUOTE); simpl; [|done].
           eapply returns_bind; [apply skip_string_returns; lia|].
           intros [j l] Hj. simpl in *. lia.
    + destruct (chr_eqb c SQUOTE || chr_eqb c DQUOTE); simpl; [|done].
      eapply returns_bind; [apply skip_string_returns; lia|].
      intros [j l] Hj. simpl in *. lia.
  - destruct (chr_eqb c SQUOTE || chr_eqb c DQUOTE); simpl; [|done].
    eapply returns_bind; [apply skip_string_returns; lia|].
    intros [j l] Hj. simpl in *. lia.
Qed.

(** The main loops, with their common start taken out. *)
Ltac step_tail doc i c line :=
  simpl;
  destruct (chr_eqb c SQUOTE || chr_eqb c DQUOTE); simpl;
  [ destruct (skip_string doc i c line) as [[? ?]| |]; done | ];
  repeat match goal with
         | |- context [if ?b then _ else _] =>
             match type of b with bool => destruct b; simpl end
         end;
  done.

Ltac step_eq doc i line :=
  simpl;
  destruct (i <? length doc); [|done];
  destruct (getitem doc i) as [?c| |]; simpl; [|done|done];
  match goal with
  | c : ascii |- _ =>
      destruct (chr_eqb c NL); [done|];
      unfold oand;
      destruct (chr_eqb c SLASH); simpl;
      [ destruct (i + 1 <? length doc); simpl;
        [ destruct (getitem doc (i + 1)) as [?c1| |]; simpl; [|done|done];
          match goal with
          | c1 : ascii |- _ =>
              destruct (chr_eqb c1 SLASH); simpl;
              [ destruct (skip_line_comment doc (i + 2)) as [?| |]; done | ];
              destruct (chr_eqb c1 STAR); simpl;
              [ destruct (skip_block_comment doc i line) as [[? ?]| |]; done | ];
              step_tail doc i c line
          end
        | step_tail doc i c line ]
      | step_tail doc i c line ]
  end.

Lemma loop_S {St R} (fuel : nat) (step : St -> outcome (ctl St R)) (st : St) :
  loop (S fuel) step st
  = (c ← step st; match c with Continue st' => loop fuel step st' | Leave r => Ret r end).
Proof. done. Qed.

Lemma paren_token_step_eq (doc : list ascii) (i : nat) (line : Z) (toks : list token) :
  paren_token_step doc (i, line, toks)
  = if i <? length doc then
      lx ← lex_at doc i line;
      match lx with
      | LNewline => Ret (Continue (i + 1, (line + 1)%Z, toks))
      | LSkipTo i' line' => Ret (Continue (i', line', toks))
      | LCode c =>
          Ret (Continue (i + 1, line,
                         if chr_eqb c LPAREN || chr_eqb c RPAREN then toks ++ [(i, line, c)]
                         else toks))
      end
    else Ret (Leave toks).
Proof. done. Qed.

Lemma close_paren_step_eq (doc : list ascii) (i : nat) (depth line : Z) :
  close_paren_step doc (i, depth, line)
  = if i <? length doc then
      lx ← lex_at doc i line;
      match lx with
      | LNewline => Ret (Continue (i + 1, depth, (line + 1)%Z))
      | LSkipTo i' line' => Ret (Continue (i', depth, line'))
      | LCode c =>
          if chr_eqb c LPAREN then Ret (Continue (i + 1, (depth + 1)%Z, line))
          else if chr_eqb c RPAREN then
            if (depth =? 0)%Z then Ret (Leave [close_issue i line])
            else Ret (Continue (i + 1, (depth - 1)%Z, line))
          else Ret (Continue (i + 1, depth, line))
      end
    else Ret (Leave []).
Proof. unfold close_paren_step, lex_at. step_eq doc i line. Qed.

Lemma open_paren_step_eq (doc : list ascii) (i : nat) (line : Z) (stack : list (nat * Z)) :
  open_paren_step doc (i, line, stack)
  = if i <? length doc then
      lx ← lex_at doc i line;
      match lx with
      | LNewline => Ret (Continue (i + 1, (line + 1)%Z, stack))
      | LSkipTo i' line' => Ret (Continue (i', line', stack))
      | LCode c =>
          if chr_eqb c LPAREN then Ret (Continue (i + 1, line, stack ++ [(i, line)]))
          else if chr_eqb c RPAREN then
            Ret (Continue (i + 1, line,
                           match stack with [] => stack | _ => removelast stack end))
          else Ret (Continue (i + 1, line, stack))
      end
    else Ret (Leave stack).
Proof. unfold open_paren_step, lex_at. step_eq doc i line. Qed.

Lemma extended_unmatched_close_paren_ok (doc : list ascii) :
  returns (extended_unmatched_close_paren doc) (Forall (issue_ok doc)).
Proof.
  unfold extended_unmatched_close_paren.
  apply (loop_rule (fun st => (1 <= st.2)%Z) (fun st => length doc - st.1.1));
    [|done|simpl; lia].
  intros [[i depth] line] Hline. simpl in Hline. rewrite close_paren_step_eq.
  destruct (i <? length doc) eqn:Hlt; [|by constructor].
  apply Nat.ltb_lt in Hlt.
  eapply returns_bind; [by apply lex_at_returns|].
  intros [|i' line'|c] Hlx; simpl in *.
  - lia.
  - lia.
  - destruct (chr_eqb c LPAREN); simpl; [lia|].
    destruct (chr_eqb c RPAREN) eqn:Hc; simpl; [|lia].
    apply chr_eqb_eq in Hc as ->.
    destruct (depth =? 0)%Z; simpl; [|lia].
    constructor; [|constructor]. split.
    + unfold span_ok. simpl. lia.
    + by eapply of_extra_close.
Qed.

Lemma extended_unmatched_open_paren_ok (doc : list ascii) :
  returns (extended_unmatched_open_paren doc) (Forall (issue_ok doc)).
Proof.
  unfold extended_unmatched_open_paren.
  eapply returns_bind.
  - apply (loop_rule
             (fun st => (1 <= st.1.2)%Z
                        /\ Forall (fun e => doc !! e.1 = Some LPAREN /\ (1 <= e.2)%Z) st.2)
             (fun st => length doc - st.1.1)
             (Forall (fun e => doc !! e.1 = Some LPAREN /\ (1 <= e.2)%Z)));
      [|by split; [|constructor]|simpl; lia].
    intros [[i line] stack] [Hline Hst]. simpl in Hline, Hst. rewrite open_paren_step_eq.
    destruct (i <? length doc) eqn:Hlt; [|done].
    apply Nat.ltb_lt in Hlt.
    eapply returns_bind; [by apply lex_at_returns|].
    intros [|i' line'|c] Hlx; simpl in *.
    + split; [split; [lia|done]|lia].
    + split; [split; [lia|done]|lia].
    + destruct (chr_eqb c LPAREN) eqn:Hc; simpl.
      * apply chr_eqb_eq in Hc as ->.
        split; [split; [done|]|lia]. apply Forall_app. split; [done|].
        constructor; [|constructor]. done.
      * destruct (chr_eqb c RPAREN); simpl; [|split; [done|lia]].
        split; [split; [done|]|lia].
        destruct stack as [|e stack]; [done|].
        destruct (exists_last (l := e :: stack) ltac:(done)) as (l' & a & Heq).
        rewrite Heq in *. rewrite removelast_last.
        apply Forall_app in Hst as [Hst _]. done.
  - intros stack Hst. simpl.
    destruct (last stack) as [[idx line_no]|] eqn:Hlast; [|constructor].
    apply last_Some in Hlast as (l' & ->).
    apply Forall_app in Hst as [_ Hst]. apply Forall_inv in Hst as [Hidx Hl]. simpl in *.
    constructor; [|constructor]. split.
    + unfold span_ok. simpl. apply lookup_lt_Some in Hidx. lia.
    + by eapply of_extra_open.
Qed.

(** ** Constructs that are not closed *)

Lemma skip_block_comment_end (doc : list ascii) (i : nat) (line : Z) :
  returns (skip_block_comment doc i line) (block_comment_end doc i).
Proof.
  unfold skip_block_comment.
  eapply returns_bind.
  - apply (loop_rule (fun st => i + 2 <= st.1)
                     (fun st => length doc - st.1)
                     (fun st => i + 2 <= st.1
                                /\ (length doc <= st.1 + 1
                                    \/ (st.1 + 1 < length doc /\ doc !! st.1 = Some STAR
                                        /\ doc !! (st.1 + 1) = Some SLASH))));
      [|simpl; lia|simpl; lia].
    intros [j l] Hj. simpl in Hj. unfold skip_block_comment_step.
    destruct (j + 1 <? length doc) eqn:Hlt; simpl.
    2: { apply Nat.ltb_ge in Hlt. split; [done|]. left. lia. }
    apply Nat.ltb_lt in Hlt.
    destruct (getitem_lt doc j ltac:(lia)) as (c & Hc & ->). simpl.
    destruct (getitem_lt doc (j + 1) Hlt) as (c1 & Hc1 & Hg1).
    destruct (chr_eqb c STAR) eqn:Hstar; simpl.
    + rewrite Hg1. simpl. destruct (chr_eqb c1 SLASH) eqn:Hslash; simpl.
      * apply chr_eqb_eq in Hstar as ->. apply chr_eqb_eq in Hslash as ->.
        split; [done|]. right. done.
      * lia.
    + lia.
  - intros [j l] [Hj Hend]. simpl in *. unfold block_comment_end. simpl.
    destruct Hend as [Hend|(Hlt & Hs & Hsl)].
    + left. lia.
    + right. replace (Nat.min (j + 2) (length doc)) with (j + 2) by lia.
      replace (j + 2 - 2) with j by lia. replace (j + 2 - 1) with (j + 1) by lia.
      repeat split; [lia|lia|done|done].
Qed.

Lemma skip_string_end (doc : list ascii) (i : nat) (quote : ascii) (line : Z) :
  returns (skip_string doc i quote line) (string_end doc i quote).
Proof.
  unfold skip_string.
  apply (loop_rule (fun st => i + 1 <= st.1) (fun st => length doc - st.1));
    [|simpl; lia|simpl; lia].
  intros [j l] Hj. simpl in Hj. unfold skip_string_step, string_end.
  destruct (j <? length doc) eqn:Hlt; simpl.
  2: { apply Nat.ltb_ge in Hlt. left. done. }
  apply Nat.ltb_lt in Hlt.
  destruct (getitem_lt doc j Hlt) as (c & Hc & ->). simpl.
  destruct (chr_eqb c BACKSLASH); simpl; [lia|].
  destruct (chr_eqb c quote) eqn:Hq; simpl.
  - apply chr_eqb_eq in Hq as ->. right.
    replace (j + 1 - 1) with j by lia. repeat split; [lia|lia|done].
  - lia.
Qed.

Lemma skip_line_comment_end (doc : list ascii) (j : nat) :
  returns (skip_line_comment doc j) (line_comment_end doc j).
Proof.
  unfold skip_line_comment.
  apply (loop_rule (fun j' => j <= j') (fun j' => length doc - j')); [|lia|lia].
  intros j' Hj'. unfold skip_line_comment_step, line_comment_end.
  destruct (j' <? length doc) eqn:Hlt; simpl.
  2: { apply Nat.ltb_ge in Hlt. split; [done|]. by left. }
  apply Nat.ltb_lt in Hlt.
  destruct (getitem_lt doc j' Hlt) as (c & Hc & ->). simpl.
  destruct (chr_eqb c NL) eqn:Hn; simpl.
  - apply chr_eqb_eq in Hn as ->. split; [done|]. by right.
  - lia.
Qed.

(** ** De-duplication *)

Lemma first_occurrences_filter (Q : string * Z * string * (Z * Z) -> Prop)
    `{!forall k, Decision (Q k)} (l : list Issue) :
  first_occurrences (filter (fun it => Q (issue_key it)) l)
  = filter (fun it => Q (issue_key it)) (first_occurrences l).
Proof.
  induction l as [|it l IH]; [done|].
  rewrite filter_cons. destruct (decide (Q (issue_key it))) as [Hq|Hq]; simpl.
  - rewrite filter_cons_True by done. f_equal. rewrite IH.
    rewrite !list_filter_filter. apply list_filter_iff. tauto.
  - rewrite filter_cons_False by done. rewrite IH.
    rewrite list_filter_filter. apply list_filter_iff. intros x. split; [|tauto].
    intros Hx. split; [done|]. intros Heq. rewrite Heq in Hx. done.
Qed.

Lemma dedup_loop_first_occurrences (l : list Issue) :
  forall (d : gmap (string * Z * string * (Z * Z)) bool) (res : list Issue),
    dedup_loop l d res
    = res ++ first_occurrences (filter (fun it => d !! issue_key it = None) l).
Proof.
  induction l as [|it l IH]; intros d res; simpl.
  - by rewrite app_nil_r.
  - rewrite filter_cons. destruct (d !! issue_key it) as [b|] eqn:Hd.
    + rewrite decide_False by done. apply IH.
    + rewrite decide_True by done. rewrite IH. simpl. rewrite <- app_assoc. simpl.
      do 2 f_equal.
      match goal with
      | |- _ = filter _ (first_occurrences ?X) =>
          pose proof (first_occurrences_filter (fun k => k <> issue_key it) X) as Hf
      end.
      simpl in Hf. rewrite <- Hf. clear Hf. f_equal. rewrite list_filter_filter. apply list_filter_iff. intros x.
      destruct (decide (issue_key it = issue_key x)) as [Heq|Hne].
      * rewrite <- Heq, lookup_insert_eq. split; [done|]. intros [Hx _]. done.
      * rewrite lookup_insert_ne by done. split; [|tauto]. intros Hx. split; [|done]. congruence.
Qed.

Lemma dedup_issues_first_occurrences (l : list Issue) :
  dedup_issues l = first_occurrences l.
Proof.
  unfold dedup_issues. rewrite dedup_loop_first_occurrences. simpl. f_equal.
  induction l as [|it l IH]; [done|].
  rewrite filter_cons_True by apply lookup_empty. by rewrite IH.
Qed.

Lemma first_occurrences_sublist (l : list Issue) : first_occurrences l `sublist_of` l.
Proof.
  induction l as [|it l IH]; simpl; [done|].
  apply sublist_skip. etrans; [apply sublist_filter|done].
Qed.

Lemma first_occurrences_NoDup (l : list Issue) : NoDup (issue_key <$> first_occurrences l).
Proof.
  induction l as [|it l IH]; simpl; [constructor|].
  constructor.
  - intros Hin. apply list_elem_of_fmap in Hin as (x & Hkey & Hx).
    apply list_elem_of_filter in Hx as [Hne _]. congruence.
  - eapply sublist_NoDup; [exact IH|apply fmap_sublist, sublist_filter].
Qed.

Lemma first_occurrences_keys (l : list Issue) (it : Issue) :
  it ∈ l -> issue_key it ∈ issue_key <$> first_occurrences l.
Proof.
  induction l as [|x l IH]; simpl; [by intros ?%not_elem_of_nil|].
  intros [->|Hin]%elem_of_cons; [by left|].
  destruct (decide (issue_key it = issue_key x)) as [->|Hne]; [by left|].
  right. apply IH in Hin. apply list_elem_of_fmap in Hin as (y & Hy & Hin).
  apply list_elem_of_fmap. exists y. split; [done|].
  apply list_elem_of_filter. split; [congruence|done].
Qed.

(** The first entry of [l] with the key of [it] is in the result. *)
Lemma first_occurrences_first (l1 l2 : list Issue) (it : Issue) :
  (forall x, x ∈ l1 -> issue_key x <> issue_key it) ->
  it ∈ first_occurrences (l1 ++ it :: l2).
Proof.
  induction l1 as [|x l1 IH]; simpl; intros Hl1; [by left|].
  right. apply list_elem_of_filter. split.
  - intros Heq. apply (Hl1 x); [by left|done].
  - apply IH. intros y Hy. apply Hl1. by right.
Qed.

Lemma Forall_dedup_issues (P : Issue -> Prop) (l : list Issue) :
  Forall P l -> Forall P (dedup_issues l).
Proof.
  intros Hl. rewrite dedup_issues_first_occurrences.
  rewrite Forall_forall in *. intros x Hx. apply Hl.
  eapply elem_of_sublist; [exact Hx|apply first_occurrences_sublist].
Qed.

(** ** The scan returns, with well-formed issues *)

Lemma detector_output_ok (doc : list ascii) (extended : bool) :
  returns (detector_output doc extended) (Forall (issue_ok doc)).
Proof.
  unfold detector_output.
  eapply returns_bind; [apply find_cpptext_missing_brace_ok|]. intros i1 H1.
  eapply returns_bind; [apply safe_close_balance_ok|]. intros i2 H2.
  eapply returns_bind; [apply check_defaultproperties_ok|]. intros i3 H3.
  eapply returns_bind; [apply check_semicolons_strict_ok|]. intros i4 H4.
  pose proof (paren_balance_ok doc) as H5.
  destruct extended.
  - eapply returns_bind; [apply extended_control_paren_balance_ok|]. intros i6 H6.
    eapply returns_bind; [apply extended_struct_enum_closer_ok|]. intros i7 H7.
    eapply returns_bind; [apply extended_unmatched_close_paren_ok|]. intros i8 H8.
    simpl. repeat (apply Forall_app; split); done.
  - simpl. repeat (apply Forall_app; split); done.
Qed.

Lemma scan_doc_for_issues_ok (doc : list ascii) (extended : bool) :
  returns (scan_doc_for_issues doc extended) (Forall (issue_ok doc)).
Proof.
  unfold scan_doc_for_issues.
  eapply returns_bind; [apply detector_output_ok|].
  intros issues Hok. simpl. by apply Forall_dedup_issues.
Qed.

Lemma scan_now_ok (doc : list ascii) (extended unmatched_open : bool) :
  returns (scan_now doc extended unmatched_open) (Forall (issue_ok doc)).
Proof.
  unfold scan_now.
  eapply returns_bind; [apply scan_doc_for_issues_ok|]. intros issues Hok.
  eapply returns_bind with (P := Forall (issue_ok doc)).
  - destruct unmatched_open; [|done].
    eapply returns_bind; [apply extended_unmatched_open_paren_ok|].
    intros i8 H8. simpl. by apply Forall_app.
  - intros issues' Hok'. simpl. by apply Forall_dedup_issues.
Qed.

Lemma first_occurrences_spec (issues : list Issue) :
  NoDup (issue_key <$> first_occurrences issues)
  /\ first_occurrences issues `sublist_of` issues
  /\ (forall it, it ∈ issues -> issue_key it ∈ issue_key <$> first_occurrences issues)
  /\ (forall l1 it l2, issues = l1 ++ it :: l2 ->
        (forall x, x ∈ l1 -> issue_key x <> issue_key it) ->
        it ∈ first_occurrences issues).
Proof.
  split; [apply first_occurrences_NoDup|].
  split; [apply first_occurrences_sublist|].
  split; [apply first_occurrences_keys|].
  intros l1 it l2 -> Hl1. by apply first_occurrences_first.
Qed.

(** C5: the list that [scan_doc_for_issues] returns is the detector
    output with every entry dropped that shares its key
    [(kind, line, message, span)] with an earlier entry: no two entries
    of the result have the same key, every key of the detector output
    is still there, and the entries that stay are the first ones with
    their key, in the order of the detector output.  The same holds of
    the list that [scan_now] makes of that result and of the issues of
    the detector of the unmatched opening parenthesis. *)
Theorem scan_dedup (doc : list ascii) (extended unmatched_open : bool) :
  returns (detector_output doc extended) (fun issues =>
    returns (scan_doc_for_issues doc extended) (fun res =>
      res = first_occurrences issues
      /\ NoDup (issue_key <$> res)
      /\ res `sublist_of` issues
      /\ (forall it, it ∈ issues -> issue_key it ∈ issue_key <$> res)
      /\ (forall l1 it l2, issues = l1 ++ it :: l2 ->
            (forall x, x ∈ l1 -> issue_key x <> issue_key it) -> it ∈ res)
      /\ returns (extended_unmatched_open_paren doc) (fun i8 =>
           returns (scan_now doc extended unmatched_open) (fun res' =>
             let all := if unmatched_open then res ++ i8 else res in
             res' = first_occurrences all
             /\ NoDup (issue_key <$> res')
             /\ res' `sublist_of` all
             /\ (forall it, it ∈ all -> issue_key it ∈ issue_key <$> res'))))).
Proof.
  pose proof (detector_output_ok doc extended) as Hd.
  apply returns_inv in Hd as (issues & Hret & _).
  rewrite Hret. simpl.
  unfold scan_now, scan_doc_for_issues. rewrite Hret. simpl.
  rewrite dedup_issues_first_occurrences.
  destruct (first_occurrences_spec issues) as (Hnd & Hsub & Hkeys & Hfirst).
  do 5 (split; [done|]).
  pose proof (extended_unmatched_open_paren_ok doc) as Ho.
  apply returns_inv in Ho as (i8 & Hret8 & _). rewrite Hret8. simpl.
  destruct unmatched_open; simpl; rewrite dedup_issues_first_occurrences.
  - destruct (first_occurrences_spec (first_occurrences issues ++ i8)) as (? & ? & ? & _).
    done.
  - destruct (first_occurrences_spec (first_occurrences issues)) as (? & ? & ? & _).
    done.
Qed.

(** C8: for every document and every mode the scan returns: no index
    is out of range and no loop runs on.  The skips return from every
    position: that of a block comment at the end of the document or
    behind the star and slash that close the comment, that of a string
    at (or past) the end of the document or behind the closing quote,
    that of a line comment at the end of the document or at a newline.
    So a comment or a string that nothing closes reaches to the end of
    the document. *)
Theorem scan_total (doc : list ascii) (extended unmatched_open : bool)
    (i : nat) (line : Z) (quote : ascii) :
  returns (scan_doc_for_issues doc extended) (fun _ => True)
  /\ returns (scan_now doc extended unmatched_open) (fun _ => True)
  /\ returns (extended_unmatched_open_paren doc) (fun _ => True)
  /\ returns (skip_block_comment doc i line) (block_comment_end doc i)
  /\ returns (skip_string doc i quote line) (string_end doc i quote)
  /\ returns (skip_line_comment doc i) (line_comment_end doc i).
Proof.
  split; [|split; [|split; [|split; [|split]]]].
  - eapply returns_mono; [apply scan_doc_for_issues_ok|done].
  - eapply returns_mono; [apply scan_now_ok|done].
  - eapply returns_mono; [apply extended_unmatched_open_paren_ok|done].
  - apply skip_block_comment_end.
  - apply skip_string_end.
  - apply skip_line_comment_end.
Qed.

(** C10: every issue that a scan returns, in either mode and with or
    without the detector of the unmatched opening parenthesis, has a
    line number of at least 1 and a span [(start, end)] with
    [0 <= start <= end <= len(doc)]. *)
Theorem scan_spans (doc : list ascii) (extended unmatched_open : bool) :
  returns (scan_doc_for_issues doc extended) (Forall (span_ok doc))
  /\ returns (scan_now doc extended unmatched_open) (Forall (span_ok doc)).
Proof.
  split.
  - eapply returns_mono; [apply scan_doc_for_issues_ok|].
    intros issues Hok. eapply Forall_impl; [exact Hok|]. by intros it [? _].
  - eapply returns_mono; [apply scan_now_ok|].
    intros issues Hok. eapply Forall_impl; [exact Hok|]. by intros it [? _].
Qed.

(** ** Brace balance *)

Lemma count_cons (c x : ascii) (s : list ascii) :
  count c (x :: s) = (if chr_eqb x c then 1 else 0) + count c s.
Proof.
  unfold count. rewrite filter_cons.
  destruct (chr_eqb x c) eqn:Hx.
  - by rewrite decide_True.
  - by rewrite decide_False.
Qed.

Lemma count_nil (c : ascii) : count c [] = 0.
Proof. done. Qed.

Lemma count_app (c : ascii) (s t : list ascii) : count c (s ++ t) = count c s + count c t.
Proof. unfold count. by rewrite filter_app, length_app. Qed.

Lemma open_count_counts (doc : list ascii) :
  open_count doc = (Z.of_nat (count LBRACE doc) - Z.of_nat (count RBRACE doc))%Z.
Proof.
  induction doc as [|c doc IH]; [done|].
  rewrite open_count_cons, !count_cons, IH.
  destruct (chr_eqb c LBRACE) eqn:Hl.
  - apply chr_eqb_eq in Hl as ->. simpl. lia.
  - destruct (chr_eqb c RBRACE); lia.
Qed.

Lemma re_search_from_None (fl : flags) (r : regex) (s : list ascii) (n : nat) :
  forall p, re_search_from fl r s n p = None ->
            forall q, p <= q < p + n -> re_match_at fl r s q = None.
Proof.
  induction n as [|n IH]; intros p Hs q Hq; [lia|].
  simpl in Hs. destruct (re_match_at fl r s p) eqn:Hp; [done|].
  destruct (decide (q = p)) as [->|]; [done|]. apply (IH (S p)); [done|lia].
Qed.


(** ** Repairs *)

Lemma issue_of_repair (doc : list ascii) (it : Issue) (f : closure) :
  issue_ok doc it -> apply_fn it = Some f ->
  text_repair it f \/ anchored_repair it f \/ offset_repair doc it f.
Proof.
  intros [Hspan Hof] Hf. destruct Hof as
    [a Hk Ha Hl Hc| Hk Hl Ho Hc | Hk Hl Ho Hc | pos Hk Hp Hc | a Hk Ha Hl Hc
    | Hk Hl Hne Hc | a Hk Ha Hl Hc | ia Hk Hia Hc | idx Hk Hidx Hs Hc | idx Hk Hidx Hs Hc];
    rewrite Hc in Hf; try discriminate Hf; injection Hf as <-.
  - right. left. exists a. repeat split; [done..|]. left. done.
  - left. done.
  - right. right. exists pos. split; [done|]. left. done.
  - right. left. exists a. repeat split; [done..|]. right. left. done.
  - right. left. exists a. repeat split; [done..|]. right. right. done.
  - right. right. exists ia. split; [done|]. right. left. done.
  - right. right. exists idx. apply lookup_lt_Some in Hidx.
    split; [lia|]. right. right. split; [by left|]. done.
  - right. right. exists idx. apply lookup_lt_Some in Hidx.
    split; [lia|]. right. right. split; [by right|]. done.
Qed.

(** C1, as amended: the repair of an issue of a scan of [doc] is of one
    of three sorts.  The repair of [brace-balance] captures nothing and
    finds the place of its edit in the text it is given.  The repairs of
    [cpptext-brace], [semicolon-missing] and [paren-control-close]
    capture the line number of the issue and find that line again in
    the text they are given.  The repairs of [defaultprops-brace],
    [struct-enum-close], [paren-extra-close] and [paren-extra-open]
    capture a character offset of [doc], computed by the detector, and
    edit any text they are given at that offset. *)
Theorem repairs_captured_values (doc : list ascii) (extended unmatched_open : bool) :
  returns (scan_now doc extended unmatched_open) (Forall (fun it =>
    forall f, apply_fn it = Some f ->
      text_repair it f \/ anchored_repair it f \/ offset_repair doc it f)).
Proof.
  eapply returns_mono; [apply scan_now_ok|].
  intros issues Hok. eapply Forall_impl; [exact Hok|].
  intros it Hit f Hf. by apply issue_of_repair.
Qed.

Lemma scan_doc_dp1 :
  exists it, scan_doc_for_issues doc_dp1 false = Ret [it]
             /\ kind it = "defaultprops-brace" /\ line it = 1%Z
             /\ apply_fn it = Some (Defaultproperties_apply 17).
Proof. eexists. split; [vm_compute; reflexivity|]. done. Qed.

Lemma scan_doc_dp2 :
  exists it, scan_doc_for_issues doc_dp2 false = Ret [it]
             /\ kind it = "defaultprops-brace" /\ line it = 1%Z
             /\ apply_fn it = Some (Defaultproperties_apply 18).
Proof. eexists. split; [vm_compute; reflexivity|]. done. Qed.

(** The witness of C1: on the scenario document the repair of the first
    issue edits at the offset 17 of the scanned document. *)
Lemma repairs_captured_values_witness :
  exists it f, apply_fn it = Some f
               /\ (text_repair it f \/ anchored_repair it f \/ offset_repair doc_dp1 it f).
Proof.
  pose proof (repairs_captured_values doc_dp1 false false) as H.
  destruct scan_doc_dp1 as (it & Hscan & _ & _ & Hf).
  unfold scan_now in H. rewrite Hscan in H.
  change (dedup_issues [it]) with [it] in H. simpl in H.
  apply Forall_inv in H.
  exists it, (Defaultproperties_apply 17). split; [done|]. by apply H.
Defined.

(** C1, as stated, fails: the repairs of the [defaultprops-brace]
    issues of two documents, both at line 1, differ on one text. *)
Lemma repairs_use_offsets : ~ repairs_use_only_the_text.
Proof.
  intros H.
  destruct scan_doc_dp1 as (it1 & Hs1 & Hk1 & Hl1 & Hf1).
  destruct scan_doc_dp2 as (it2 & Hs2 & Hk2 & Hl2 & Hf2).
  specialize (H doc_dp1 doc_dp2 doc_dp2 false [it1] [it2] it1 it2 _ _ Hs1 Hs2
                (list_elem_of_here _ _) (list_elem_of_here _ _)
                (eq_trans Hk1 (eq_sym Hk2)) (eq_trans Hl1 (eq_sym Hl2)) Hf1 Hf2).
  vm_compute in H. discriminate H.
Qed.

Lemma semicolons_apply_guard (a : nat) (text : list ascii) :
  semicolon_guard a text = true -> semicolons_apply a text = Ret text.
Proof.
  unfold semicolon_guard, semicolons_apply. intros Hg.
  destruct (a - 1 <? length (splitlines text)) eqn:Hlt.
  - apply Nat.ltb_lt in Hlt. destruct (getitem_lt _ _ Hlt) as (l & Hl & ->).
    rewrite Hl in Hg. simpl. by rewrite Hg.
  - by rewrite join_splitlines.
Qed.

Lemma length_list_insert_at {A} (i : nat) (x : A) (l : list A) :
  length (list_insert_at i x l) = S (length l).
Proof.
  unfold list_insert_at. rewrite length_app. simpl.
  rewrite length_take, length_drop. lia.
Qed.

Lemma join_list_insert_at (i : nat) (x : list ascii) (l : list (list ascii)) :
  length (join (list_insert_at i x l)) = length (join l) + length x.
Proof.
  unfold list_insert_at, join. rewrite <- (take_drop i l) at 3.
  rewrite !concat_app, concat_cons, !length_app. lia.
Qed.

Lemma length_insert_text (p : nat) (ins text : list ascii) :
  length (take p text ++ ins ++ drop p text) = length text + length ins.
Proof. rewrite !length_app, length_take, length_drop. lia. Qed.

Lemma issue_of_effect (doc : list ascii) (it : Issue) (f : closure) (text : list ascii) :
  issue_ok doc it -> apply_fn it = Some f -> repair_effect it f text.
Proof.
  intros [Hspan Hof] Hf. unfold repair_effect. destruct Hof as
    [a Hk Ha Hl Hc| Hk Hl Ho Hc | Hk Hl Ho Hc | pos Hk Hp Hc | a Hk Ha Hl Hc
    | Hk Hl Hne Hc | a Hk Ha Hl Hc | ia Hk Hia Hc | idx Hk Hidx Hs Hc | idx Hk Hidx Hs Hc];
    rewrite Hc in Hf; try discriminate Hf; injection Hf as <-; rewrite Hk;
    repeat split; intros Hkind;
    try solve [exfalso; clear -Hkind; intuition discriminate].
  all: try (simpl; unfold cpptext_apply, safe_close_apply, struct_enum_apply,
             defaultproperties_apply; simpl).
  - rewrite join_list_insert_at, join_splitlines. simpl. lia.
  - rewrite ?length_app, ?length_take. simpl. rewrite ?length_drop. lia.
  - rewrite ?length_app, ?length_take. simpl. rewrite ?length_drop. lia.
  - exists a. split; [done|]. apply semicolons_apply_guard.
  - rewrite ?length_app, ?length_take. simpl. rewrite ?length_drop. lia.
  - exists idx. split; [done|]. simpl.
    destruct (idx <? length text) eqn:Hlt.
    + apply Nat.ltb_lt in Hlt. rewrite length_app, length_take, length_drop. lia.
    + apply Nat.ltb_ge in Hlt. rewrite take_ge, drop_ge by lia. by rewrite app_nil_r.
  - exists idx. split; [done|]. simpl.
    destruct (idx <? length text) eqn:Hlt.
    + apply Nat.ltb_lt in Hlt. rewrite length_app, length_take, length_drop. lia.
    + apply Nat.ltb_ge in Hlt. rewrite take_ge, drop_ge by lia. by rewrite app_nil_r.
Qed.

(** C2, as amended: of all the repairs only that of [semicolon-missing]
    looks for the defect again.  On a text that has no line with its
    line number, or in which that line, without the white space at its
    end, ends in a semicolon, it returns the text as it is.  The repairs
    of [brace-balance], [cpptext-brace] and [struct-enum-close] make
    every text two characters longer and that of [defaultprops-brace]
    five; the repairs of [paren-extra-close] and [paren-extra-open] drop
    the character at their offset from every text that is long enough,
    and leave a shorter text as it is. *)
Theorem repairs_effect (doc : list ascii) (extended unmatched_open : bool) :
  returns (scan_now doc extended unmatched_open) (Forall (fun it =>
    forall f text, apply_fn it = Some f -> repair_effect it f text)).
Proof.
  eapply returns_mono; [apply scan_now_ok|].
  intros issues Hok. eapply Forall_impl; [exact Hok|].
  intros it Hit f text Hf. by eapply issue_of_effect.
Qed.

Lemma scan_doc_one_brace :
  exists it, scan_doc_for_issues doc_one_brace false = Ret [it]
             /\ kind it = "brace-balance" /\ line it = 1%Z
             /\ apply_fn it = Some Safe_close_apply.
Proof. eexists. split; [vm_compute; reflexivity|]. done. Qed.

(** The witness of C2: the repair found in the document of one opening
    brace makes the empty text two characters long. *)
Lemma repairs_effect_witness :
  exists it f, apply_fn it = Some f /\ repair_effect it f [].
Proof.
  pose proof (repairs_effect doc_one_brace false false) as H.
  destruct scan_doc_one_brace as (it & Hscan & _ & _ & Hf).
  unfold scan_now in H. rewrite Hscan in H.
  change (dedup_issues [it]) with [it] in H. simpl in H.
  apply Forall_inv in H.
  exists it, Safe_close_apply. split; [done|]. by apply H.
Defined.

(** C2, as stated, fails: the scan of the empty text reports nothing,
    and the repair found in the document of one opening brace still
    puts a closing brace in it. *)
Lemma repairs_do_not_guard : ~ repairs_guard_themselves.
Proof.
  intros H.
  destruct scan_doc_one_brace as (it & Hs & Hk & Hl & Hf).
  specialize (H doc_one_brace [] false [it] [] it _ Hs (list_elem_of_here _ _) Hf).
  assert (scan_doc_for_issues [] false = Ret []) as Hs' by (vm_compute; reflexivity).
  specialize (H Hs'). vm_compute in H. 
  assert (Ret [RBRACE; NL] = @Ret (list ascii) []) as Habs.
  { apply H. intros it' Hin. by apply not_elem_of_nil in Hin. }
  discriminate Habs.
Qed.

(** ** Re-scanning after the repair of the brace balance *)

Lemma detector_output_brace (doc : list ascii) (extended : bool) (bi : Issue) :
  safe_close_balance doc = Ret [bi] ->
  returns (detector_output doc extended) (fun issues => bi ∈ issues).
Proof.
  intros Hb. unfold detector_output.
  eapply returns_bind; [apply find_cpptext_missing_brace_ok|]. intros i1 _.
  rewrite Hb. simpl.
  eapply returns_bind; [apply check_defaultproperties_ok|]. intros i3 _.
  eapply returns_bind; [apply check_semicolons_strict_ok|]. intros i4 _.
  destruct extended.
  - eapply returns_bind; [apply extended_control_paren_balance_ok|]. intros i6 _.
    eapply returns_bind; [apply extended_struct_enum_closer_ok|]. intros i7 _.
    eapply returns_bind; [apply extended_unmatched_close_paren_ok|]. intros i8 _.
    simpl. set_solver.
  - simpl. set_solver.
Qed.

Lemma scan_reports_brace (doc : list ascii) (extended : bool) :
  (0 < open_count doc)%Z ->
  returns (scan_doc_for_issues doc extended) (fun issues =>
    exists it, it ∈ issues /\ kind it = "brace-balance" /\ line it = 1%Z).
Proof.
  intros Hpos. unfold scan_doc_for_issues.
  assert (exists bi, safe_close_balance doc = Ret [bi]
                     /\ kind bi = "brace-balance" /\ line bi = 1%Z) as (bi & Hb & Hk & Hl).
  { unfold safe_close_balance.
    rewrite (proj2 (Z.ltb_ge _ _)) by lia. rewrite (proj2 (Z.gtb_lt _ _)) by lia.
    eexists. split; [done|]. done. }
  eapply returns_bind; [by apply detector_output_brace|].
  intros issues Hin. simpl. rewrite dedup_issues_first_occurrences.
  apply first_occurrences_keys in Hin.
  apply list_elem_of_fmap in Hin as (it & Hkey & Hit).
  exists it. split; [done|]. unfold issue_key in Hkey.
  injection Hkey as Hk' Hl' _ _. split; congruence.
Qed.

Lemma scan_no_brace (doc : list ascii) (extended : bool) :
  open_count doc = 0%Z ->
  returns (scan_doc_for_issues doc extended) (fun issues =>
    forall it, it ∈ issues -> kind it <> "brace-balance").
Proof.
  intros Hz. eapply returns_mono; [apply scan_doc_for_issues_ok|].
  intros issues Hok it Hin Hk. rewrite Forall_forall in Hok.
  destruct (Hok it Hin) as [_ Hof].
  destruct Hof; try congruence; lia.
Qed.


Lemma scan_doc_two_braces :
  exists it, scan_doc_for_issues doc_two_braces false = Ret [it]
             /\ kind it = "brace-balance" /\ line it = 1%Z
             /\ apply_fn it = Some Safe_close_apply.
Proof. eexists. split; [vm_compute; reflexivity|]. done. Qed.

Lemma scan_doc_two_braces_fixed :
  exists it, scan_doc_for_issues doc_two_braces_fixed false = Ret [it]
             /\ kind it = "brace-balance" /\ line it = 1%Z.
Proof. eexists. split; [vm_compute; reflexivity|]. done. Qed.



(** ** Matching parentheses in a list of tokens *)

Lemma opens_cons (t : token) (r : list token) :
  opens (t :: r) = (if is_open t then 1 else 0) + opens r.
Proof.
  unfold opens. rewrite filter_cons. destruct (is_open t) eqn:Ht.
  - by rewrite decide_True.
  - by rewrite decide_False.
Qed.

Lemma closes_cons (t : token) (r : list token) :
  closes (t :: r) = (if is_open t then 0 else 1) + closes r.
Proof.
  unfold closes. rewrite filter_cons. destruct (is_open t) eqn:Ht.
  - by rewrite decide_False.
  - by rewrite decide_True.
Qed.

Lemma prefix_of_cons (t : token) (r pre : list token) :
  pre `prefix_of` (t :: r) <-> pre = [] \/ exists pre', pre = t :: pre' /\ pre' `prefix_of` r.
Proof.
  split.
  - intros [k Hk]. destruct pre as [|u pre']; [by left|].
    right. simpl in Hk. injection Hk as <- ->. exists pre'. split; [done|]. by exists k.
  - intros [->|(pre' & -> & [k ->])]; [apply prefix_nil|]. by exists k.
Qed.

Lemma never_surplus_nil (d : nat) : never_surplus d [].
Proof. intros pre Hpre. apply prefix_nil_inv in Hpre as ->. unfold closes. simpl. lia. Qed.

Lemma never_surplus_cons_open (d : nat) (t : token) (r : list token) :
  is_open t = true -> (never_surplus d (t :: r) <-> never_surplus (S d) r).
Proof.
  intros Ht. split; intros H pre Hpre.
  - specialize (H (t :: pre)). rewrite closes_cons, opens_cons, Ht in H.
    simpl in H. assert (t :: pre `prefix_of` t :: r) as Hp.
    { apply prefix_of_cons. right. by exists pre. }
    specialize (H Hp). lia.
  - apply prefix_of_cons in Hpre as [->|(pre' & -> & Hp)].
    + unfold closes. simpl. lia.
    + rewrite closes_cons, opens_cons, Ht. simpl. specialize (H pre' Hp). lia.
Qed.

Lemma never_surplus_cons_close (d : nat) (t : token) (r : list token) :
  is_open t = false ->
  (never_surplus d (t :: r) <-> exists d', d = S d' /\ never_surplus d' r).
Proof.
  intros Ht. split.
  - intros H. destruct d as [|d'].
    + specialize (H [t]). rewrite closes_cons, opens_cons, Ht in H.
      assert ([t] `prefix_of` t :: r) as Hp by (by exists r).
      specialize (H Hp). unfold opens, closes in H. simpl in H. lia.
    + exists d'. split; [done|]. intros pre Hpre.
      specialize (H (t :: pre)). rewrite closes_cons, opens_cons, Ht in H.
      assert (t :: pre `prefix_of` t :: r) as Hp.
      { apply prefix_of_cons. right. by exists pre. }
      specialize (H Hp). lia.
  - intros (d' & -> & H) pre Hpre.
    apply prefix_of_cons in Hpre as [->|(pre' & -> & Hp)].
    + unfold closes. simpl. lia.
    + rewrite closes_cons, opens_cons, Ht. simpl. specialize (H pre' Hp). lia.
Qed.

(** What [first_unmatched_close] finds: the first closing parenthesis
    with as many closing as opening ones before it, and in no prefix
    before it more closing than opening ones. *)
Lemma first_unmatched_close_spec (toks : list token) :
  forall d,
    match first_unmatched_close d toks with
    | Some t => exists pre post, toks = pre ++ t :: post /\ is_open t = false
                                 /\ never_surplus d pre /\ closes pre = d + opens pre
    | None => never_surplus d toks
    end.
Proof.
  induction toks as [|t r IH]; intros d; simpl.
  - apply never_surplus_nil.
  - destruct (is_open t) eqn:Ht.
    + specialize (IH (S d)). destruct (first_unmatched_close (S d) r) as [t'|].
      * destruct IH as (pre & post & -> & Ht' & Hns & Hc).
        exists (t :: pre), post. repeat split; [done| |].
        -- by apply never_surplus_cons_open.
        -- rewrite closes_cons, opens_cons, Ht. lia.
      * by apply never_surplus_cons_open.
    + destruct d as [|d'].
      * exists [], r. repeat split; [done|apply never_surplus_nil].
      * specialize (IH d'). destruct (first_unmatched_close d' r) as [t'|].
        -- destruct IH as (pre & post & -> & Ht' & Hns & Hc).
           exists (t :: pre), post. repeat split; [done| |].
           ++ apply never_surplus_cons_close; [done|]. by exists d'.
           ++ rewrite closes_cons, opens_cons, Ht. lia.
        -- apply never_surplus_cons_close; [done|]. by exists d'.
Qed.

Lemma max_surplus_spec (toks : list token) :
  forall d, max_surplus toks <= d <-> never_surplus d toks.
Proof.
  induction toks as [|t r IH]; intros d; simpl.
  - split; [intros _; apply never_surplus_nil|lia].
  - destruct (is_open t) eqn:Ht.
    + rewrite never_surplus_cons_open by done. rewrite <- IH. lia.
    + rewrite never_surplus_cons_close by done. split.
      * intros H. destruct d as [|d']; [lia|]. exists d'. split; [done|]. apply IH. lia.
      * intros (d' & -> & H). apply IH in H. lia.
Qed.

Lemma removelast_take {A} (l : list A) : removelast l = take (length l - 1) l.
Proof.
  induction l as [|x l IH]; [done|].
  destruct l as [|y l]; [done|].
  change (removelast (x :: y :: l)) with (x :: removelast (y :: l)).
  rewrite IH. simpl. by rewrite Nat.sub_0_r.
Qed.

(** The stack of the detector after [toks]: what is left of the stack
    it started with, then the opening parentheses of [toks] that
    nothing closes. *)
Lemma stack_after_spec (toks : list token) :
  forall stack,
    stack_after stack toks
    = take (length stack - max_surplus toks) stack ++ unmatched_opens toks.
Proof.
  induction toks as [|t r IH]; intros stack.
  - simpl. rewrite Nat.sub_0_r, firstn_all, app_nil_r. done.
  - unfold stack_after. simpl. fold (stack_after (if is_open t then stack ++ [t.1]
        else match stack with [] => stack | _ => removelast stack end) r).
    destruct (is_open t) eqn:Ht; simpl.
    + rewrite IH, length_app. simpl.
      destruct (max_surplus r) as [|m] eqn:Hm; simpl.
      * rewrite take_ge by (rewrite length_app; simpl; lia).
        rewrite Nat.sub_0_r, firstn_all. by rewrite <- app_assoc.
      * rewrite Nat.sub_0_r. rewrite take_app_le by lia.
        replace (length stack + 1 - S m) with (length stack - m) by lia. done.
    + assert ((match stack with [] => stack | _ => removelast stack end)
              = take (length stack - 1) stack) as ->.
      { destruct stack; [done|]. apply removelast_take. }
      rewrite IH, length_take, take_take. f_equal. f_equal. lia.
Qed.

Lemma elem_of_unmatched_opens (toks : list token) (q : nat * Z) :
  q ∈ unmatched_opens toks
  <-> exists pre t post, toks = pre ++ t :: post /\ t.1 = q /\ unmatched_open t post.
Proof.
  induction toks as [|t0 r IH]; simpl.
  - split; [by intros ?%not_elem_of_nil|]. intros (pre & t & post & H & _).
    by destruct pre.
  - split.
    + destruct (is_open t0 && (max_surplus r =? 0)) eqn:Hkeep.
      * apply andb_true_iff in Hkeep as [Ht0 Hms]. apply Nat.eqb_eq in Hms.
        intros [->|Hin]%elem_of_cons.
        -- exists [], t0, r. repeat split; [done|]. apply max_surplus_spec. lia.
        -- apply IH in Hin as (pre & t & post & -> & Hq & Hu).
           by exists (t0 :: pre), t, post.
      * intros Hin. apply IH in Hin as (pre & t & post & -> & Hq & Hu).
        by exists (t0 :: pre), t, post.
    + intros (pre & t & post & Heq & Hq & [Ht Hns]).
      destruct pre as [|u pre]; simpl in Heq; injection Heq as -> ->.
      * apply max_surplus_spec in Hns. rewrite Ht.
        replace (max_surplus post =? 0) with true by (symmetry; apply Nat.eqb_eq; lia).
        simpl. rewrite Hq. by left.
      * assert (q ∈ unmatched_opens (pre ++ t :: post)) as Hin.
        { apply IH. by exists pre, t, post. }
        destruct (is_open u && _); [by right|done].
Qed.

(** ** The two detectors and the parentheses of the code *)

Lemma StronglySorted_snoc {A} (R : A -> A -> Prop) (l : list A) (x : A) :
  StronglySorted R l -> Forall (fun y => R y x) l -> StronglySorted R (l ++ [x]).
Proof.
  induction l as [|y l IH]; simpl; intros Hs Hf.
  - constructor; constructor.
  - apply StronglySorted_inv in Hs as [Hs Hy]. apply Forall_cons in Hf as [Hyx Hf].
    constructor; [by apply IH|]. apply Forall_app. split; [done|]. by constructor.
Qed.

Lemma paren_tokens_ok (doc : list ascii) :
  returns (paren_tokens doc) (fun toks =>
    Forall (token_ok doc) toks /\ StronglySorted by_offset toks).
Proof.
  unfold paren_tokens.
  apply (loop_rule
           (fun st => (1 <= st.1.2)%Z
                      /\ Forall (fun t => token_ok doc t /\ t.1.1 < st.1.1) st.2
                      /\ StronglySorted by_offset st.2)
           (fun st => length doc - st.1.1)); [| |simpl; lia].
  - intros [[i line] toks] (Hline & Hf & Hs). simpl in *. unfold paren_token_step.
    destruct (i <? length doc) eqn:Hlt.
    + apply Nat.ltb_lt in Hlt.
      assert (forall i', i < i' ->
                Forall (fun t : token => token_ok doc t /\ t.1.1 < i') toks) as Hmono.
      { intros i' Hi'. eapply Forall_impl; [exact Hf|]. simpl. intros t [? ?]. split; [done|lia]. }
      eapply returns_bind; [by apply lex_at_returns|].
      intros [|i' line'|c] Hlx; simpl in *.
      * repeat split; [lia|apply Hmono; lia|done|lia].
      * repeat split; [lia|apply Hmono; lia|done|lia].
      * destruct (chr_eqb c LPAREN || chr_eqb c RPAREN) eqn:Hc.
        -- repeat split; [done| | |lia].
           ++ apply Forall_app. split; [apply Hmono; lia|].
              constructor; [|constructor]. simpl. split; [|lia].
              split; [done|]. split; [|done]. simpl.
              apply orb_true_iff in Hc as [Hc|Hc]; apply chr_eqb_eq in Hc; auto.
           ++ apply StronglySorted_snoc; [done|].
              eapply Forall_impl; [exact Hf|]. intros t [_ Ht]. exact Ht.
        -- repeat split; [done|apply Hmono; lia|done|lia].
    + simpl. split; [|done]. eapply Forall_impl; [exact Hf|]. by intros t [? _].
  - simpl. repeat split; [done|constructor|constructor].
Qed.

(** The detector of the unmatched closing parenthesis does, on the
    document, what [first_unmatched_close] does on the tokens. *)
Lemma close_paren_refines (doc : list ascii) (fuel : nat) :
  forall (i : nat) (line depth : Z) (toks0 : list token),
    (0 <= depth)%Z ->
    match loop fuel (paren_token_step doc) (i, line, toks0) with
    | Ret toks =>
        exists rest,
          toks = toks0 ++ rest
          /\ loop fuel (close_paren_step doc) (i, depth, line)
             = Ret (match first_unmatched_close (Z.to_nat depth) rest with
                    | Some t => [close_issue t.1.1 t.1.2]
                    | None => []
                    end)
    | _ => True
    end.
Proof.
  induction fuel as [|fuel IH]; intros i line depth toks0 Hd; [done|].
  rewrite !loop_S, paren_token_step_eq, close_paren_step_eq.
  destruct (i <? length doc); simpl.
  2: { exists []. by rewrite app_nil_r. }
  destruct (lex_at doc i line) as [[|i' line'|c]| |]; simpl; try done.
  - apply IH. done.
  - apply IH. done.
  - destruct (chr_eqb c LPAREN) eqn:Hopen; simpl.
    + specialize (IH (i + 1) line (depth + 1)%Z (toks0 ++ [(i, line, c)]) ltac:(lia)).
      destruct (loop fuel (paren_token_step doc) _) as [toks| |]; try done.
      destruct IH as (rest & -> & Hloop).
      exists ((i, line, c) :: rest). split; [by rewrite <- app_assoc|].
      rewrite Hloop.
      simpl. unfold is_open. simpl. rewrite Hopen.
      replace (Z.to_nat (depth + 1)) with (S (Z.to_nat depth)) by lia. done.
    + destruct (chr_eqb c RPAREN) eqn:Hclose; simpl.
      * destruct (depth =? 0)%Z eqn:Hz; simpl.
        -- apply Z.eqb_eq in Hz as ->.
           specialize (IH (i + 1) line 0%Z (toks0 ++ [(i, line, c)]) ltac:(lia)).
           destruct (loop fuel (paren_token_step doc) _) as [toks| |]; try done.
           destruct IH as (rest & -> & _).
           exists ((i, line, c) :: rest). split; [by rewrite <- app_assoc|].
           simpl. unfold is_open. simpl. rewrite Hopen. done.
        -- apply Z.eqb_neq in Hz.
           specialize (IH (i + 1) line (depth - 1)%Z (toks0 ++ [(i, line, c)]) ltac:(lia)).
           destruct (loop fuel (paren_token_step doc) _) as [toks| |]; try done.
           destruct IH as (rest & -> & Hloop).
           exists ((i, line, c) :: rest). split; [by rewrite <- app_assoc|].
           rewrite Hloop.
           simpl. unfold is_open. simpl. rewrite Hopen.
           replace (Z.to_nat depth) with (S (Z.to_nat (depth - 1))) by lia. done.
      * apply IH. done.
Qed.

(** The detector of the unmatched opening parenthesis keeps, on the
    document, the stack that [stack_after] keeps on the tokens. *)
Lemma open_paren_refines (doc : list ascii) (fuel : nat) :
  forall (i : nat) (line : Z) (stack : list (nat * Z)) (toks0 : list token),
    match loop fuel (paren_token_step doc) (i, line, toks0) with
    | Ret toks =>
        exists rest,
          toks = toks0 ++ rest
          /\ loop fuel (open_paren_step doc) (i, line, stack) = Ret (stack_after stack rest)
    | _ => True
    end.
Proof.
  induction fuel as [|fuel IH]; intros i line stack toks0; [done|].
  rewrite !loop_S, paren_token_step_eq, open_paren_step_eq.
  destruct (i <? length doc); simpl.
  2: { exists []. by rewrite app_nil_r. }
  destruct (lex_at doc i line) as [[|i' line'|c]| |]; simpl; try done.
  - apply IH.
  - apply IH.
  - destruct (chr_eqb c LPAREN) eqn:Hopen; simpl.
    + specialize (IH (i + 1) line (stack ++ [(i, line)]) (toks0 ++ [(i, line, c)])).
      destruct (loop fuel (paren_token_step doc) _) as [toks| |]; try done.
      destruct IH as (rest & -> & Hloop).
      exists ((i, line, c) :: rest). split; [by rewrite <- app_assoc|].
      rewrite Hloop.
      unfold stack_after. simpl. unfold is_open. simpl. rewrite Hopen. done.
    + destruct (chr_eqb c RPAREN) eqn:Hclose; simpl.
      * specialize (IH (i + 1) line (match stack with [] => stack | _ => removelast stack end)
                       (toks0 ++ [(i, line, c)])).
        destruct (loop fuel (paren_token_step doc) _) as [toks| |]; try done.
        destruct IH as (rest & -> & Hloop).
        exists ((i, line, c) :: rest). split; [by rewrite <- app_assoc|].
        rewrite Hloop.
        unfold stack_after. simpl. unfold is_open. simpl. rewrite Hopen. done.
      * apply IH.
Qed.

Lemma unmatched_opens_offsets (toks : list token) (q : nat * Z) :
  q ∈ unmatched_opens toks -> exists t, t ∈ toks /\ t.1 = q.
Proof.
  intros Hin. apply elem_of_unmatched_opens in Hin as (pre & t & post & -> & Hq & _).
  exists t. split; [|done]. apply elem_of_app. right. by left.
Qed.

(** The last of the unmatched opening parentheses is the rightmost. *)
Lemma unmatched_opens_last (toks : list token) :
  StronglySorted by_offset toks ->
  forall q idx ln, last (unmatched_opens toks) = Some (idx, ln) ->
                   q ∈ unmatched_opens toks -> q.1 <= idx.
Proof.
  induction toks as [|t r IH]; intros Hs q idx ln Hlast Hq; simpl in *.
  { by apply not_elem_of_nil in Hq. }
  apply StronglySorted_inv in Hs as [Hs Ht].
  destruct (is_open t && (max_surplus r =? 0)); [|by eapply IH].
  destruct (unmatched_opens r) as [|u us] eqn:Hu.
  - simpl in Hlast. injection Hlast as Hl. apply list_elem_of_singleton in Hq as ->.
    rewrite Hl. simpl. lia.
  - change (last (t.1 :: u :: us)) with (last (u :: us)) in Hlast.
    apply elem_of_cons in Hq as [->|Hq]; [|by eapply IH].
    assert ((idx, ln) ∈ unmatched_opens r) as Hin.
    { rewrite Hu. apply last_Some in Hlast as (l' & ->). apply elem_of_app. right. by left. }
    apply unmatched_opens_offsets in Hin as (t' & Ht' & Hpos).
    rewrite Forall_forall in Ht. specialize (Ht t' Ht'). unfold by_offset in Ht.
    rewrite Hpos in Ht. simpl in Ht. lia.
Qed.

Lemma is_open_false_close (doc : list ascii) (t : token) :
  token_ok doc t -> is_open t = false -> t.2 = RPAREN.
Proof.
  intros (_ & [Hc|Hc] & _) Ho; [|done].
  unfold is_open in Ho. rewrite Hc in Ho. discriminate Ho.
Qed.

Lemma delete_char_apply_delete (idx : nat) (doc : list ascii) :
  delete_char_apply idx doc = Ret (delete idx doc).
Proof.
  unfold delete_char_apply. rewrite delete_take_drop.
  by replace (idx + 1) with (S idx) by lia.
Qed.

(** C7: each of the two detectors reports at most one issue.  With
    [toks] the parentheses of the code in the order of the scan,
    [paren-extra-close] reports the first closing parenthesis that has
    as many closing as opening parentheses before it (so the depth is
    zero when the scan meets it, and it never was below), and nothing
    when there is none; [paren-extra-open] reports the last of the
    opening parentheses that nothing closes, which is the rightmost of
    them, and nothing when there is none.  In both the span is the one
    character and the repair, on the scanned document, deletes that
    character and no other. *)
Theorem paren_extra_determinism (doc : list ascii) :
  returns (paren_tokens doc) (fun toks =>
    Forall (token_ok doc) toks /\ StronglySorted by_offset toks
    /\ returns (extended_unmatched_close_paren doc) (fun issues =>
         length issues <= 1
         /\ match first_unmatched_close 0 toks with
            | Some t =>
                issues = [close_issue t.1.1 t.1.2]
                /\ t.2 = RPAREN /\ doc !! t.1.1 = Some RPAREN
                /\ (exists pre post, toks = pre ++ t :: post
                                     /\ never_surplus 0 pre /\ closes pre = opens pre)
                /\ repairs_to (close_issue t.1.1 t.1.2) doc (delete t.1.1 doc)
            | None => issues = [] /\ never_surplus 0 toks
            end)
    /\ returns (extended_unmatched_open_paren doc) (fun issues =>
         length issues <= 1
         /\ match last (unmatched_opens toks) with
            | Some (idx, ln) =>
                issues = [open_issue idx ln]
                /\ doc !! idx = Some LPAREN
                /\ (exists pre post, toks = pre ++ (idx, ln, LPAREN) :: post
                                     /\ unmatched_open (idx, ln, LPAREN) post)
                /\ (forall pre t post, toks = pre ++ t :: post ->
                                       unmatched_open t post -> t.1.1 <= idx)
                /\ repairs_to (open_issue idx ln) doc (delete idx doc)
            | None =>
                issues = []
                /\ forall pre t post, toks = pre ++ t :: post -> ~ unmatched_open t post
            end)).
Proof.
  pose proof (paren_tokens_ok doc) as Htok.
  apply returns_inv in Htok as (toks & Hret & Hok & Hsorted).
  rewrite Hret. simpl. split; [done|]. split; [done|]. split.
  - pose proof (close_paren_refines doc (S (length doc)) 0 1%Z 0%Z [] ltac:(lia)) as Href.
    unfold paren_tokens in Hret. rewrite Hret in Href.
    destruct Href as (rest & Heq & Hloop). simpl in Heq. subst rest.
    change (Z.to_nat 0) with 0 in Hloop.
    unfold extended_unmatched_close_paren. rewrite Hloop. simpl.
    pose proof (first_unmatched_close_spec toks 0) as Hspec.
    destruct (first_unmatched_close 0 toks) as [t|]; simpl.
    + split; [lia|]. destruct Hspec as (pre & post & Heq & Hclose & Hns & Hc).
      assert (token_ok doc t) as Ht.
      { rewrite Forall_forall in Hok. apply Hok. rewrite Heq.
        apply elem_of_app. right. by left. }
      pose proof (is_open_false_close doc t Ht Hclose) as Hr.
      split; [done|]. split; [done|]. split.
      { destruct Ht as (Hd & _). by rewrite Hr in Hd. }
      split; [by exists pre, post|].
      exists (Delete_char_apply t.1.1). split; [done|]. apply delete_char_apply_delete.
    + split; [lia|done].
  - pose proof (open_paren_refines doc (S (length doc)) 0 1%Z [] []) as Href.
    unfold paren_tokens in Hret. rewrite Hret in Href.
    destruct Href as (rest & Heq & Hloop). simpl in Heq. subst rest.
    unfold extended_unmatched_open_paren. rewrite Hloop. simpl.
    rewrite stack_after_spec. simpl.
    destruct (last (unmatched_opens toks)) as [[idx ln]|] eqn:Hlast; simpl.
    + split; [lia|]. split; [done|].
      assert ((idx, ln) ∈ unmatched_opens toks) as Hin.
      { apply last_Some in Hlast as (l' & ->). apply elem_of_app. right. by left. }
      apply elem_of_unmatched_opens in Hin as (pre & t & post & Heq & Ht & Hu).
      destruct t as [[ti tl] tc]. simpl in Ht. injection Ht as -> ->.
      assert (tc = LPAREN) as ->.
      { destruct Hu as [Ho _]. unfold is_open in Ho. simpl in Ho. by apply chr_eqb_eq. }
      split.
      { rewrite Forall_forall in Hok.
        destruct (Hok (idx, ln, LPAREN)) as (Hd & _); [|done].
        rewrite Heq. apply elem_of_app. right. by left. }
      split; [by exists pre, post|]. split.
      * intros pre' t' post' Heq' Hu'.
        apply (unmatched_opens_last toks Hsorted t'.1 idx ln Hlast).
        apply elem_of_unmatched_opens. by exists pre', t', post'.
      * exists (Delete_char_apply idx). split; [done|]. apply delete_char_apply_delete.
    + split; [lia|]. split; [done|].
      intros pre t post Heq Hu.
      assert (t.1 ∈ unmatched_opens toks) as Hin.
      { apply elem_of_unmatched_opens. by exists pre, t, post. }
      apply last_None in Hlast. rewrite Hlast in Hin. by apply not_elem_of_nil in Hin.
Qed.

(** ** Parentheses inside comments and strings *)

Lemma loop_ext {St R} (step1 step2 : St -> outcome (ctl St R)) (fuel : nat) :
  (forall st, step1 st = step2 st) ->
  forall st, loop fuel step1 st = loop fuel step2 st.
Proof.
  intros Hext. induction fuel as [|fuel IH]; intros st; [done|].
  rewrite !loop_S, Hext. destruct (step2 st) as [[st'|r]| |]; simpl; [apply IH|done..].
Qed.

Lemma plain_tests (c : ascii) :
  plain c = true ->
  chr_eqb c NL = false /\ chr_eqb c SLASH = false /\ chr_eqb c STAR = false
  /\ chr_eqb c BACKSLASH = false /\ chr_eqb c SQUOTE = false /\ chr_eqb c DQUOTE = false.
Proof.
  unfold plain. intros H. apply negb_true_iff in H.
  repeat (apply orb_false_iff in H as [H ?]). done.
Qed.

Lemma paren_plain (c : ascii) : c = LPAREN \/ c = RPAREN -> plain c = true.
Proof. by intros [->| ->]. Qed.

Section Replace.
Variable doc : list ascii.
Variable p : nat.
Variables c c' : ascii.
Hypothesis Hp : doc !! p = Some c.
Hypothesis Hc : plain c = true.
Hypothesis Hc' : plain c' = true.

Let doc' := <[p := c']> doc.

Lemma replace_length : length doc' = length doc.
Proof. apply length_insert. Qed.

(** A character read in the changed document is the one of [doc], or
    the two are the plain characters at [p]. *)
Lemma replace_getitem (j : nat) :
  getitem doc' j = getitem doc j
  \/ (j = p /\ getitem doc' j = Ret c' /\ getitem doc j = Ret c).
Proof.
  unfold getitem, doc'. destruct (decide (j = p)) as [->|Hne].
  - right. rewrite list_lookup_insert_eq by (by eapply lookup_lt_Some). by rewrite Hp.
  - left. by rewrite list_lookup_insert_ne.
Qed.

Lemma replace_skip_line_comment_step (j : nat) :
  skip_line_comment_step doc' j = skip_line_comment_step doc j.
Proof.
  unfold skip_line_comment_step. rewrite replace_length.
  destruct (j <? length doc); [|done]. simpl.
  destruct (replace_getitem j) as [->|(_ & -> & ->)]; [done|].
  simpl. destruct (plain_tests c Hc) as (-> & _), (plain_tests c' Hc') as (-> & _). done.
Qed.

Lemma replace_skip_block_comment_step (st : nat * Z) :
  skip_block_comment_step doc' st = skip_block_comment_step doc st.
Proof.
  destruct st as [j l]. unfold skip_block_comment_step. rewrite replace_length.
  destruct (j + 1 <? length doc); [|done]. simpl.
  destruct (plain_tests c Hc) as (Hn & Hs & Ht & _).
  destruct (plain_tests c' Hc') as (Hn' & Hs' & Ht' & _).
  destruct (replace_getitem j) as [->|(-> & -> & ->)].
  - destruct (getitem doc j) as [x| |]; simpl; [|done..].
    destruct (chr_eqb x STAR); simpl; [|done].
    destruct (replace_getitem (j + 1)) as [->|(_ & -> & ->)]; [done|].
    simpl. by rewrite Hs, Hs'.
  - simpl. by rewrite Ht, Ht', Hn, Hn'.
Qed.

Lemma replace_skip_string_step (quote : ascii) (st : nat * Z) :
  chr_eqb quote SQUOTE || chr_eqb quote DQUOTE = true ->
  skip_string_step doc' quote st = skip_string_step doc quote st.
Proof.
  intros Hq. destruct st as [j l]. unfold skip_string_step. rewrite replace_length.
  destruct (j <? length doc); [|done].
  destruct (plain_tests c Hc) as (Hn & _ & _ & Hb & Hsq & Hdq).
  destruct (plain_tests c' Hc') as (Hn' & _ & _ & Hb' & Hsq' & Hdq').
  destruct (replace_getitem j) as [->|(_ & -> & ->)]; [done|].
  simpl. rewrite Hb, Hb', Hn, Hn'.
  apply orb_true_iff in Hq as [Hq|Hq]; apply chr_eqb_eq in Hq as ->.
  - by rewrite Hsq, Hsq'.
  - by rewrite Hdq, Hdq'.
Qed.

(** Away from [p] the skipper sees the same in both documents. *)
Lemma replace_lex_at (i : nat) (line : Z) :
  i <> p -> lex_at doc' i line = lex_at doc i line.
Proof.
  intros Hne. unfold lex_at.
  destruct (plain_tests c Hc) as (Hn & Hs & Ht & _).
  destruct (plain_tests c' Hc') as (Hn' & Hs' & Ht' & _).
  destruct (replace_getitem i) as [->|(-> & _)]; [|done].
  destruct (getitem doc i) as [x| |]; simpl; [|done..].
  destruct (chr_eqb x NL); [done|].
  assert (skip_string doc' i x line = skip_string doc i x line
          \/ chr_eqb x SQUOTE || chr_eqb x DQUOTE = false) as Hstr.
  { destruct (chr_eqb x SQUOTE || chr_eqb x DQUOTE) eqn:Hq; [left|by right].
    unfold skip_string. rewrite replace_length. apply loop_ext.
    intros st. by apply replace_skip_string_step. }
  assert (skip_line_comment doc' (i + 2) = skip_line_comment doc (i + 2)) as Hline.
  { unfold skip_line_comment. rewrite replace_length. apply loop_ext.
    apply replace_skip_line_comment_step. }
  assert (skip_block_comment doc' i line = skip_block_comment doc i line) as Hblock.
  { unfold skip_block_comment. rewrite replace_length.
    rewrite (loop_ext _ _ _ replace_skip_block_comment_step). done. }
  rewrite replace_length, Hline, Hblock.
  destruct (chr_eqb x SLASH); simpl.
  - destruct (i + 1 <? length doc); simpl.
    + destruct (replace_getitem (i + 1)) as [->|(_ & -> & ->)].
      * destruct (getitem doc (i + 1)) as [y| |]; simpl; [|done..].
        destruct (chr_eqb y SLASH); simpl; [done|].
        destruct (chr_eqb y STAR); simpl; [done|].
        destruct Hstr as [->| ->]; done.
      * simpl. rewrite Hs, Hs', Ht, Ht'. simpl. destruct Hstr as [->| ->]; done.
    + destruct Hstr as [->| ->]; done.
  - destruct Hstr as [->| ->]; done.
Qed.
End Replace.

Lemma advance_further (doc : list ascii) (i : nat) (line : Z) (lx : lexeme) :
  i < length doc -> lex_at doc i line = Ret lx -> i < (advance i line lx).1.
Proof.
  intros Hi Hlx. pose proof (lex_at_returns doc i line Hi) as Hok.
  rewrite Hlx in Hok. simpl in Hok. destruct lx; simpl in *; lia.
Qed.

Lemma reaches_le (doc : list ascii) (i : nat) (line : Z) (s : nat) (sline : Z) :
  reaches doc i line s sline -> i <= s.
Proof.
  induction 1 as [|i line lx s sline Hi Hlx _ IH]; [done|].
  pose proof (advance_further doc i line lx Hi Hlx). lia.
Qed.

Lemma clear_of_ne (doc : list ascii) (p i : nat) (line : Z) :
  clear_of doc p i line -> i <> p.
Proof.
  intros [Hlt|(s & sline & e & eline & Hr & _ & Hs)]; [lia|].
  apply reaches_le in Hr. lia.
Qed.

Lemma clear_of_step (doc : list ascii) (p i : nat) (line : Z) (lx : lexeme) :
  clear_of doc p i line -> i < length doc -> lex_at doc i line = Ret lx ->
  clear_of doc p (advance i line lx).1 (advance i line lx).2.
Proof.
  intros Hclear Hi Hlx. pose proof (advance_further doc i line lx Hi Hlx) as Hadv.
  destruct Hclear as [Hlt|(s & sline & e & eline & Hr & Hskip & Hs)]; [left; lia|].
  inversion Hr as [|? ? lx0 ? ? _ Hlx0 Hr']; subst.
  - rewrite Hskip in Hlx. injection Hlx as <-. left. simpl. lia.
  - rewrite Hlx0 in Hlx. injection Hlx as ->. right. by exists s, sline, e, eline.
Qed.

Section Immune.
Variable doc : list ascii.
Variable p : nat.
Variables c c' : ascii.
Hypothesis Hp : doc !! p = Some c.
Hypothesis Hc : plain c = true.
Hypothesis Hc' : plain c' = true.

Ltac walk IH Hclear Hlt Hlx :=
  repeat match goal with
         | |- context [if ?b then _ else _] =>
             match type of b with bool => destruct b end
         end;
  simpl; try done;
  apply IH; exact (clear_of_step _ _ _ _ _ Hclear Hlt Hlx).

Lemma replace_close_paren_loop (fuel : nat) :
  forall i depth line,
    clear_of doc p i line ->
    loop fuel (close_paren_step (<[p := c']> doc)) (i, depth, line)
    = loop fuel (close_paren_step doc) (i, depth, line).
Proof.
  induction fuel as [|fuel IH]; intros i depth line Hclear; [done|].
  rewrite !loop_S, !close_paren_step_eq, length_insert.
  destruct (i <? length doc) eqn:Hlt; [|done]. apply Nat.ltb_lt in Hlt.
  rewrite (replace_lex_at doc p c c' Hp Hc Hc') by (by eapply clear_of_ne).
  destruct (lex_at doc i line) as [lx| |] eqn:Hlx; [|done..].
  destruct lx as [|i' line'|x]; simpl.
  - apply IH. exact (clear_of_step _ _ _ _ _ Hclear Hlt Hlx).
  - apply IH. exact (clear_of_step _ _ _ _ _ Hclear Hlt Hlx).
  - walk IH Hclear Hlt Hlx.
Qed.

Lemma replace_open_paren_loop (fuel : nat) :
  forall i line stack,
    clear_of doc p i line ->
    loop fuel (open_paren_step (<[p := c']> doc)) (i, line, stack)
    = loop fuel (open_paren_step doc) (i, line, stack).
Proof.
  induction fuel as [|fuel IH]; intros i line stack Hclear; [done|].
  rewrite !loop_S, !open_paren_step_eq, length_insert.
  destruct (i <? length doc) eqn:Hlt; [|done]. apply Nat.ltb_lt in Hlt.
  rewrite (replace_lex_at doc p c c' Hp Hc Hc') by (by eapply clear_of_ne).
  destruct (lex_at doc i line) as [lx| |] eqn:Hlx; [|done..].
  destruct lx as [|i' line'|x]; simpl.
  - apply IH. exact (clear_of_step _ _ _ _ _ Hclear Hlt Hlx).
  - apply IH. exact (clear_of_step _ _ _ _ _ Hclear Hlt Hlx).
  - walk IH Hclear Hlt Hlx.
Qed.

Lemma replace_paren_token_loop (fuel : nat) :
  forall i line toks,
    clear_of doc p i line ->
    loop fuel (paren_token_step (<[p := c']> doc)) (i, line, toks)
    = loop fuel (paren_token_step doc) (i, line, toks).
Proof.
  induction fuel as [|fuel IH]; intros i line toks Hclear; [done|].
  rewrite !loop_S, !paren_token_step_eq, length_insert.
  destruct (i <? length doc) eqn:Hlt; [|done]. apply Nat.ltb_lt in Hlt.
  rewrite (replace_lex_at doc p c c' Hp Hc Hc') by (by eapply clear_of_ne).
  destruct (lex_at doc i line) as [lx| |] eqn:Hlx; [|done..].
  destruct lx as [|i' line'|x]; simpl.
  - apply IH. exact (clear_of_step _ _ _ _ _ Hclear Hlt Hlx).
  - apply IH. exact (clear_of_step _ _ _ _ _ Hclear Hlt Hlx).
  - apply IH. exact (clear_of_step _ _ _ _ _ Hclear Hlt Hlx).
Qed.
End Immune.



(** ** The patterns on sample lines *)

Example var_decl_samples :
  map (fun s => is_match (re_match RE_I re_var_decl (str s)))
      ["var(a//b) int x"; "var(a;//b) int x"; "var int Count"; "var int Count;";
       "Health=100"; "x = 1 // c"; "var int x // c"; "var() int A[4]";
       "VAR  config Int b=3"]%string
  = [true; true; true; false; false; false; false; true; true].
Proof. vm_compute. reflexivity. Qed.

Example assign_samples :
  map (fun s => is_match (re_match NOFLAGS re_assign (str s)))
      ["var(a//b) int x"; "var int Count"; "Health=100"; "x = 1 // c"; "x = 1;"; "9x = 1"]%string
  = [false; false; true; true; false; false].
Proof. vm_compute. reflexivity. Qed.

Example top_level_samples :
  map (fun s => match_view s (re_search RE_IM top_level_tokens s))
      [ln "  x" ++ ln "" ++ str "  Class A"; ln "xclass" ++ ln "varx" ++ str " var"; ln "a"]
  = [Some (4, 12, "Class"%string); Some (12, 16, "var"%string); None].
Proof. vm_compute. reflexivity. Qed.

Example struct_enum_samples :
  map (fun m => (m_start m, m_end m))
      (re_finditer RE_IM re_struct_enum
         (ln "" ++ ln "" ++ ln "Struct A { int x {" ++ str " enum B {"))
  = [(0, 20); (21, 30)].
Proof. vm_compute. reflexivity. Qed.

Example trailing_comment_samples :
  re_split1 NOFLAGS re_trailing_comment (ln "var(a//b) int x")
  = [str "var(a"; str "//b) int x"; [NL]]
  /\ re_split1 NOFLAGS re_trailing_comment (ln "x = 1") = [ln "x = 1"].
Proof. vm_compute. split; reflexivity. Qed.

Example splitlines_samples :
  splitlines (str "a" ++ [CR; NL] ++ str "b" ++ [CR] ++ str "c" ++ [NL; NL] ++ str "d")
  = [str "a" ++ [CR; NL]; str "b" ++ [CR]; str "c" ++ [NL]; [NL]; str "d"].
Proof. vm_compute. reflexivity. Qed.

(** ** The scenarios of the specification *)

Example semicolon_scenario :
  exists it, scan_doc_for_issues doc_semicolon false = Ret [it]
             /\ kind it = "semicolon-missing" /\ line it = 1%Z
             /\ repairs_to it doc_semicolon doc_semicolon_fixed.
Proof.
  eexists. split; [vm_compute; reflexivity|]. split; [reflexivity|]. split; [reflexivity|].
  eexists. split; [reflexivity|]. vm_compute. reflexivity.
Qed.

Example control_paren_scenario :
  exists it, extended_control_paren_balance doc_control = Ret [it]
             /\ kind it = "paren-control-close" /\ line it = 1%Z
             /\ repairs_to it doc_control doc_control_fixed.
Proof.
  eexists. split; [vm_compute; reflexivity|]. split; [reflexivity|]. split; [reflexivity|].
  eexists. split; [reflexivity|]. vm_compute. reflexivity.
Qed.

Example extra_close_scenario :
  exists it, extended_unmatched_close_paren doc_extra_close = Ret [it]
             /\ kind it = "paren-extra-close" /\ span it = (10, 11)%Z
             /\ repairs_to it doc_extra_close doc_extra_close_fixed.
Proof.
  eexists. split; [vm_compute; reflexivity|]. split; [reflexivity|]. split; [reflexivity|].
  eexists. split; [reflexivity|]. vm_compute. reflexivity.
Qed.

(** A repair that leaves its defect: the semicolon goes before the two
    slashes, which here stand inside the parentheses of the
    declaration, and the scan reports the line again. *)
Example semicolon_repair_inside_parentheses :
  exists it it',
    check_semicolons_strict doc_semicolon_slashes = Ret [it]
    /\ repairs_to it doc_semicolon_slashes doc_semicolon_slashes_fixed
    /\ check_semicolons_strict doc_semicolon_slashes_fixed = Ret [it']
    /\ kind it' = kind it /\ line it' = line it.
Proof.
  do 2 eexists. split; [vm_compute; reflexivity|]. split.
  - eexists. split; [reflexivity|]. vm_compute. reflexivity.
  - split; [vm_compute; reflexivity|]. split; reflexivity.
Qed.

(** ** The shape of the lines *)

Lemma islinebreak_CR : islinebreak CR = true.
Proof. done. Qed.

Lemma not_break_not_CR (c : ascii) : islinebreak c = false -> chr_eqb c CR = false.
Proof.
  intros Hc. destruct (chr_eqb c CR) eqn:H; [|done].
  apply chr_eqb_eq in H as ->. done.
Qed.

Lemma splitlines_from_body (body rest : list ascii) :
  no_break body ->
  forall cur, splitlines_from cur (body ++ rest) = splitlines_from (cur ++ body) rest.
Proof.
  induction 1 as [|c body Hc _ IH]; intros cur; simpl app.
  - by rewrite app_nil_r.
  - rewrite splitlines_from_cons, (not_break_not_CR c Hc), Hc, IH.
    by rewrite <- app_assoc.
Qed.

Lemma splitlines_from_term (cur term rest : list ascii) :
  is_term term ->
  (term = [CR] -> head rest <> Some NL) ->
  splitlines_from cur (term ++ rest) = (cur ++ term) :: splitlines rest.
Proof.
  intros [->|(x & -> & Hx)] Hadj.
  - done.
  - simpl app. rewrite splitlines_from_cons.
    destruct (chr_eqb x CR) eqn:Hcr.
    + apply chr_eqb_eq in Hcr as ->. specialize (Hadj eq_refl).
      destruct rest as [|c' r']; [done|].
      destruct (chr_eqb c' NL) eqn:Hnl; [|done].
      apply chr_eqb_eq in Hnl as ->. done.
    + by rewrite Hx.
Qed.

Lemma well_split_head_nonempty (l : list ascii) (ls : list (list ascii)) :
  well_split (l :: ls) -> l <> [].
Proof.
  inversion 1 as [|body Hne Hnb|body term ls' Hnb Ht Hadj Hws]; subst; [done|].
  destruct Ht as [->|(x & -> & _)]; by destruct body.
Qed.

Lemma head_join (l : list ascii) (ls : list (list ascii)) :
  l <> [] -> head (join (l :: ls)) = head l.
Proof. destruct l; [done|]. done. Qed.

(** A list of lines of that shape is what [splitlines] makes of its
    concatenation. *)
Lemma splitlines_join (ls : list (list ascii)) :
  well_split ls -> splitlines (join ls) = ls.
Proof.
  induction 1 as [|body Hne Hnb|body term ls Hnb Ht Hadj Hws IH].
  - done.
  - unfold splitlines, join. simpl. rewrite app_nil_r.
    rewrite <- (app_nil_r body) at 1. rewrite splitlines_from_body by done.
    simpl. by destruct body.
  - change (join ((body ++ term) :: ls)) with ((body ++ term) ++ join ls).
    unfold splitlines at 1. rewrite <- app_assoc.
    rewrite splitlines_from_body by done. simpl.
    rewrite splitlines_from_term; [by rewrite IH|done|].
    intros ->. destruct ls as [|l ls']; [done|].
    rewrite head_join by (by eapply well_split_head_nonempty).
    by eapply Hadj.
Qed.

Lemma splitlines_from_head (s : list ascii) :
  forall cur l ls, splitlines_from cur s = l :: ls -> head l = head (cur ++ s).
Proof.
  remember (length s) as n eqn:Hn.
  assert (length s <= n) as Hle by lia. clear Hn. revert s Hle.
  induction n as [|n IH]; intros s Hle cur l ls.
  { destruct s; [|simpl in Hle; lia]. simpl. destruct cur; [done|].
    intros [= <- <-]. by rewrite app_nil_r. }
  destruct s as [|c r].
  { simpl. destruct cur; [done|]. intros [= <- <-]. by rewrite app_nil_r. }
  rewrite splitlines_from_cons. simpl in Hle.
  assert (forall t, head ((cur ++ t) : list ascii) = head (cur ++ c :: r) \/ cur = []) as Hcur.
  { intros t. destruct cur; [by right|by left]. }
  destruct (chr_eqb c CR).
  - destruct r as [|c' r'].
    + intros [= <- <-]. by destruct cur.
    + destruct (chr_eqb c' NL); intros [= <- <-]; by destruct cur.
  - destruct (islinebreak c).
    + intros [= <- <-]. by destruct cur.
    + intros Hs. apply IH in Hs; [|lia]. by rewrite <- app_assoc in Hs.
Qed.

Lemma well_split_splitlines_from (s : list ascii) :
  forall cur, no_break cur -> well_split (splitlines_from cur s).
Proof.
  remember (length s) as n eqn:Hn.
  assert (length s <= n) as Hle by lia. clear Hn. revert s Hle.
  induction n as [|n IH]; intros s Hle cur Hcur.
  { destruct s; [|simpl in Hle; lia]. simpl.
    destruct cur as [|c cur]; [constructor|]. by apply ws_last. }
  destruct s as [|c r].
  { simpl. destruct cur as [|c cur]; [constructor|]. by apply ws_last. }
  rewrite splitlines_from_cons. simpl in Hle.
  destruct (chr_eqb c CR) eqn:Hcr.
  - apply chr_eqb_eq in Hcr as ->. destruct r as [|c' r'].
    + apply (ws_cons cur [CR] []); [done| |done|constructor].
      right. by exists CR.
    + destruct (chr_eqb c' NL) eqn:Hnl.
      * apply chr_eqb_eq in Hnl as ->.
        apply (ws_cons cur [CR; NL]); [done|by left|done|].
        apply IH; [simpl in Hle; lia|constructor].
      * apply (ws_cons cur [CR]); [done|right; by exists CR| |].
        -- intros _ l ls' Hs. apply splitlines_from_head in Hs. rewrite Hs. simpl.
           intros [= ->]. done.
        -- apply IH; [lia|constructor].
  - destruct (islinebreak c) eqn:Hb.
    + apply (ws_cons cur [c]); [done|right; by exists c| |].
      * intros [= ->]. done.
      * apply IH; [lia|constructor].
    + apply IH; [lia|]. apply Forall_app. split; [done|]. by constructor.
Qed.

Lemma well_split_splitlines (doc : list ascii) : well_split (splitlines doc).
Proof. apply well_split_splitlines_from. constructor. Qed.

(** ** Editing one line of a document *)

Lemma well_split_app_r (pre post : list (list ascii)) :
  well_split (pre ++ post) -> well_split post.
Proof.
  induction pre as [|a pre IH]; simpl; [done|].
  inversion 1 as [|body Hne Hnb Heq|body term ls Hnb Ht Hadj Hws Heq]; subst.
  - destruct pre; [|done]. simpl in *. subst. constructor.
  - by apply IH.
Qed.

(** The line in the middle: it ends in a line boundary, or it is the
    last line and ends without. *)
Lemma well_split_mid (pre : list (list ascii)) (l : list ascii) (post : list (list ascii)) :
  well_split (pre ++ l :: post) ->
  exists body term, l = body ++ term /\ no_break body /\ well_split post
    /\ ((is_term term /\ adj_ok term post) \/ (term = [] /\ post = [] /\ body <> [])).
Proof.
  intros H. apply well_split_app_r in H.
  inversion H as [|body Hne Hnb Heq|body term ls Hnb Ht Hadj Hws Heq]; subst.
  - exists l, []. rewrite app_nil_r. repeat split; [done|constructor|]. by right.
  - exists body, term. repeat split; [done|done|]. by left.
Qed.

Lemma well_split_splice (pre : list (list ascii)) (l l' : list ascii)
    (post post' : list (list ascii)) :
  well_split (pre ++ l :: post) -> well_split (l' :: post') ->
  (head l' = Some NL -> head l = Some NL) ->
  well_split (pre ++ l' :: post').
Proof.
  intros H Hw Hh. induction pre as [|a pre IH]; simpl in *; [done|].
  inversion H as [|body Hne Hnb Heq|body term ls Hnb Ht Hadj Hws Heq]; subst.
  - by destruct pre.
  - constructor; [done|done| |by apply IH].
    intros Hcr l0 ls' Heq. destruct pre as [|b pre]; simpl in *.
    + injection Heq as <- <-. intros Hnl. by eapply Hadj; [| |apply Hh].
    + injection Heq as <- <-. by eapply Hadj.
Qed.

Lemma no_break_head (body rest : list ascii) :
  no_break body -> body <> [] -> head (body ++ rest) <> Some NL.
Proof.
  intros Hnb Hne. destruct body as [|c body]; [done|].
  apply Forall_inv in Hnb. simpl. intros [= ->]. done.
Qed.

(** The lines of a document in which the line [l] gives way to the text
    [body ++ term], where [term] is a line feed, which a line boundary
    may precede: the line at the place of [l] starts with [body] and
    goes on with line boundaries. *)
Lemma splice_line (pre : list (list ascii)) (l : list ascii) (post : list (list ascii))
    (body term : list ascii) :
  well_split (pre ++ l :: post) ->
  no_break body -> body <> [] ->
  (term = [NL] \/ exists x, term = [x; NL] /\ islinebreak x = true) ->
  exists t rest,
    splitlines (join (pre ++ (body ++ term) :: post)) = pre ++ (body ++ t) :: rest
    /\ is_term t.
Proof.
  intros Hws Hnb Hne Hterm.
  destruct (well_split_mid _ _ _ Hws) as (_ & _ & _ & _ & Hpost & _).
  assert (forall t, is_term t -> t <> [CR] ->
            forall rest, well_split rest -> well_split (pre ++ (body ++ t) :: rest)) as Hsp.
  { intros t Ht Hcr rest Hrest. eapply well_split_splice; [exact Hws| |by intros ?%no_break_head].
    constructor; [done|done| |done]. by intros ->. }
  destruct Hterm as [->|(x & -> & Hx)].
  - exists [NL], post. split; [|right; by exists NL].
    apply splitlines_join, Hsp; [right; by exists NL|done|done].
  - destruct (chr_eqb x CR) eqn:Hcr.
    + apply chr_eqb_eq in Hcr as ->. exists [CR; NL], post. split; [|by left].
      apply splitlines_join, Hsp; [by left|done|done].
    + exists [x], ([NL] :: post). split; [|right; by exists x].
      replace (join (pre ++ (body ++ [x; NL]) :: post))
        with (join (pre ++ (body ++ [x]) :: [NL] :: post)).
      * apply splitlines_join, Hsp; [right; by exists x| |].
        -- intros [= ->]. done.
        -- apply (ws_cons [] [NL]); [constructor|right; by exists NL|by intros [=]|done].
      * unfold join. rewrite !concat_app. simpl. by rewrite <- !app_assoc.
Qed.

(** ** White space at the end of a line *)

Lemma islinebreak_isspace (c : ascii) : islinebreak c = true -> isspace c = true.
Proof.
  unfold islinebreak, isspace, in_range. intros H.
  repeat match goal with
         | H : _ || _ = true |- _ => apply orb_true_iff in H as [H|H]
         | H : _ && _ = true |- _ => apply andb_true_iff in H as [? ?]
         | H : (_ <=? _) = true |- _ => apply Nat.leb_le in H
         | H : (_ =? _) = true |- _ => apply Nat.eqb_eq in H
         end;
  repeat match goal with
         | |- _ || _ = true => apply orb_true_iff
         end.
  all: repeat rewrite orb_true_iff; repeat rewrite andb_true_iff;
       rewrite ?Nat.leb_le, ?Nat.eqb_eq; lia.
Qed.

Lemma is_term_space (t : list ascii) :
  is_term t -> Forall (fun c => isspace c = true) t.
Proof.
  intros [->|(x & -> & Hx)].
  - repeat constructor.
  - constructor; [by apply islinebreak_isspace|constructor].
Qed.

Lemma rstrip_by_all (p : ascii -> bool) (t : list ascii) :
  Forall (fun c => p c = true) t -> rstrip_by p t = [].
Proof.
  induction 1 as [|c t Hc _ IH]; [done|].
  unfold rstrip_by in *. simpl. by rewrite IH, Hc.
Qed.

Lemma rstrip_by_cons (p : ascii -> bool) (c : ascii) (s : list ascii) :
  rstrip_by p (c :: s)
  = match rstrip_by p s with
    | [] => if p c then [] else [c]
    | _ => c :: rstrip_by p s
    end.
Proof. unfold rstrip_by. simpl. by destruct (foldr _ _ s). Qed.

Lemma rstrip_by_app (p : ascii -> bool) (s t : list ascii) :
  rstrip_by p (s ++ t)
  = match rstrip_by p t with
    | [] => rstrip_by p s
    | _ => s ++ rstrip_by p t
    end.
Proof.
  induction s as [|c s IH]; simpl app.
  - by destruct (rstrip_by p t).
  - rewrite !rstrip_by_cons, IH. destruct (rstrip_by p t) eqn:Ht; [done|].
    by destruct s.
Qed.

Lemma rstrip_by_app_all (p : ascii -> bool) (s t : list ascii) :
  Forall (fun c => p c = true) t -> rstrip_by p (s ++ t) = rstrip_by p s.
Proof. intros Ht. by rewrite rstrip_by_app, rstrip_by_all. Qed.

Lemma rstrip_by_snoc (p : ascii -> bool) (s : list ascii) (c : ascii) :
  p c = false -> rstrip_by p (s ++ [c]) = s ++ [c].
Proof. intros Hc. rewrite rstrip_by_app. unfold rstrip_by at 1. simpl. by rewrite Hc. Qed.

(** What [rstrip] drops is white space. *)
Lemma rstrip_by_split (p : ascii -> bool) (s : list ascii) :
  exists r, s = rstrip_by p s ++ r /\ Forall (fun c => p c = true) r.
Proof.
  induction s as [|c s (r & Hs & Hr)]; [by exists []|].
  rewrite rstrip_by_cons. destruct (rstrip_by p s) as [|x xs] eqn:Hx.
  - simpl in Hs. subst r. destruct (p c) eqn:Hc.
    + exists (c :: s). split; [done|by constructor].
    + by exists s.
  - exists r. split; [|done]. simpl. by rewrite Hs at 1.
Qed.

Lemma rstrip_by_none (p : ascii -> bool) (s : list ascii) :
  Forall (fun c => p c = false) s -> rstrip_by p s = s.
Proof.
  induction 1 as [|c s Hc _ IH]; [done|].
  rewrite rstrip_by_cons, IH, Hc. by destruct s.
Qed.

Lemma no_break_app (s t : list ascii) : no_break (s ++ t) <-> no_break s /\ no_break t.
Proof. apply Forall_app. Qed.

Lemma no_break_rstrip (s : list ascii) : no_break s -> no_break (rstrip s).
Proof.
  intros Hs. destruct (rstrip_by_split isspace s) as (r & Heq & _).
  rewrite Heq in Hs. by apply no_break_app in Hs as [? _].
Qed.

Lemma no_break_take (k : nat) (s : list ascii) : no_break s -> no_break (take k s).
Proof. apply Forall_take. Qed.

Lemma no_break_drop (k : nat) (s : list ascii) : no_break s -> no_break (drop k s).
Proof. apply Forall_drop. Qed.

(** ** Counting a character that is no white space *)

Lemma count_none (c : ascii) (s : list ascii) :
  Forall (fun x => chr_eqb x c = false) s -> count c s = 0.
Proof.
  induction 1 as [|x s Hx _ IH]; [done|]. by rewrite count_cons, Hx, IH.
Qed.

Lemma count_space (c : ascii) (s : list ascii) :
  isspace c = false -> Forall (fun x => isspace x = true) s -> count c s = 0.
Proof.
  intros Hc Hs. apply count_none. eapply Forall_impl; [exact Hs|].
  intros x Hx. simpl in Hx. destruct (chr_eqb x c) eqn:Hxc; [|done].
  apply chr_eqb_eq in Hxc as ->. congruence.
Qed.

Lemma count_rstrip (c : ascii) (s : list ascii) :
  isspace c = false -> count c (rstrip s) = count c s.
Proof.
  intros Hc. destruct (rstrip_by_split isspace s) as (r & Heq & Hr).
  rewrite Heq at 2. rewrite count_app, (count_space c r) by done. unfold rstrip. lia.
Qed.

Lemma count_take_drop (c : ascii) (k : nat) (s : list ascii) :
  count c (take k s) + count c (drop k s) = count c s.
Proof. by rewrite <- count_app, take_drop. Qed.

(** ** The last character of a stripped line *)

Lemma endswith_last (s : list ascii) (c : ascii) :
  endswith s [c] = match last s with Some x => chr_eqb x c | None => false end.
Proof.
  unfold endswith. destruct s as [|a s] using rev_ind; [done|].
  rewrite rev_app_distr, last_snoc. simpl. destruct (rev s); simpl; apply andb_true_r.
Qed.

Lemma last_lstrip_by (p : ascii -> bool) (s : list ascii) (c : ascii) :
  p c = false ->
  match last (lstrip_by p s) with Some x => chr_eqb x c | None => false end
  = match last s with Some x => chr_eqb x c | None => false end.
Proof.
  intros Hc. induction s as [|a s IH]; [done|]. simpl lstrip_by.
  destruct (p a) eqn:Ha; [|done]. rewrite IH.
  destruct s as [|b s]; [|done]. simpl.
  destruct (chr_eqb a c) eqn:Hac; [|done]. apply chr_eqb_eq in Hac as ->. congruence.
Qed.

Lemma endswith_lstrip (s : list ascii) (c : ascii) :
  isspace c = false -> endswith (lstrip_by isspace s) [c] = endswith s [c].
Proof. intros Hc. rewrite !endswith_last. by apply last_lstrip_by. Qed.

Lemma endswith_strip (s : list ascii) (c : ascii) :
  isspace c = false -> endswith (strip s) [c] = endswith (rstrip s) [c].
Proof. intros Hc. unfold strip. by apply endswith_lstrip. Qed.

Lemma endswith_snoc (s : list ascii) (c : ascii) : endswith (s ++ [c]) [c] = true.
Proof. rewrite endswith_last, last_snoc. apply Ascii.eqb_refl. Qed.

(** ** Where the two slashes of a comment are found *)

Lemma re_search_slashes (s : list ascii) (m : rmatch) :
  re_search NOFLAGS re_slashes s = Some m ->
  s !! m_start m = Some SLASH /\ s !! S (m_start m) = Some SLASH.
Proof.
  unfold re_search. intros Hr. apply re_search_from_Some in Hr as (_ & Hat & _).
  unfold re_match_at in Hat.
  change re_slashes with (RSeq (RChar SLASH) (RChar SLASH)) in Hat. simpl in Hat.
  destruct (s !! m_start m) as [c|] eqn:Hc; [|done].
  unfold lit_match in Hat. simpl in Hat.
  destruct (chr_eqb c SLASH) eqn:Hcs; [|done]. apply chr_eqb_eq in Hcs as ->.
  destruct (s !! S (m_start m)) as [c|] eqn:Hc'; [|done].
  destruct (chr_eqb c SLASH) eqn:Hcs; [|done]. by apply chr_eqb_eq in Hcs as ->.
Qed.

Lemma re_search_trailing_comment (s : list ascii) (m : rmatch) :
  re_search NOFLAGS re_trailing_comment s = Some m -> has_slashes s.
Proof.
  unfold re_search. intros Hr. apply re_search_from_Some in Hr as (_ & Hat & _).
  unfold re_match_at in Hat.
  change re_trailing_comment
    with (RSeq (RGroup 1 (RSeq (RSeq (RChar SLASH) (RChar SLASH)) (RStar r_dot))) REol) in Hat.
  exists (m_start m).
  destruct (re_run _ _ _ _ _) eqn:Hrun in Hat; [|done]. clear Hat.
  simpl in Hrun.
  destruct (s !! m_start m) as [c|] eqn:Hc; [|done].
  unfold lit_match in Hrun. simpl in Hrun.
  destruct (chr_eqb c SLASH) eqn:Hcs; [|done]. apply chr_eqb_eq in Hcs as ->.
  destruct (s !! S (m_start m)) as [c|] eqn:Hc'; [|done].
  destruct (chr_eqb c SLASH) eqn:Hcs; [|done]. by apply chr_eqb_eq in Hcs as ->.
Qed.

Lemma no_slashes_no_comment (l : list ascii) :
  ~ has_slashes l -> re_search NOFLAGS re_trailing_comment l = None.
Proof.
  intros Hno. destruct (re_search _ _ _) as [m|] eqn:Hm; [|done].
  by apply re_search_trailing_comment in Hm.
Qed.

(** ** The line that a repair writes *)

Lemma rstrip_nl_line (body term : list ascii) :
  no_break body -> is_term term \/ term = [] ->
  exists term', rstrip_nl (body ++ term) = body ++ term'
    /\ Forall (fun c => isspace c = true) term'
    /\ (term' ++ [NL] = [NL] \/ exists x, term' ++ [NL] = [x; NL] /\ islinebreak x = true).
Proof.
  intros Hnb Ht. unfold rstrip_nl. rewrite rstrip_by_app.
  assert (rstrip_by (fun c => chr_eqb c NL) body = body) as Hbody.
  { apply rstrip_by_none. eapply Forall_impl; [exact Hnb|]. intros c Hc. simpl in Hc.
    destruct (chr_eqb c NL) eqn:Hn; [|done]. apply chr_eqb_eq in Hn as ->. done. }
  destruct Ht as [[->|(x & -> & Hx)]| ->].
  - exists [CR]. split; [done|]. split; [by repeat constructor|]. right. by exists CR.
  - assert (rstrip_by (fun c => chr_eqb c NL) [x] = if chr_eqb x NL then [] else [x]) as ->
      by done.
    destruct (chr_eqb x NL) eqn:Hn.
    + exists []. rewrite Hbody, app_nil_r. split; [done|]. split; [constructor|by left].
    + exists [x]. split; [done|]. split.
      * constructor; [by apply islinebreak_isspace|constructor].
      * right. by exists x.
  - exists []. simpl. rewrite Hbody, app_nil_r. split; [done|]. split; [constructor|by left].
Qed.

Lemma line_count (c : ascii) (body term : list ascii) :
  isspace c = false -> is_term term \/ term = [] ->
  count c (body ++ term) = count c body.
Proof.
  intros Hc Ht. rewrite count_app, (count_space c term); [lia|done|].
  destruct Ht as [Ht| ->]; [by apply is_term_space|constructor].
Qed.

(** The line that the repair of [paren-control-close] writes. *)
Lemma control_paren_line (body term : list ascii) :
  no_break body -> is_term term \/ term = [] ->
  let l := body ++ term in
  let s := rstrip_nl l in
  let s' := match re_search NOFLAGS re_slashes s with
            | Some m => rstrip (take (m_start m) s) ++ [RPAREN] ++ [" "%char]
                          ++ drop (m_start m) s
            | None => rstrip s ++ [RPAREN]
            end in
  exists B T, s' ++ [NL] = B ++ T /\ no_break B /\ B <> []
    /\ (T = [NL] \/ exists x, T = [x; NL] /\ islinebreak x = true)
    /\ count LPAREN B = count LPAREN l /\ count RPAREN B = S (count RPAREN l).
Proof.
  intros Hnb Ht l s s'. subst l s s'.
  destruct (rstrip_nl_line body term Hnb Ht) as (term' & -> & Hsp & HT).
  rewrite !(line_count _ body term) by done.
  destruct (re_search NOFLAGS re_slashes (body ++ term')) as [m|] eqn:Hm.
  - apply re_search_slashes in Hm as [Hat _].
    assert (m_start m < length body) as Hlt.
    { destruct (decide (m_start m < length body)) as [|Hge]; [done|exfalso].
      rewrite lookup_app_r in Hat by lia.
      apply list_elem_of_lookup_2 in Hat. rewrite Forall_forall in Hsp.
      specialize (Hsp _ Hat). by vm_compute in Hsp. }
    rewrite take_app_le, drop_app_le by lia.
    exists (rstrip (take (m_start m) body) ++ [RPAREN; " "%char] ++ drop (m_start m) body),
      (term' ++ [NL]).
    split; [by rewrite <- !app_assoc|]. split.
    { apply no_break_app. split; [by apply no_break_rstrip, no_break_take|].
      apply no_break_app. split; [by repeat constructor|by apply no_break_drop]. }
    split; [by destruct (rstrip (take (m_start m) body))|]. split; [done|].
    rewrite !count_app, !count_rstrip, !count_cons, !count_nil by done. simpl.
    pose proof (count_take_drop LPAREN (m_start m) body).
    pose proof (count_take_drop RPAREN (m_start m) body). lia.
  - unfold rstrip. rewrite rstrip_by_app_all by done.
    exists (rstrip body ++ [RPAREN]), [NL]. split; [done|]. split.
    { apply no_break_app. split; [by apply no_break_rstrip|by repeat constructor]. }
    split; [by destruct (rstrip body)|]. split; [by left|].
    rewrite !count_app, !count_rstrip, !count_cons, !count_nil by done. simpl. lia.
Qed.

(** The line that the repair of [semicolon-missing] writes when the
    line has no comment. *)
Lemma semicolon_line (body term : list ascii) :
  no_break body -> is_term term \/ term = [] ->
  exists B, rstrip (rstrip_nl (body ++ term)) ++ [SEMI; NL] = (B ++ [SEMI]) ++ [NL]
    /\ no_break (B ++ [SEMI]).
Proof.
  intros Hnb Ht.
  destruct (rstrip_nl_line body term Hnb Ht) as (term' & -> & Hsp & HT).
  unfold rstrip. rewrite rstrip_by_app_all by done.
  exists (rstrip body). split; [by rewrite <- app_assoc|].
  apply no_break_app. split; [by apply no_break_rstrip|by repeat constructor].
Qed.

(** ** What the detectors that read line by line report *)

Lemma span_text_line (doc : list ascii) (k : nat) (l : list ascii) :
  splitlines doc !! k = Some l ->
  let offs := length (join (take k (splitlines doc))) in
  span_text doc (Z.of_nat offs, Z.of_nat (offs + length l)) = l.
Proof.
  intros Hk offs. unfold span_text. simpl. rewrite !Nat2Z.id.
  replace (offs + length l - offs) with (length l) by lia.
  rewrite <- (join_splitlines doc) at 1.
  rewrite <- (take_drop_middle _ _ _ Hk) at 1.
  unfold join. rewrite concat_app, concat_cons.
  subst offs. unfold join. rewrite drop_app_length. by rewrite take_app_length.
Qed.

Lemma reports_lines_nil (doc : list ascii) (flag : nat -> list ascii -> bool) (K : string) :
  reports_lines_upto doc flag K 0 [].
Proof.
  split; [|split].
  - intros it Hin. by apply not_elem_of_nil in Hin.
  - intros k l Hk. lia.
  - constructor.
Qed.

(** A line that is not flagged. *)
Lemma reports_lines_skip (doc : list ascii) (flag : nat -> list ascii -> bool) (K : string)
    (n : nat) (x : list ascii) (issues : list Issue) :
  splitlines doc !! n = Some x -> flag n x = false ->
  reports_lines_upto doc flag K n issues -> reports_lines_upto doc flag K (S n) issues.
Proof.
  intros Hn Hflag (Hsound & Hcomplete & Hsorted). split; [|split; [|done]].
  - intros it Hin. destruct (Hsound it Hin) as (Hk & k & l & Hlt & Hrest).
    split; [done|]. exists k, l. split; [lia|done].
  - intros k l Hlt Hk Hf. destruct (decide (k = n)) as [->|Hne].
    + congruence.
    + apply (Hcomplete k l); [lia|done|done].
Qed.

(** A line that is flagged, with its issue. *)
Lemma reports_lines_add (doc : list ascii) (flag : nat -> list ascii -> bool) (K : string)
    (n : nat) (x : list ascii) (issues : list Issue) (it : Issue) :
  splitlines doc !! n = Some x -> flag n x = true ->
  kind it = K -> line it = Z.of_nat (n + 1) ->
  span it = (Z.of_nat (length (join (take n (splitlines doc)))),
             Z.of_nat (length (join (take n (splitlines doc))) + length x)) ->
  reports_lines_upto doc flag K n issues ->
  reports_lines_upto doc flag K (S n) (issues ++ [it]).
Proof.
  intros Hn Hflag Hkind Hline Hspan (Hsound & Hcomplete & Hsorted). split; [|split].
  - intros it' Hin. apply elem_of_app in Hin as [Hin|Hin].
    + destruct (Hsound it' Hin) as (Hk & k & l & Hlt & Hrest).
      split; [done|]. exists k, l. split; [lia|done].
    + apply list_elem_of_singleton in Hin as ->. split; [done|].
      exists n, x. split; [lia|]. split; [done|]. split; [done|]. split; [done|].
      rewrite Hspan. split; [done|]. by apply span_text_line.
  - intros k l Hlt Hk Hf. destruct (decide (k = n)) as [->|Hne].
    + exists it. split; [|done]. apply elem_of_app. right. by apply list_elem_of_singleton.
    + destruct (Hcomplete k l) as (it' & Hin & Hl); [lia|done|done|].
      exists it'. split; [|done]. apply elem_of_app. by left.
  - apply StronglySorted_snoc; [done|]. apply Forall_forall. intros it' Hin.
    destruct (Hsound it' Hin) as (_ & k & l & Hlt & _ & _ & Hl & _).
    unfold by_line. rewrite Hl, Hline. lia.
Qed.

(** The invariant of the loops over the lines, with what was reported. *)
Lemma reports_inv_skip (doc : list ascii) (flag : nat -> list ascii -> bool) (K : string)
    (n : nat) (x : list ascii) (issues : list Issue) (offs : nat) :
  splitlines doc !! n = Some x -> flag n x = false ->
  offs = length (join (take n (splitlines doc))) /\ reports_lines_upto doc flag K n issues ->
  offs + length x = length (join (take (S n) (splitlines doc)))
  /\ reports_lines_upto doc flag K (S n) issues.
Proof.
  intros Hn Hflag [-> Hrep]. split; [|by eapply reports_lines_skip].
  rewrite (join_take_S _ _ _ Hn). lia.
Qed.

Lemma reports_inv_add (doc : list ascii) (flag : nat -> list ascii -> bool) (K : string)
    (n : nat) (x : list ascii) (issues : list Issue) (offs : nat) (it : Issue) :
  splitlines doc !! n = Some x -> flag n x = true ->
  kind it = K -> line it = Z.of_nat (n + 1) ->
  span it = (Z.of_nat offs, Z.of_nat (offs + length x)) ->
  offs = length (join (take n (splitlines doc))) /\ reports_lines_upto doc flag K n issues ->
  offs + length x = length (join (take (S n) (splitlines doc)))
  /\ reports_lines_upto doc flag K (S n) (issues ++ [it]).
Proof.
  intros Hn Hflag Hkind Hline Hspan [-> Hrep]. split; [|by eapply reports_lines_add].
  rewrite (join_take_S _ _ _ Hn). lia.
Qed.

(** [extended_control_paren_balance] reports the lines that start, after
    white space, with [if], [while] or [for] and an opening parenthesis,
    in any case of the letters, and that hold one more opening than
    closing parenthesis: one issue [paren-control-close] for each such
    line and for no other, by growing line number, with the span of the
    line. *)
Lemma control_paren_lines (doc : list ascii) :
  returns (extended_control_paren_balance doc)
          (reports_lines doc (fun _ => control_paren_flagged) "paren-control-close").
Proof.
  unfold extended_control_paren_balance. eapply returns_bind.
  - apply (for_each_rule
             (fun k st => st.2 = length (join (take k (splitlines doc)))
                          /\ reports_lines_upto doc (fun _ => control_paren_flagged)
                               "paren-control-close" k st.1)) with (i := 0);
      [|split; [done|apply reports_lines_nil]].
    intros k x [issues offs] Hk Hinv. simpl in *. unfold control_paren_body.
    destruct (is_match (re_search RE_I CONTROL_LINE x)) eqn:Hm; simpl.
    + destruct (Z.of_nat (count LPAREN x) - Z.of_nat (count RPAREN x) =? 1)%Z eqn:Hb.
      * eapply reports_inv_add; [done| |done|done|done|done].
        unfold control_paren_flagged. by rewrite Hm, Hb.
      * eapply reports_inv_skip; [done| |done].
        unfold control_paren_flagged. by rewrite Hm, Hb.
    + eapply reports_inv_skip; [done| |done].
      unfold control_paren_flagged. by rewrite Hm.
  - intros [issues offs] [_ H]. exact H.
Qed.

(** [check_semicolons_strict] reports the lines that, once stripped of
    the white space at both ends, are not empty, do not start with two
    slashes or with a slash and a star, do not end with a brace, match
    the pattern of a variable declaration or of an assignment, and do
    not end with a semicolon: one issue [semicolon-missing] for each
    such line and for no other, by growing line number, with the span
    of the line. *)
Lemma semicolons_lines (doc : list ascii) :
  returns (check_semicolons_strict doc)
          (reports_lines doc (fun _ => semicolons_flagged) "semicolon-missing").
Proof.
  unfold check_semicolons_strict. eapply returns_bind.
  - apply (for_each_rule
             (fun k st => st.2 = length (join (take k (splitlines doc)))
                          /\ reports_lines_upto doc (fun _ => semicolons_flagged)
                               "semicolon-missing" k st.1)) with (i := 0);
      [|split; [done|apply reports_lines_nil]].
    intros k x [issues offs] Hk Hinv. simpl in *. unfold semicolons_body.
    match goal with |- returns (if ?b then _ else _) _ => destruct b eqn:Hskip end.
    + eapply reports_inv_skip; [done| |done].
      unfold semicolons_flagged. cbv zeta. by rewrite Hskip.
    + match goal with |- returns (Ret (if ?b then _ else _, _)) _ => destruct b eqn:Hb end.
      * eapply reports_inv_add; [done| |done|done|done|done].
        unfold semicolons_flagged. cbv zeta. rewrite Hskip. simpl negb.
        by rewrite andb_true_l.
      * eapply reports_inv_skip; [done| |done].
        unfold semicolons_flagged. cbv zeta. rewrite Hskip. simpl negb.
        by rewrite andb_true_l.
  - intros [issues offs] [_ H]. exact H.
Qed.

(** The inner loop of [find_cpptext_missing_brace] stops at the next
    line of code. *)
Lemma cpptext_skip_next (lines : list (list ascii)) (fuel : nat) :
  forall j0, length lines - j0 < fuel ->
    exists j, loop fuel (cpptext_skip_step lines) j0 = Ret j
              /\ (if j <? length lines then getitem lines j else Ret [])
                 = Ret (next_code_line (drop j0 lines)).
Proof.
  induction fuel as [|fuel IH]; intros j0 Hfuel; [lia|].
  rewrite loop_S. unfold cpptext_skip_step.
  destruct (j0 <? length lines) eqn:Hlt.
  - apply Nat.ltb_lt in Hlt. destruct (getitem_lt lines j0 Hlt) as (l & Hl & Hget).
    unfold oand. rewrite Hget, !bind_ret. rewrite (drop_S _ _ _ Hl). simpl next_code_line.
    destruct (is_match (re_match NOFLAGS re_blank_or_comment l)).
    + cbv iota. replace (j0 + 1) with (S j0) by lia. apply IH. lia.
    + exists j0. split; [done|]. rewrite (proj2 (Nat.ltb_lt _ _) Hlt). done.
  - exists j0. unfold oand. rewrite bind_ret. split; [done|]. rewrite Hlt.
    apply Nat.ltb_ge in Hlt. by rewrite drop_ge.
Qed.

(** [find_cpptext_missing_brace] reports the lines that hold the word
    [cpptext], in any case of the letters, and no opening brace, where
    the next line that is neither blank nor a comment of two slashes
    does not start, after white space, with an opening brace, or where
    there is no such line: one issue [cpptext-brace] for each such line
    and for no other, by growing line number, with the span of the
    line. *)
Lemma cpptext_lines (doc : list ascii) :
  returns (find_cpptext_missing_brace doc)
          (reports_lines doc (cpptext_flagged (splitlines doc)) "cpptext-brace").
Proof.
  unfold find_cpptext_missing_brace. eapply returns_bind.
  - apply (for_each_rule
             (fun k st => st.2 = length (join (take k (splitlines doc)))
                          /\ reports_lines_upto doc (cpptext_flagged (splitlines doc))
                               "cpptext-brace" k st.1)) with (i := 0);
      [|split; [done|apply reports_lines_nil]].
    intros k x [issues offs] Hk Hinv. change (0 + k) with k in *. unfold cpptext_body.
    destruct (is_match (re_search RE_I re_cpptext x)) eqn:Hm.
    2: { eapply reports_inv_skip; [done| |done]. unfold cpptext_flagged. by rewrite Hm. }
    destruct (contains LBRACE x) eqn:Hbrace.
    { eapply reports_inv_skip; [done| |done]. unfold cpptext_flagged. by rewrite Hm, Hbrace. }
    destruct (cpptext_skip_next (splitlines doc) (S (length (splitlines doc))) (k + 1))
      as (j & Hj & Hnext); [lia|].
    rewrite Hj, bind_ret, Hnext, bind_ret.
    destruct (is_match (re_match NOFLAGS re_open_brace_line
                          (next_code_line (drop (k + 1) (splitlines doc))))) eqn:Hopen;
      simpl negb; cbv iota.
    + eapply reports_inv_skip; [done| |done].
      unfold cpptext_flagged. by rewrite Hm, Hbrace, Hopen.
    + eapply reports_inv_add; [done| |done|done|done|done].
      unfold cpptext_flagged. by rewrite Hm, Hbrace, Hopen.
  - intros [issues offs] [_ H]. exact H.
Qed.

(** ** The findings of the detectors, one by one *)

Lemma findings_exist (doc : list ascii) : exists fs, findings_of doc fs.
Proof.
  destruct (returns_inv _ _ (find_cpptext_missing_brace_ok doc)) as (i1 & H1 & _).
  destruct (returns_inv _ _ (safe_close_balance_ok doc)) as (i2 & H2 & _).
  destruct (returns_inv _ _ (check_defaultproperties_ok doc)) as (i3 & H3 & _).
  destruct (returns_inv _ _ (check_semicolons_strict_ok doc)) as (i4 & H4 & _).
  destruct (returns_inv _ _ (extended_control_paren_balance_ok doc)) as (i5 & H5 & _).
  destruct (returns_inv _ _ (extended_struct_enum_closer_ok doc)) as (i6 & H6 & _).
  destruct (returns_inv _ _ (extended_unmatched_close_paren_ok doc)) as (i7 & H7 & _).
  destruct (returns_inv _ _ (extended_unmatched_open_paren_ok doc)) as (i8 & H8 & _).
  exists {| f_cpptext := i1; f_brace := i2; f_defaultprops := i3; f_semicolons := i4;
            f_control_paren := i5; f_struct_enum := i6; f_close_paren := i7;
            f_open_paren := i8 |}.
  repeat split; done.
Qed.

Lemma detector_output_gathered (doc : list ascii) (extended : bool) (fs : findings) :
  findings_of doc fs -> detector_output doc extended = Ret (gathered doc extended fs).
Proof.
  intros (H1 & H2 & H3 & H4 & H5 & H6 & H7 & H8).
  unfold detector_output, gathered. rewrite H1, H2, H3, H4. simpl.
  destruct extended.
  - rewrite H5, H6, H7. simpl. f_equal. by rewrite <- !app_assoc.
  - f_equal. by rewrite <- !app_assoc, app_nil_r.
Qed.

Lemma scan_doc_gathered (doc : list ascii) (extended : bool) (fs : findings) :
  findings_of doc fs ->
  scan_doc_for_issues doc extended = Ret (first_occurrences (gathered doc extended fs)).
Proof.
  intros Hfs. unfold scan_doc_for_issues.
  rewrite (detector_output_gathered doc extended fs Hfs), bind_ret.
  by rewrite dedup_issues_first_occurrences.
Qed.

Lemma scan_now_gathered (doc : list ascii) (extended unmatched_open : bool) (fs : findings) :
  findings_of doc fs ->
  scan_now doc extended unmatched_open
  = Ret (first_occurrences (first_occurrences (gathered doc extended fs)
                            ++ (if unmatched_open then f_open_paren fs else []))).
Proof.
  intros Hfs. unfold scan_now. rewrite (scan_doc_gathered doc extended fs Hfs), bind_ret.
  destruct Hfs as (_ & _ & _ & _ & _ & _ & _ & H8).
  destruct unmatched_open.
  - rewrite H8, !bind_ret. by rewrite dedup_issues_first_occurrences.
  - rewrite bind_ret, app_nil_r. by rewrite dedup_issues_first_occurrences.
Qed.

(** The two parenthesis detectors, on the parentheses of the code. *)
Lemma paren_detectors_tokens (doc : list ascii) :
  exists toks,
    paren_tokens doc = Ret toks
    /\ Forall (token_ok doc) toks /\ StronglySorted by_offset toks
    /\ extended_unmatched_close_paren doc
       = Ret (match first_unmatched_close 0 toks with
              | Some t => [close_issue t.1.1 t.1.2]
              | None => []
              end)
    /\ extended_unmatched_open_paren doc
       = Ret (match last (unmatched_opens toks) with
              | Some (idx, ln) => [open_issue idx ln]
              | None => []
              end).
Proof.
  pose proof (paren_tokens_ok doc) as Htok.
  apply returns_inv in Htok as (toks & Hret & Hok & Hsorted).
  exists toks. split; [done|]. split; [done|]. split; [done|]. split.
  - pose proof (close_paren_refines doc (S (length doc)) 0 1%Z 0%Z [] ltac:(lia)) as Href.
    unfold paren_tokens in Hret. rewrite Hret in Href.
    destruct Href as (rest & Heq & Hloop). simpl in Heq. subst rest.
    change (Z.to_nat 0) with 0 in Hloop.
    unfold extended_unmatched_close_paren. by rewrite Hloop.
  - pose proof (open_paren_refines doc (S (length doc)) 0 1%Z [] []) as Href.
    unfold paren_tokens in Hret. rewrite Hret in Href.
    destruct Href as (rest & Heq & Hloop). simpl in Heq. subst rest.
    unfold extended_unmatched_open_paren. rewrite Hloop, bind_ret.
    rewrite stack_after_spec. simpl.
    by destruct (last (unmatched_opens toks)) as [[idx ln]|].
Qed.

Lemma safe_close_balance_kind (doc : list ascii) :
  returns (safe_close_balance doc) (Forall (fun it => kind it = "brace-balance")).
Proof.
  unfold safe_close_balance.
  destruct (open_count doc <? 0)%Z; [by repeat constructor|].
  destruct (open_count doc >? 0)%Z; by repeat constructor.
Qed.

Lemma check_defaultproperties_kind (doc : list ascii) :
  returns (check_defaultproperties doc) (Forall (fun it => kind it = "defaultprops-brace")).
Proof.
  unfold check_defaultproperties.
  eapply returns_mono.
  - apply (for_each_rule (fun _ issues => Forall (fun it => kind it = "defaultprops-brace") issues))
      with (i := 0); [|constructor].
    intros k m issues Hk Hinv. simpl. unfold defaultproperties_body.
    destruct (negb _); [|done]. simpl.
    apply Forall_app. split; [done|]. by repeat constructor.
  - done.
Qed.

Lemma extended_struct_enum_closer_kind (doc : list ascii) :
  returns (extended_struct_enum_closer doc) (Forall (fun it => kind it = "struct-enum-close")).
Proof.
  unfold extended_struct_enum_closer.
  pose proof (re_finditer_bounds RE_IM doc re_struct_enum) as Hb.
  eapply returns_mono.
  - apply (for_each_rule (fun _ issues => Forall (fun it => kind it = "struct-enum-close") issues))
      with (i := 0); [|constructor].
    intros k m issues Hk Hinv. simpl. unfold struct_enum_body.
    rewrite Forall_lookup in Hb. specialize (Hb _ _ Hk). simpl in Hb.
    eapply returns_bind; [apply struct_enum_loop_returns; lia|].
    intros [count pos] Hpos. simpl in Hpos.
    destruct (negb _); [|done]. simpl.
    apply Forall_app. split; [done|]. by repeat constructor.
  - done.
Qed.

Lemma paren_balance_kind (doc : list ascii) :
  Forall (fun it => kind it = "paren-balance") (paren_balance doc).
Proof. unfold paren_balance. destruct (negb _); by repeat constructor. Qed.

Lemma reports_lines_kind (doc : list ascii) (flag : nat -> list ascii -> bool) (K : string)
    (issues : list Issue) :
  reports_lines doc flag K issues -> Forall (fun it => kind it = K) issues.
Proof. intros (Hs & _). apply Forall_forall. intros it Hin. by destruct (Hs it Hin). Qed.

(** Each detector reports issues of one kind, its own. *)
Lemma findings_kinds (doc : list ascii) (fs : findings) :
  findings_of doc fs ->
  Forall (fun it => kind it = "cpptext-brace") (f_cpptext fs)
  /\ Forall (fun it => kind it = "brace-balance") (f_brace fs)
  /\ Forall (fun it => kind it = "defaultprops-brace") (f_defaultprops fs)
  /\ Forall (fun it => kind it = "semicolon-missing") (f_semicolons fs)
  /\ Forall (fun it => kind it = "paren-control-close") (f_control_paren fs)
  /\ Forall (fun it => kind it = "struct-enum-close") (f_struct_enum fs)
  /\ Forall (fun it => kind it = "paren-extra-close") (f_close_paren fs)
  /\ Forall (fun it => kind it = "paren-extra-open") (f_open_paren fs).
Proof.
  intros (H1 & H2 & H3 & H4 & H5 & H6 & H7 & H8).
  pose proof (cpptext_lines doc) as L1. rewrite H1 in L1.
  pose proof (safe_close_balance_kind doc) as L2. rewrite H2 in L2.
  pose proof (check_defaultproperties_kind doc) as L3. rewrite H3 in L3.
  pose proof (semicolons_lines doc) as L4. rewrite H4 in L4.
  pose proof (control_paren_lines doc) as L5. rewrite H5 in L5.
  pose proof (extended_struct_enum_closer_kind doc) as L6. rewrite H6 in L6.
  destruct (paren_detectors_tokens doc) as (toks & _ & _ & _ & L7 & L8).
  rewrite H7 in L7. rewrite H8 in L8. injection L7 as ->. injection L8 as ->.
  split; [by eapply reports_lines_kind|]. split; [done|]. split; [done|].
  split; [by eapply reports_lines_kind|]. split; [by eapply reports_lines_kind|].
  split; [done|]. split.
  - destruct (first_unmatched_close 0 toks); by repeat constructor.
  - destruct (last (unmatched_opens toks)) as [[idx ln]|]; by repeat constructor.
Qed.

(** Where an issue of the gathered findings comes from. *)
Lemma gathered_origin (doc : list ascii) (extended : bool) (fs : findings) (it : Issue) :
  findings_of doc fs -> it ∈ gathered doc extended fs ->
  (kind it = "cpptext-brace" /\ it ∈ f_cpptext fs)
  \/ (kind it = "brace-balance" /\ it ∈ f_brace fs)
  \/ (kind it = "defaultprops-brace" /\ it ∈ f_defaultprops fs)
  \/ (kind it = "semicolon-missing" /\ it ∈ f_semicolons fs)
  \/ (kind it = "paren-balance" /\ it ∈ paren_balance doc)
  \/ (extended = true /\ kind it = "paren-control-close" /\ it ∈ f_control_paren fs)
  \/ (extended = true /\ kind it = "struct-enum-close" /\ it ∈ f_struct_enum fs)
  \/ (extended = true /\ kind it = "paren-extra-close" /\ it ∈ f_close_paren fs).
Proof.
  intros Hfs Hin.
  destruct (findings_kinds doc fs Hfs) as (K1 & K2 & K3 & K4 & K5 & K6 & K7 & _).
  pose proof (paren_balance_kind doc) as K0.
  rewrite Forall_forall in K0, K1, K2, K3, K4, K5, K6, K7.
  unfold gathered in Hin. rewrite !elem_of_app in Hin.
  destruct Hin as [H|[H|[H|[H|[H|H]]]]]; [by auto 10..|].
  destruct extended; [|by apply not_elem_of_nil in H].
  rewrite !elem_of_app in H.
  destruct H as [H|[H|H]]; by auto 15.
Qed.

Lemma scan_doc_elem (doc : list ascii) (extended : bool) (fs : findings) (it : Issue)
    (issues : list Issue) :
  findings_of doc fs -> scan_doc_for_issues doc extended = Ret issues ->
  it ∈ issues -> it ∈ gathered doc extended fs.
Proof.
  intros Hfs Hscan Hin. rewrite (scan_doc_gathered doc extended fs Hfs) in Hscan.
  injection Hscan as <-.
  eapply elem_of_sublist; [|apply first_occurrences_sublist]. done.
Qed.

(** ** What a repair makes of the line of its issue *)

Lemma lines_middle (doc : list ascii) (k : nat) (l : list ascii) :
  splitlines doc !! k = Some l ->
  well_split (take k (splitlines doc) ++ l :: drop (S k) (splitlines doc))
  /\ length (take k (splitlines doc)) = k.
Proof.
  intros Hk. split.
  - rewrite take_drop_middle by done. apply well_split_splitlines.
  - rewrite length_take. apply lookup_lt_Some in Hk. lia.
Qed.

(** The repair of [paren-control-close] adds one closing parenthesis to
    the line of the issue. *)
Lemma control_paren_apply_line (doc : list ascii) (a : nat) (l : list ascii) :
  splitlines doc !! (a - 1) = Some l ->
  returns (control_paren_apply a doc) (fun doc' =>
    exists l', splitlines doc' !! (a - 1) = Some l'
      /\ count LPAREN l' = count LPAREN l /\ count RPAREN l' = S (count RPAREN l)).
Proof.
  intros Hk. unfold control_paren_apply. cbv zeta. unfold getitem. rewrite Hk.
  rewrite bind_ret. apply returns_ret.
  destruct (lines_middle doc _ l Hk) as [Hws Hlen].
  rewrite insert_take_drop by (by eapply lookup_lt_Some).
  set (pre := take (a - 1) (splitlines doc)) in *.
  set (post := drop (S (a - 1)) (splitlines doc)) in *.
  destruct (well_split_mid _ _ _ Hws) as (body & term & -> & Hnb & _ & Hterm).
  assert (is_term term \/ term = []) as Ht by (destruct Hterm as [[? _]|[? _]]; auto).
  destruct (control_paren_line body term Hnb Ht) as (B & T & Heq & HnbB & HneB & HT & Hc1 & Hc2).
  cbv zeta in Heq. rewrite Heq.
  destruct (splice_line pre (body ++ term) post B T Hws HnbB HneB HT)
    as (t & rest & Hsplit & Hterm').
  exists (B ++ t). rewrite Hsplit. split.
  - by apply list_lookup_middle.
  - rewrite !(line_count _ B t) by auto. done.
Qed.

(** The repair of [semicolon-missing], where the line of the issue has
    no two slashes, leaves a line that ends in a semicolon. *)
Lemma semicolons_apply_line (doc : list ascii) (a : nat) (l : list ascii) :
  splitlines doc !! (a - 1) = Some l ->
  endswith (strip l) [SEMI] = false -> ~ has_slashes l ->
  returns (semicolons_apply a doc) (fun doc' =>
    exists l', splitlines doc' !! (a - 1) = Some l' /\ endswith (strip l') [SEMI] = true).
Proof.
  intros Hk Hend Hno. unfold semicolons_apply. cbv zeta.
  assert ((a - 1 <? length (splitlines doc)) = true) as ->
    by (apply Nat.ltb_lt; by eapply lookup_lt_Some).
  unfold getitem. rewrite Hk. rewrite bind_ret.
  rewrite endswith_strip in Hend by done. rewrite Hend.
  unfold re_split1. rewrite (no_slashes_no_comment l Hno).
  change (length [l] =? 3) with false. cbv iota. apply returns_ret.
  destruct (lines_middle doc _ l Hk) as [Hws Hlen].
  rewrite insert_take_drop by (by eapply lookup_lt_Some).
  set (pre := take (a - 1) (splitlines doc)) in *.
  set (post := drop (S (a - 1)) (splitlines doc)) in *.
  destruct (well_split_mid _ _ _ Hws) as (body & term & -> & Hnb & _ & Hterm).
  assert (is_term term \/ term = []) as Ht by (destruct Hterm as [[? _]|[? _]]; auto).
  destruct (semicolon_line body term Hnb Ht) as (B & -> & HnbB).
  destruct (splice_line pre (body ++ term) post (B ++ [SEMI]) [NL] Hws HnbB)
    as (t & rest & Hsplit & Hterm'); [by destruct B|by left|].
  exists ((B ++ [SEMI]) ++ t). rewrite Hsplit. split; [by apply list_lookup_middle|].
  rewrite endswith_strip by done. unfold rstrip.
  rewrite rstrip_by_app_all by (by apply is_term_space).
  rewrite rstrip_by_snoc by done. apply endswith_snoc.
Qed.

Lemma contains_app (c : ascii) (s t : list ascii) :
  contains c (s ++ t) = contains c s || contains c t.
Proof. unfold contains. apply existsb_app. Qed.

(** The repair of [cpptext-brace] leaves an opening brace in the line of
    the issue, when that line was the last and had no line boundary, or
    makes the next line an opening brace. *)
Lemma cpptext_apply_line (doc : list ascii) (a : nat) (l : list ascii) :
  1 <= a -> splitlines doc !! (a - 1) = Some l ->
  returns (cpptext_apply a doc) (fun doc' =>
    exists l', splitlines doc' !! (a - 1) = Some l'
      /\ (contains LBRACE l' = true \/ splitlines doc' !! a = Some [LBRACE; NL])).
Proof.
  intros Ha Hk. unfold cpptext_apply, list_insert_at. cbv zeta. apply returns_ret.
  replace (a - 1 + 1) with (S (a - 1)) by lia.
  destruct (lines_middle doc _ l Hk) as [Hws Hlen].
  rewrite (take_S_r _ _ _ Hk), <- app_assoc. simpl app.
  set (pre := take (a - 1) (splitlines doc)) in *.
  set (post := drop (S (a - 1)) (splitlines doc)) in *.
  destruct (well_split_mid _ _ _ Hws) as (body & term & -> & Hnb & Hpost & Hterm).
  destruct Hterm as [[Hterm Hadj]|(-> & Hnil & Hne)].
  - exists (body ++ term). rewrite splitlines_join.
    + split; [by apply list_lookup_middle|]. right.
      rewrite lookup_app_r by lia. replace (a - length pre) with 1 by lia. done.
    + eapply well_split_splice; [exact Hws| |done].
      constructor; [done|done| |].
      * intros _ l0 ls' [= <- <-]. done.
      * apply (ws_cons [LBRACE] [NL]);
          [by repeat constructor|right; by exists NL|by intros [=]|done].
  - rewrite Hnil, app_nil_r.
    replace (join (pre ++ [body; [LBRACE; NL]]))
      with (join (pre ++ [(body ++ [LBRACE]) ++ [NL]])).
    + rewrite Hnil, app_nil_r in Hws.
      destruct (splice_line pre body [] (body ++ [LBRACE]) [NL] Hws)
        as (t & rest & Hsplit & Hterm'); [|by destruct body|by left|].
      { apply no_break_app. split; [done|by repeat constructor]. }
      exists ((body ++ [LBRACE]) ++ t). rewrite Hsplit.
      split; [by apply list_lookup_middle|]. left.
      rewrite !contains_app. simpl. apply orb_true_iff. left. apply orb_true_iff. by right.
    + unfold join. rewrite !concat_app. simpl. by rewrite <- !app_assoc.
Qed.

(** The repair of [semicolon-missing] returns on the document of its
    issue, whatever its line holds. *)
Lemma semicolons_apply_line_or (doc : list ascii) (a : nat) (l : list ascii) :
  splitlines doc !! (a - 1) = Some l ->
  endswith (strip l) [SEMI] = false ->
  returns (semicolons_apply a doc) (fun doc' =>
    ~ has_slashes l ->
    exists l', splitlines doc' !! (a - 1) = Some l' /\ endswith (strip l') [SEMI] = true).
Proof.
  intros Hk Hend.
  assert (returns (semicolons_apply a doc) (fun _ => True)) as Hret.
  { unfold semicolons_apply. cbv zeta.
    assert ((a - 1 <? length (splitlines doc)) = true) as ->
      by (apply Nat.ltb_lt; by eapply lookup_lt_Some).
    unfold getitem. rewrite Hk. rewrite bind_ret.
    destruct (endswith (rstrip l) [SEMI]); [done|].
    unfold re_split1. destruct (re_search NOFLAGS re_trailing_comment l); done. }
  apply returns_inv in Hret as (doc' & Heq & _). rewrite Heq. apply returns_ret.
  intros Hno. pose proof (semicolons_apply_line doc a l Hk Hend Hno) as H.
  by rewrite Heq in H.
Qed.

(** ** The line of an issue of a scan *)

Lemma reports_lines_elem (doc : list ascii) (flag : nat -> list ascii -> bool) (K : string)
    (issues : list Issue) (it : Issue) :
  reports_lines doc flag K issues -> it ∈ issues ->
  exists k l, splitlines doc !! k = Some l /\ flag k l = true /\ line it = Z.of_nat (k + 1).
Proof.
  intros (Hs & _) Hin. destruct (Hs it Hin) as (_ & k & l & _ & Hk & Hf & Hl & _).
  by exists k, l.
Qed.

Lemma scan_line_issue (doc : list ascii) (extended : bool) (issues : list Issue) (it : Issue) :
  scan_doc_for_issues doc extended = Ret issues -> it ∈ issues ->
  (kind it = "cpptext-brace" ->
     exists k l, splitlines doc !! k = Some l /\ cpptext_flagged (splitlines doc) k l = true
                 /\ line it = Z.of_nat (k + 1))
  /\ (kind it = "semicolon-missing" ->
        exists k l, splitlines doc !! k = Some l /\ semicolons_flagged l = true
                    /\ line it = Z.of_nat (k + 1))
  /\ (kind it = "paren-control-close" ->
        exists k l, splitlines doc !! k = Some l /\ control_paren_flagged l = true
                    /\ line it = Z.of_nat (k + 1)).
Proof.
  intros Hscan Hin. destruct (findings_exist doc) as (fs & Hfs).
  pose proof (scan_doc_elem doc extended fs it issues Hfs Hscan Hin) as Hg.
  pose proof Hfs as (H1 & _ & _ & H4 & H5 & _).
  pose proof (cpptext_lines doc) as L1. rewrite H1 in L1.
  pose proof (semicolons_lines doc) as L4. rewrite H4 in L4.
  pose proof (control_paren_lines doc) as L5. rewrite H5 in L5.
  destruct (gathered_origin doc extended fs it Hfs Hg)
    as [[Hk Ho]|[[Hk Ho]|[[Hk Ho]|[[Hk Ho]|[[Hk Ho]|[(_ & Hk & Ho)|[(_ & Hk & Ho)|(_ & Hk & Ho)]]]]]]];
    rewrite Hk; (split; [|split]); intros Hkind; try discriminate Hkind.
  - by eapply (reports_lines_elem doc _ _ _ it L1).
  - by eapply (reports_lines_elem doc _ _ _ it L4).
  - by eapply (reports_lines_elem doc _ _ _ it L5).
Qed.

(** The repair of a line issue of a scan is the closure of that line. *)
Lemma scan_line_repair (doc : list ascii) (extended : bool) (issues : list Issue)
    (it : Issue) (f : closure) (k : nat) :
  scan_doc_for_issues doc extended = Ret issues -> it ∈ issues ->
  apply_fn it = Some f -> line it = Z.of_nat (k + 1) ->
  (kind it = "cpptext-brace" -> f = Cpptext_apply (k + 1))
  /\ (kind it = "semicolon-missing" -> f = Semicolons_apply (k + 1))
  /\ (kind it = "paren-control-close" -> f = Control_paren_apply (k + 1)).
Proof.
  intros Hscan Hin Hf Hl.
  pose proof (scan_doc_for_issues_ok doc extended) as Hok. rewrite Hscan in Hok.
  simpl in Hok. rewrite Forall_forall in Hok. destruct (Hok it Hin) as [_ Hof].
  destruct Hof as
    [a Hk Ha Hl' Hc| Hk _ _ Hc | Hk _ _ Hc | pos Hk _ Hc | a Hk Ha Hl' Hc
    | Hk _ _ Hc | a Hk Ha Hl' Hc | ia Hk _ Hc | idx Hk _ _ Hc | idx Hk _ _ Hc];
    rewrite Hk; (split; [|split]); intros Hkind; try discriminate Hkind;
    rewrite Hc in Hf; injection Hf as <-; f_equal; lia.
Qed.

(** ** The scan of the document that a line repair returns *)

Lemma control_paren_rescan (doc : list ascii) (extended : bool) (issues : list Issue)
    (it : Issue) (f : closure) :
  scan_doc_for_issues doc extended = Ret issues -> it ∈ issues ->
  kind it = "paren-control-close" -> apply_fn it = Some f ->
  returns (call f doc) (fun doc' =>
    returns (scan_doc_for_issues doc' extended) (not_reported it)).
Proof.
  intros Hscan Hin Hk Hf.
  destruct (scan_line_issue doc extended issues it Hscan Hin) as (_ & _ & H3).
  destruct (H3 Hk) as (k & l & Hl & Hflag & Hline).
  destruct (scan_line_repair doc extended issues it f k Hscan Hin Hf Hline) as (_ & _ & R).
  rewrite (R Hk). simpl call.
  eapply returns_mono.
  { apply (control_paren_apply_line doc (k + 1) l). by rewrite Nat.add_sub. }
  intros doc' (l' & Hl' & Hc1 & Hc2). rewrite Nat.add_sub in Hl'.
  destruct (returns_inv _ _ (scan_doc_for_issues_ok doc' extended)) as (issues' & Hscan' & _).
  rewrite Hscan'. simpl. intros it' Hin' [Hk' Hline'].
  destruct (scan_line_issue doc' extended issues' it' Hscan' Hin') as (_ & _ & H3').
  destruct H3' as (k' & l'' & Hl'' & Hflag' & Hline''); [congruence|].
  assert (k' = k) as -> by lia.
  rewrite Hl' in Hl''. injection Hl'' as <-.
  unfold control_paren_flagged in Hflag, Hflag'.
  apply andb_true_iff in Hflag as [_ Hb]. apply andb_true_iff in Hflag' as [_ Hb'].
  apply Z.eqb_eq in Hb, Hb'. lia.
Qed.

Lemma semicolons_rescan (doc : list ascii) (extended : bool) (issues : list Issue)
    (it : Issue) (f : closure) :
  scan_doc_for_issues doc extended = Ret issues -> it ∈ issues ->
  kind it = "semicolon-missing" -> apply_fn it = Some f ->
  returns (call f doc) (fun doc' =>
    returns (scan_doc_for_issues doc' extended) (fun issues' =>
      line_without_slashes doc (line it) -> not_reported it issues')).
Proof.
  intros Hscan Hin Hk Hf.
  destruct (scan_line_issue doc extended issues it Hscan Hin) as (_ & H2 & _).
  destruct (H2 Hk) as (k & l & Hl & Hflag & Hline).
  destruct (scan_line_repair doc extended issues it f k Hscan Hin Hf Hline) as (_ & R & _).
  rewrite (R Hk). simpl call.
  assert (endswith (strip l) [SEMI] = false) as Hend.
  { unfold semicolons_flagged in Hflag. cbv zeta in Hflag.
    apply andb_true_iff in Hflag as [_ Hflag]. by apply negb_true_iff in Hflag. }
  eapply returns_mono.
  { apply (semicolons_apply_line_or doc (k + 1) l); [by rewrite Nat.add_sub|done]. }
  intros doc' Hdoc'.
  destruct (returns_inv _ _ (scan_doc_for_issues_ok doc' extended)) as (issues' & Hscan' & _).
  rewrite Hscan'. simpl. intros Hno it' Hin' [Hk' Hline'].
  destruct Hdoc' as (l' & Hl' & Hsemi).
  { apply (Hno l). rewrite Hline, Nat2Z.id. by rewrite Nat.add_sub. }
  rewrite Nat.add_sub in Hl'.
  destruct (scan_line_issue doc' extended issues' it' Hscan' Hin') as (_ & H2' & _).
  destruct H2' as (k' & l'' & Hl'' & Hflag' & Hline''); [congruence|].
  assert (k' = k) as -> by lia.
  rewrite Hl' in Hl''. injection Hl'' as <-.
  unfold semicolons_flagged in Hflag'. cbv zeta in Hflag'.
  apply andb_true_iff in Hflag' as [_ Hflag']. apply negb_true_iff in Hflag'. congruence.
Qed.

Lemma next_code_line_cons (l : list ascii) (ls : list (list ascii)) :
  next_code_line (l :: ls)
  = if is_match (re_match NOFLAGS re_blank_or_comment l) then next_code_line ls else l.
Proof. done. Qed.

Lemma cpptext_rescan (doc : list ascii) (extended : bool) (issues : list Issue)
    (it : Issue) (f : closure) :
  scan_doc_for_issues doc extended = Ret issues -> it ∈ issues ->
  kind it = "cpptext-brace" -> apply_fn it = Some f ->
  returns (call f doc) (fun doc' =>
    returns (scan_doc_for_issues doc' extended) (not_reported it)).
Proof.
  intros Hscan Hin Hk Hf.
  destruct (scan_line_issue doc extended issues it Hscan Hin) as (H1 & _ & _).
  destruct (H1 Hk) as (k & l & Hl & Hflag & Hline).
  destruct (scan_line_repair doc extended issues it f k Hscan Hin Hf Hline) as (R & _ & _).
  rewrite (R Hk). simpl call.
  eapply returns_mono.
  { apply (cpptext_apply_line doc (k + 1) l); [lia|by rewrite Nat.add_sub]. }
  intros doc' (l' & Hl' & Hcase). rewrite Nat.add_sub in Hl'.
  destruct (returns_inv _ _ (scan_doc_for_issues_ok doc' extended)) as (issues' & Hscan' & _).
  rewrite Hscan'. simpl. intros it' Hin' [Hk' Hline'].
  destruct (scan_line_issue doc' extended issues' it' Hscan' Hin') as (H1' & _ & _).
  destruct H1' as (k' & l'' & Hl'' & Hflag' & Hline''); [congruence|].
  assert (k' = k) as -> by lia.
  rewrite Hl' in Hl''. injection Hl'' as <-.
  unfold cpptext_flagged in Hflag'.
  apply andb_true_iff in Hflag' as [Hflag' Hnext].
  apply andb_true_iff in Hflag' as [_ Hbrace].
  apply negb_true_iff in Hbrace, Hnext.
  destruct Hcase as [Hcase|Hcase]; [congruence|].
  rewrite (drop_S _ _ _ Hcase), next_code_line_cons in Hnext.
  assert (is_match (re_match NOFLAGS re_blank_or_comment [LBRACE; NL]) = false) as Hblank
    by (vm_compute; reflexivity).
  rewrite Hblank in Hnext.
  assert (is_match (re_match NOFLAGS re_open_brace_line [LBRACE; NL]) = true) as Hb
    by (vm_compute; reflexivity).
  congruence.
Qed.

(** ** The underlines of the highlighter *)

Lemma error_body_spec (block_pos n : Z) (calls : list (Z * Z)) (r : Z * Z) :
  Forall (fun c => (0 <= c.1 /\ 0 < c.2 /\ c.1 + c.2 <= n)%Z) calls ->
  Forall (fun c => (0 <= c.1 /\ 0 < c.2 /\ c.1 + c.2 <= n)%Z)
         (USHighlighter.error_body block_pos n calls r)
  /\ forall p, (0 <= p < n)%Z ->
       ((exists c, c ∈ USHighlighter.error_body block_pos n calls r /\ USHighlighter.covers c p)
        <-> (exists c, c ∈ calls /\ USHighlighter.covers c p)
            \/ (r.1 <= block_pos + p < r.2)%Z).
Proof.
  intros Hok. destruct r as [s e]. unfold USHighlighter.error_body. simpl.
  destruct ((e <=? block_pos)%Z || (s >=? block_pos + n)%Z) eqn:Hout.
  { split; [done|]. intros p Hp. split; [by left|]. intros [H|H]; [done|].
    apply orb_true_iff in Hout as [Ho|Ho]; lia. }
  apply orb_false_iff in Hout as [Ho1 Ho2].
  destruct (Z.min n (e - block_pos) >? Z.max 0 (s - block_pos))%Z eqn:Hgt.
  - split.
    + apply Forall_app. split; [done|]. constructor; [|constructor]. simpl. lia.
    + intros p Hp. split.
      * intros (c & Hin & Hc). apply elem_of_app in Hin as [Hin|Hin]; [left; by exists c|].
        apply list_elem_of_singleton in Hin as ->. right.
        unfold USHighlighter.covers in Hc. simpl in Hc. lia.
      * intros [(c & Hin & Hc)|Hr].
        -- exists c. split; [|done]. apply elem_of_app. by left.
        -- eexists. split; [apply elem_of_app; right; by apply list_elem_of_singleton|].
           unfold USHighlighter.covers. simpl. lia.
  - split; [done|]. intros p Hp. split; [by left|]. intros [H|H]; [done|]. lia.
Qed.

Lemma highlight_errors_fold (block_pos n : Z) (ranges : list (Z * Z)) :
  forall calls,
    Forall (fun c => (0 <= c.1 /\ 0 < c.2 /\ c.1 + c.2 <= n)%Z) calls ->
    Forall (fun c => (0 <= c.1 /\ 0 < c.2 /\ c.1 + c.2 <= n)%Z)
           (foldl (USHighlighter.error_body block_pos n) calls ranges)
    /\ forall p, (0 <= p < n)%Z ->
         ((exists c, c ∈ foldl (USHighlighter.error_body block_pos n) calls ranges
                     /\ USHighlighter.covers c p)
          <-> (exists c, c ∈ calls /\ USHighlighter.covers c p)
              \/ (exists r, r ∈ ranges /\ (r.1 <= block_pos + p < r.2)%Z)).
Proof.
  induction ranges as [|r ranges IH]; intros calls Hok; simpl.
  - split; [done|]. intros p Hp. split; [by left|].
    intros [H|(r & Hin & _)]; [done|]. by apply not_elem_of_nil in Hin.
  - destruct (error_body_spec block_pos n calls r Hok) as [Hok' Hiff'].
    destruct (IH _ Hok') as [Hok'' Hiff'']. split; [done|].
    intros p Hp. rewrite (Hiff'' p Hp), (Hiff' p Hp). split.
    + intros [[H|H]|(r' & Hin & Hr')]; [by left| |].
      * right. exists r. split; [by left|done].
      * right. exists r'. split; [by right|done].
    + intros [H|(r' & Hin & Hr')]; [left; by left|].
      apply elem_of_cons in Hin as [->|Hin]; [left; by right|].
      right. by exists r'.
Qed.

(** ** Counting the issues *)

Lemma count_loop_dedup (l : list Issue) :
  forall (d : gmap (string * Z * string * (Z * Z)) bool) (c : nat) (res : list Issue),
    MainWindow.count_loop l d c + length res = c + length (dedup_loop l d res).
Proof.
  induction l as [|it l IH]; intros d c res; simpl; [lia|].
  destruct (d !! issue_key it).
  - apply IH.
  - specialize (IH (<[issue_key it := true]> d) (c + 1) (res ++ [it])).
    rewrite length_app in IH. simpl in IH. lia.
Qed.

(** ** The list of issues of the window *)

Lemma filter_id {A} (P : A -> Prop) `{!forall x, Decision (P x)} (l : list A) :
  Forall P l -> filter P l = l.
Proof.
  induction 1 as [|x l Hx _ IH]; [done|]. by rewrite filter_cons_True, IH.
Qed.

Lemma first_occurrences_id (l : list Issue) :
  NoDup (issue_key <$> l) -> first_occurrences l = l.
Proof.
  induction l as [|it l IH]; [done|]. rewrite fmap_cons. intros [Hnot Hnd]%NoDup_cons.
  simpl. rewrite (IH Hnd). f_equal. apply filter_id. apply Forall_forall.
  intros x Hx Heq. apply Hnot. rewrite <- Heq. apply list_elem_of_fmap. by exists x.
Qed.

Lemma open_paren_at_most_one (doc : list ascii) (fs : findings) :
  findings_of doc fs -> NoDup (issue_key <$> f_open_paren fs).
Proof.
  intros (_ & _ & _ & _ & _ & _ & _ & H8).
  destruct (paren_detectors_tokens doc) as (toks & _ & _ & _ & _ & L8).
  rewrite H8 in L8. injection L8 as ->.
  destruct (last (unmatched_opens toks)) as [[idx ln]|]; simpl.
  - apply NoDup_singleton.
  - constructor.
Qed.

(** The second de-duplication, that of [scan_now], drops nothing: the
    issue of the unmatched opening parenthesis is of a kind of its
    own. *)
Lemma scan_now_list (doc : list ascii) (extended unmatched_open : bool) (fs : findings) :
  findings_of doc fs ->
  scan_now doc extended unmatched_open
  = Ret (first_occurrences (gathered doc extended fs)
         ++ (if unmatched_open then f_open_paren fs else [])).
Proof.
  intros Hfs. rewrite (scan_now_gathered doc extended unmatched_open fs Hfs). f_equal.
  apply first_occurrences_id. rewrite fmap_app. apply NoDup_app. split; [|split].
  - apply first_occurrences_NoDup.
  - intros key Hin Hin'.
    apply list_elem_of_fmap in Hin as (it & -> & Hit).
    apply list_elem_of_fmap in Hin' as (it' & Hkey & Hit').
    assert (kind it' = "paren-extra-open") as Hk'.
    { destruct unmatched_open; [|by apply not_elem_of_nil in Hit'].
      destruct (findings_kinds doc fs Hfs) as (_ & _ & _ & _ & _ & _ & _ & K8).
      rewrite Forall_forall in K8. by apply K8. }
    assert (kind it = kind it') as Hk by (unfold issue_key in Hkey; congruence).
    assert (it ∈ gathered doc extended fs) as Hg.
    { eapply elem_of_sublist; [exact Hit|apply first_occurrences_sublist]. }
    destruct (gathered_origin doc extended fs it Hfs Hg)
      as [[Ho _]|[[Ho _]|[[Ho _]|[[Ho _]|[[Ho _]|[(_ & Ho & _)|[(_ & Ho & _)|(_ & Ho & _)]]]]]]];
      congruence.
  - destruct unmatched_open; [by apply (open_paren_at_most_one doc)|constructor].
Qed.

Lemma window_scan_now (self : MainWindow.t) (fs : findings) :
  findings_of (MainWindow.editor self) fs ->
  MainWindow.scan_now self
  = Ret (MainWindow.set_issues self
           (first_occurrences (gathered (MainWindow.editor self)
                                 (MainWindow.extended_cb self) fs)
            ++ (if MainWindow.unmatched_open_cb self then f_open_paren fs else []))).
Proof.
  intros Hfs. unfold MainWindow.scan_now, MainWindow._extended_mode,
    MainWindow._unmatched_open_enabled.
  by rewrite (scan_now_list _ _ _ fs Hfs), bind_ret.
Qed.

(** The issues that [_apply_autofixes] and [_count_issues_for_text] go
    through are those of [scan_now]. *)
Lemma window_issue_list (self : MainWindow.t) (text : list ascii) (fs : findings) :
  findings_of text fs ->
  (l ← scan_doc_for_issues text (MainWindow._extended_mode self);
   (if MainWindow._unmatched_open_enabled self then
      i ← extended_unmatched_open_paren text; Ret (l ++ i)
    else Ret l))
  = Ret (first_occurrences (gathered text (MainWindow.extended_cb self) fs)
         ++ (if MainWindow.unmatched_open_cb self then f_open_paren fs else [])).
Proof.
  intros Hfs. unfold MainWindow._extended_mode, MainWindow._unmatched_open_enabled.
  rewrite (scan_doc_gathered text _ fs Hfs), bind_ret.
  destruct Hfs as (_ & _ & _ & _ & _ & _ & _ & H8).
  destruct (MainWindow.unmatched_open_cb self).
  - by rewrite H8, bind_ret.
  - by rewrite app_nil_r.
Qed.

(** ** When a repair raises *)

Lemma semicolons_apply_returns (a : nat) (text : list ascii) :
  exists out, semicolons_apply a text = Ret out.
Proof.
  unfold semicolons_apply. cbv zeta.
  destruct (a - 1 <? length (splitlines text)) eqn:Hlt; [|by eexists].
  apply Nat.ltb_lt in Hlt. destruct (getitem_lt _ _ Hlt) as (l & _ & ->).
  rewrite bind_ret. destruct (endswith (rstrip l) [SEMI]); [by eexists|].
  unfold re_split1. destruct (re_search NOFLAGS re_trailing_comment l); by eexists.
Qed.

Lemma control_paren_apply_cases (a : nat) (text : list ascii) :
  if a - 1 <? length (splitlines text)
  then exists out, control_paren_apply a text = Ret out
  else control_paren_apply a text = Raise IndexError.
Proof.
  unfold control_paren_apply. cbv zeta.
  destruct (a - 1 <? length (splitlines text)) eqn:Hlt.
  - apply Nat.ltb_lt in Hlt. destruct (getitem_lt _ _ Hlt) as (l & _ & ->).
    rewrite bind_ret. by eexists.
  - apply Nat.ltb_ge in Hlt. unfold getitem. by rewrite (lookup_ge_None_2 _ _ Hlt).
Qed.

(** A repair returns, but for that of [paren-control-close] on a text
    that has no line of its number, which raises [IndexError]. *)
Lemma call_cases (f : closure) (text : list ascii) :
  (exists out, call f text = Ret out)
  \/ (exists a, f = Control_paren_apply a /\ length (splitlines text) <= a - 1
                /\ call f text = Raise IndexError).
Proof.
  destruct f as [a| |pos|a|a|ia|pos]; simpl.
  - left. by eexists.
  - left. by eexists.
  - left. by eexists.
  - left. apply semicolons_apply_returns.
  - pose proof (control_paren_apply_cases a text) as H.
    destruct (a - 1 <? length (splitlines text)) eqn:Hlt.
    + by left.
    + right. exists a. apply Nat.ltb_ge in Hlt. done.
  - left. by eexists.
  - left. by eexists.
Qed.

Lemma try_apply_returns (it : Issue) (text : list ascii) :
  exists out, MainWindow.try_apply it text = Ret out.
Proof.
  unfold MainWindow.try_apply. destruct (apply_fn it) as [f|]; [|by eexists].
  destruct (call_cases f text) as [(out & ->)|(a & _ & _ & ->)]; by eexists.
Qed.

Lemma for_each_try_returns (body : nat -> Issue -> list ascii -> outcome (list ascii))
    (l : list Issue) :
  (forall i it text, exists out, body i it text = Ret out) ->
  forall i text, exists out, for_each body i l text = Ret out.
Proof.
  intros Hbody. induction l as [|it l IH]; intros i text; simpl; [by eexists|].
  destruct (Hbody i it text) as (out & ->). rewrite bind_ret. apply IH.
Qed.

(** The loop of [apply_all], over the issues with a repair, does what
    the loop of [_apply_autofixes] does over all the issues. *)
Lemma for_each_auto_issues (l : list Issue) :
  forall i j text,
    for_each (fun _ it text => MainWindow.try_apply it text) i
             (filter (fun it => is_Some (apply_fn it)) l) text
    = for_each (fun _ it text => match apply_fn it with
                                 | Some _ => MainWindow.try_apply it text
                                 | None => Ret text
                                 end) j l text.
Proof.
  induction l as [|it l IH]; intros i j text; [done|].
  rewrite filter_cons. destruct (apply_fn it) as [f|] eqn:Hf.
  - rewrite decide_True by done. simpl. rewrite Hf.
    destruct (try_apply_returns it text) as (out & ->). rewrite !bind_ret. apply IH.
  - rewrite decide_False by (by intros [? ?]). simpl. rewrite Hf, bind_ret. apply IH.
Qed.

Lemma for_each_no_repair (l : list Issue) :
  Forall (fun it => apply_fn it = None) l ->
  forall j text,
    for_each (fun _ it text => match apply_fn it with
                               | Some _ => MainWindow.try_apply it text
                               | None => Ret text
                               end) j l text = Ret text.
Proof.
  induction 1 as [|it l Hit _ IH]; intros j text; simpl; [done|].
  rewrite Hit, bind_ret. apply IH.
Qed.

(** ** Two ways to number the lines *)

Lemma newline_only_app_r (s t : list ascii) : newline_only (s ++ t) -> newline_only t.
Proof.
  intros H i c Hc Hb. specialize (H (length s + i) c).
  rewrite lookup_app_r in H by lia. replace (length s + i - length s) with i in H by lia.
  replace (S (length s + i)) with (length s + S i) in H by lia.
  rewrite lookup_app_r in H by lia. replace (length s + S i - length s) with (S i) in H by lia.
  by apply H.
Qed.

Lemma count_no_break (body : list ascii) : no_break body -> count NL body = 0.
Proof.
  intros H. apply count_none. eapply Forall_impl; [exact H|]. intros c Hc. simpl in Hc.
  destruct (chr_eqb c NL) eqn:Hn; [|done]. apply chr_eqb_eq in Hn as ->. done.
Qed.

Lemma count_take_no_break (body : list ascii) (p : nat) :
  no_break body -> count NL (take p body) = 0.
Proof. intros H. by apply count_no_break, no_break_take. Qed.

(** In such a document a line ends in a newline, with or without a
    carriage return before. *)
Lemma newline_only_term (body term rest : list ascii) (ls : list (list ascii)) :
  no_break body -> is_term term -> adj_ok term ls -> rest = join ls ->
  (forall l ls', ls = l :: ls' -> l <> []) ->
  newline_only ((body ++ term) ++ rest) ->
  term = [NL] \/ term = [CR; NL].
Proof.
  intros Hnb Ht Hadj -> Hne Hnl. destruct Ht as [->|(x & -> & Hx)]; [by right|]. left.
  destruct (Hnl (length body) x) as [->|[-> Hnext]]; [|done|done|].
  { rewrite <- app_assoc, lookup_app_r by lia. by rewrite Nat.sub_diag. }
  exfalso. rewrite <- app_assoc in Hnext.
  replace (S (length body)) with (length body + 1) in Hnext by lia.
  rewrite lookup_app_r in Hnext by lia.
  replace (length body + 1 - length body) with 1 in Hnext by lia.
  simpl in Hnext. destruct ls as [|l ls']; [done|].
  specialize (Hadj eq_refl l ls' eq_refl). specialize (Hne l ls' eq_refl).
  destruct l as [|c l]; [done|]. simpl in *. congruence.
Qed.

Lemma count_nl_line_prefix (body term : list ascii) (p : nat) :
  no_break body -> term = [NL] \/ term = [CR; NL] -> p < length (body ++ term) ->
  count NL (take p (body ++ term)) = 0 /\ count NL (body ++ term) = 1.
Proof.
  intros Hnb Ht Hp. split.
  - rewrite length_app in Hp. rewrite take_app.
    rewrite count_app, count_take_no_break by done.
    destruct Ht as [-> | ->]; simpl in Hp.
    + replace (p - length body) with 0 by lia. done.
    + destruct (p - length body) as [|[|q]] eqn:Hq; [done|done|lia].
  - rewrite count_app, count_no_break by done. by destruct Ht as [-> | ->].
Qed.

Lemma lines_count_nl (ls : list (list ascii)) :
  well_split ls -> newline_only (join ls) ->
  forall k l p, ls !! k = Some l ->
    length (join (take k ls)) <= p < length (join (take k ls)) + length l ->
    count NL (take p (join ls)) = k.
Proof.
  induction 1 as [|body Hne Hnb|body term ls Hnb Ht Hadj Hws IH]; intros Hnl k l p Hk Hp.
  - done.
  - destruct k as [|k]; [|done]. injection Hk as <-. simpl in Hp.
    unfold join. simpl. rewrite app_nil_r. by apply count_take_no_break.
  - change (join ((body ++ term) :: ls)) with ((body ++ term) ++ join ls) in *.
    assert (term = [NL] \/ term = [CR; NL]) as Hterm.
    { eapply newline_only_term; [done|done|exact Hadj|done| |exact Hnl].
      intros l0 ls' ->. by eapply well_split_head_nonempty. }
    destruct k as [|k].
    + injection Hk as <-. simpl in Hp. rewrite take_app_le by lia.
      destruct (count_nl_line_prefix body term p Hnb Hterm) as [H0 _]; [lia|exact H0].
    + simpl in Hk.
      change (join (take (S k) ((body ++ term) :: ls)))
        with ((body ++ term) ++ join (take k ls)) in Hp.
      rewrite length_app in Hp.
      rewrite take_app_ge by lia. rewrite count_app.
      destruct (count_nl_line_prefix body term 0 Hnb Hterm) as [_ ->].
      { rewrite length_app. destruct Hterm as [-> | ->]; simpl; lia. }
      rewrite (IH (newline_only_app_r _ _ Hnl) k l (p - length (body ++ term)) Hk); lia.
Qed.

(** Every offset of the document lies in a line. *)
Lemma offset_in_line (ls : list (list ascii)) (p : nat) :
  Forall (fun l => l <> []) ls -> p < length (join ls) ->
  exists k l, ls !! k = Some l
    /\ length (join (take k ls)) <= p < length (join (take k ls)) + length l.
Proof.
  intros Hne. revert p. induction ls as [|l0 ls IH]; intros p Hp; [simpl in Hp; lia|].
  apply Forall_cons in Hne as [_ Hne].
  change (join (l0 :: ls)) with (l0 ++ join ls) in Hp. rewrite length_app in Hp.
  destruct (decide (p < length l0)) as [Hlt|Hge].
  - exists 0, l0. split; [done|]. simpl. lia.
  - destruct (IH Hne (p - length l0)) as (k & l & Hk & Hb); [lia|].
    exists (S k), l. split; [done|].
    change (join (take (S k) (l0 :: ls))) with (l0 ++ join (take k ls)).
    rewrite length_app. lia.
Qed.

Lemma well_split_nonempty (ls : list (list ascii)) :
  well_split ls -> Forall (fun l => l <> []) ls.
Proof.
  induction 1 as [|body Hne Hnb|body term ls Hnb Ht Hadj Hws IH].
  - constructor.
  - by repeat constructor.
  - constructor; [|done]. destruct Ht as [->|(x & -> & _)]; by destruct body.
Qed.

(** X19: in a document whose line boundaries are newlines, with or
    without a carriage return before, the two ways to number the lines
    agree.  Every offset of the document lies in a line of
    [splitlines], and the number of that line, the one that
    [find_cpptext_missing_brace], [check_semicolons_strict] and
    [extended_control_paren_balance] would report, is the number of
    newlines before the offset, from which [check_defaultproperties]
    and [extended_struct_enum_closer] make the line number of their
    issues. *)
Theorem line_numbers_agree (doc : list ascii) (p : nat) :
  newline_only doc -> p < length doc ->
  in_line doc (count_nl_before doc p) p
  /\ forall k, in_line doc k p -> k = count_nl_before doc p.
Proof.
  intros Hnl Hp.
  pose proof (well_split_splitlines doc) as Hws.
  assert (forall k, in_line doc k p -> count_nl_before doc p = k) as Huniq.
  { intros k (l & Hk & Hb). unfold count_nl_before.
    rewrite <- (join_splitlines doc) at 1.
    apply (lines_count_nl _ Hws) with (l := l); [by rewrite join_splitlines|done|done]. }
  split.
  - destruct (offset_in_line (splitlines doc) p) as (k & l & Hk & Hb).
    { by apply well_split_nonempty. }
    { by rewrite join_splitlines. }
    assert (in_line doc k p) as Hin by (by exists l).
    by rewrite (Huniq k Hin).
  - intros k Hin. by rewrite (Huniq k Hin).
Qed.

Lemma doc_control_newline_only : newline_only doc_control.
Proof.
  intros i c Hc Hb.
  do 23 (destruct i as [|i];
         [vm_compute in Hc; injection Hc as <-; first [discriminate Hb | by left]|]).
  vm_compute in Hc. discriminate Hc.
Qed.

Lemma line_numbers_agree_witness :
  newline_only doc_control /\ 12 < length doc_control
  /\ in_line doc_control (count_nl_before doc_control 12) 12.
Proof.
  split; [apply doc_control_newline_only|]. split; [vm_compute; lia|].
  destruct (line_numbers_agree doc_control 12) as [H _];
    [apply doc_control_newline_only|vm_compute; lia|exact H].
Defined.

(** ** The matches of a word *)

Lemma re_run_lit (fl : flags) (s w : list ascii) :
  forall (st : mstate) (k : mstate -> option mstate),
    re_run fl s (RLit w) st k
    = if lit_at fl s w st.1 then k (st.1 + length w, st.2) else None.
Proof.
  induction w as [|c w IH]; intros [p caps] k.
  - simpl. by rewrite Nat.add_0_r.
  - destruct w as [|c' w'].
    + simpl. destruct (s !! p) as [x|]; [|done].
      rewrite andb_true_r. by replace (p + 1) with (S p) by lia.
    + change (RLit (c :: c' :: w')) with (RSeq (RChar c) (RLit (c' :: w'))).
      change (lit_at fl s (c :: c' :: w') (p, caps).1)
        with (match s !! p with
              | Some x => lit_match fl c x && lit_at fl s (c' :: w') (S p)
              | None => false
              end).
      change (re_run fl s (RSeq (RChar c) (RLit (c' :: w'))) (p, caps) k)
        with (match s !! p with
              | Some x => if lit_match fl c x
                          then re_run fl s (RLit (c' :: w')) (S p, caps) k
                          else None
              | None => None
              end).
      destruct (s !! p) as [x|]; [|done].
      destruct (lit_match fl c x); [|done].
      rewrite IH. simpl fst. simpl snd.
      by replace (S p + length (c' :: w')) with (p + length (c :: c' :: w')) by (simpl; lia).
Qed.

Lemma lit_at_lower (s w : list ascii) :
  forall p, lit_at RE_I s w p = true
            <-> (lower <$> take (length w) (drop p s)) = (lower <$> w).
Proof.
  induction w as [|c w IH]; intros p; [done|].
  simpl lit_at. simpl length. destruct (s !! p) as [x|] eqn:Hx.
  - rewrite (drop_S _ _ _ Hx). simpl take. rewrite !fmap_cons.
    unfold lit_match. simpl ignorecase. cbv iota. rewrite andb_true_iff, IH. split.
    + intros [Hc ->]. by apply chr_eqb_eq in Hc as ->.
    + intros [= -> Ht]. split; [apply Ascii.eqb_refl|done].
  - rewrite (drop_ge s p) by (by apply lookup_ge_None). simpl. split; [done|]. intros [=].
Qed.

(** The pattern of a whole word matches where the word stands. *)
Lemma word_match_at (doc w : list ascii) (p : nat) :
  re_match_at RE_I (RCat [RWordB; RLit w; RWordB]) doc p
  = if at_wordb doc p && lit_at RE_I doc w p && at_wordb doc (p + length w)
    then Some {| m_start := p; m_end := p + length w; m_caps := [] |}
    else None.
Proof.
  unfold re_match_at.
  change (RCat [RWordB; RLit w; RWordB]) with (RSeq RWordB (RSeq (RLit w) RWordB)).
  change (re_run RE_I doc (RSeq RWordB (RSeq (RLit w) RWordB)) (p, []) Some)
    with (if at_wordb doc p
          then re_run RE_I doc (RLit w) (p, [])
                 (fun st' => if at_wordb doc st'.1 then Some st' else None)
          else None).
  destruct (at_wordb doc p); [|done]. rewrite re_run_lit. simpl.
  destruct (lit_at RE_I doc w p); [|done]. simpl.
  by destruct (at_wordb doc (p + length w)).
Qed.

Lemma word_match_iff (doc w : list ascii) (p : nat) (m : rmatch) :
  re_match_at RE_I (RCat [RWordB; RLit w; RWordB]) doc p = Some m
  <-> word_stands_at doc w p /\ m = {| m_start := p; m_end := p + length w; m_caps := [] |}.
Proof.
  rewrite word_match_at. unfold word_stands_at. rewrite <- lit_at_lower.
  destruct (at_wordb doc p), (lit_at RE_I doc w p), (at_wordb doc (p + length w)); simpl;
    split; try done; try (by intros [(? & ? & ?) _]).
  - intros [= <-]. done.
  - intros [_ ->]. done.
Qed.

(** ** All the matches of a pattern of a fixed length *)

Lemma re_finditer_from_sorted (fl : flags) (r : regex) (s : list ascii) (fuel : nat) :
  forall p, StronglySorted (fun a b => m_start a < m_start b) (re_finditer_from fl r s fuel p).
Proof.
  induction fuel as [|fuel IH]; intros p; simpl; [constructor|].
  destruct (re_search_from fl r s (S (length s) - p) p) as [m|] eqn:Hm; [|constructor].
  constructor; [apply IH|].
  eapply Forall_impl; [apply re_finditer_from_bounds|]. simpl. intros m' Hm'. lia.
Qed.

Section FixedLength.
Variable fl : flags.
Variable r : regex.
Variable s : list ascii.
Variable n : nat.
Hypothesis n_pos : 0 < n.
Hypothesis fixed : forall p m, re_match_at fl r s p = Some m ->
  m_start m = p /\ m_end m = p + n /\ p + n <= length s.
Hypothesis apart : forall p q m m', re_match_at fl r s p = Some m ->
  re_match_at fl r s q = Some m' -> p < q -> p + n <= q.

Lemma re_finditer_from_all (fuel : nat) :
  forall p, length s < fuel + p ->
    forall m, m ∈ re_finditer_from fl r s fuel p
              <-> p <= m_start m /\ re_match_at fl r s (m_start m) = Some m.
Proof.
  induction fuel as [|fuel IH]; intros p Hfuel m; simpl.
  - split; [by intros ?%not_elem_of_nil|]. intros [Hp Hm].
    destruct (fixed _ _ Hm) as (_ & _ & Hlen). lia.
  - destruct (re_search_from fl r s (S (length s) - p) p) as [m0|] eqn:Hm0.
    + apply re_search_from_Some in Hm0 as (Hrange & Hat & Hbefore).
      destruct (fixed _ _ Hat) as (_ & Hend & Hlen).
      rewrite elem_of_cons, IH by lia. split.
      * intros [->|[Hp Hm]]; [split; [lia|done]|]. split; [lia|done].
      * intros [Hp Hm].
        destruct (decide (m_start m < m_start m0)) as [Hlt|Hge].
        { rewrite Hbefore in Hm by lia. done. }
        destruct (decide (m_start m = m_start m0)) as [Heq|Hne].
        { left. rewrite Heq in Hm. congruence. }
        right. split; [|done].
        pose proof (apart _ _ _ _ Hat Hm ltac:(lia)). lia.
    + split; [by intros ?%not_elem_of_nil|]. intros [Hp Hm].
      destruct (fixed _ _ Hm) as (_ & _ & Hlen).
      rewrite (re_search_from_None _ _ _ _ _ Hm0 (m_start m)) in Hm by lia. done.
Qed.

Lemma re_finditer_all (m : rmatch) :
  m ∈ re_finditer fl r s <-> re_match_at fl r s (m_start m) = Some m.
Proof.
  unfold re_finditer. rewrite re_finditer_from_all by lia. split; [by intros [_ ?]|].
  intros H. split; [lia|done].
Qed.
End FixedLength.

(** The word [defaultproperties] does not overlap with itself. *)
Lemma word_chars (doc w : list ascii) (p d : nat) (c : ascii) :
  (lower <$> take (length w) (drop p doc)) = (lower <$> w) ->
  w !! d = Some c -> exists x, doc !! (p + d) = Some x /\ lower x = lower c.
Proof.
  intros Heq Hc. apply (f_equal (fun l => l !! d)) in Heq.
  rewrite !list_lookup_fmap, Hc in Heq. simpl in Heq.
  rewrite lookup_take_lt in Heq by (by eapply lookup_lt_Some).
  rewrite lookup_drop in Heq.
  destruct (doc !! (p + d)) as [x|]; [|done]. injection Heq as Heq. by exists x.
Qed.

Lemma defaultproperties_apart (doc : list ascii) (p q : nat) :
  word_stands_at doc DEFAULTPROPERTIES p -> word_stands_at doc DEFAULTPROPERTIES q ->
  p < q -> p + length DEFAULTPROPERTIES <= q.
Proof.
  intros (Hp & _) (Hq & _) Hlt.
  destruct (decide (p + length DEFAULTPROPERTIES <= q)) as [|Hov]; [done|exfalso].
  destruct (word_chars doc DEFAULTPROPERTIES q 0 "d"%char Hq eq_refl) as (x & Hx & Hxd).
  rewrite Nat.add_0_r in Hx.
  assert (exists d, q = p + S d /\ S d < length DEFAULTPROPERTIES) as (d & -> & Hd).
  { exists (q - p - 1). split; lia. }
  assert (forall c, DEFAULTPROPERTIES !! S d = Some c -> lower c <> lower "d"%char) as Hne.
  { change (length DEFAULTPROPERTIES) with 17 in Hd.
    do 16 (destruct d as [|d]; [by intros c [= <-]|]). lia. }
  destruct (lookup_lt_is_Some_2 DEFAULTPROPERTIES (S d) Hd) as [c Hc].
  destruct (word_chars doc DEFAULTPROPERTIES p (S d) c Hp Hc) as (x' & Hx' & Hxc).
  rewrite Hx in Hx'. injection Hx' as <-. apply (Hne c Hc). congruence.
Qed.

Lemma defaultproperties_fixed (doc : list ascii) (p : nat) (m : rmatch) :
  re_match_at RE_I re_defaultproperties doc p = Some m ->
  m_start m = p /\ m_end m = p + length DEFAULTPROPERTIES
  /\ p + length DEFAULTPROPERTIES <= length doc.
Proof.
  intros Hm. apply (word_match_iff doc DEFAULTPROPERTIES) in Hm as [(Hw & _) ->].
  split; [done|]. split; [done|].
  apply (f_equal length) in Hw. rewrite !length_fmap, length_take, length_drop in Hw.
  change (length DEFAULTPROPERTIES) with 17 in *. lia.
Qed.

Lemma defaultproperties_matches (doc : list ascii) (m : rmatch) :
  m ∈ re_finditer RE_I re_defaultproperties doc
  <-> word_stands_at doc DEFAULTPROPERTIES (m_start m)
      /\ m_end m = m_start m + length DEFAULTPROPERTIES /\ m_caps m = [].
Proof.
  rewrite (re_finditer_all RE_I re_defaultproperties doc (length DEFAULTPROPERTIES)).
  - rewrite (word_match_iff doc DEFAULTPROPERTIES). split.
    + intros [Hw Hm]. split; [done|]. rewrite Hm at 1 3. done.
    + intros (Hw & He & Hc). split; [done|]. destruct m as [ms me mc]. simpl in *. congruence.
  - change (length DEFAULTPROPERTIES) with 17. lia.
  - apply defaultproperties_fixed.
  - intros p q m1 m2 H1 H2.
    apply (word_match_iff doc DEFAULTPROPERTIES) in H1 as [H1 _].
    apply (word_match_iff doc DEFAULTPROPERTIES) in H2 as [H2 _].
    by apply (defaultproperties_apart doc).
Qed.

(** ** White space and an opening brace *)

Lemma star_run_S (body : mstate -> (mstate -> option mstate) -> option mstate)
    (k : mstate -> option mstate) (fuel : nat) (st : mstate) :
  star_run body k (S fuel) st
  = match body st (fun st' => if st.1 <? st'.1 then star_run body k fuel st' else None) with
    | Some res => Some res
    | None => k st
    end.
Proof. done. Qed.

Lemma re_run_set (fl : flags) (s : list ascii) (p : ascii -> bool) (st : mstate)
    (k : mstate -> option mstate) :
  re_run fl s (RSet p) st k
  = match s !! st.1 with
    | Some x => if p x then k (S st.1, st.2) else None
    | None => None
    end.
Proof. done. Qed.

Lemma re_run_char (s : list ascii) (c : ascii) (st : mstate) (k : mstate -> option mstate) :
  re_run NOFLAGS s (RChar c) st k
  = match s !! st.1 with
    | Some x => if chr_eqb x c then k (S st.1, st.2) else None
    | None => None
    end.
Proof. done. Qed.

Lemma ws_brace_run (t : list ascii) (fuel : nat) :
  forall pos caps, length t - pos < fuel ->
    match star_run (re_run NOFLAGS t r_s)
            (fun st' => re_run NOFLAGS t (RChar LBRACE) st' Some) fuel (pos, caps) with
    | Some _ => true
    | None => false
    end = brace_follows (drop pos t).
Proof.
  induction fuel as [|fuel IH]; intros pos caps Hfuel; [lia|].
  rewrite star_run_S. unfold r_s at 1. rewrite re_run_set, re_run_char.
  unfold brace_follows. simpl fst. simpl snd.
  destruct (t !! pos) as [x|] eqn:Hx.
  - rewrite (drop_S _ _ _ Hx). simpl lstrip_by.
    destruct (isspace x) eqn:Hsp.
    + rewrite (proj2 (Nat.ltb_lt pos (S pos))) by lia.
      specialize (IH (S pos) caps ltac:(apply lookup_lt_Some in Hx; lia)).
      unfold brace_follows in IH. rewrite <- IH.
      destruct (star_run _ _ fuel (S pos, caps)) as [res|] eqn:Hrun; [done|].
      destruct (chr_eqb x LBRACE) eqn:Hb; [|done].
      apply chr_eqb_eq in Hb as ->. done.
    + by destruct (chr_eqb x LBRACE).
  - rewrite (drop_ge t pos) by (by apply lookup_ge_None). done.
Qed.

(** The pattern of white space and an opening brace matches a text whose
    first character that is not white space is an opening brace. *)
Lemma ws_open_brace_match (t : list ascii) :
  is_match (re_match NOFLAGS re_ws_open_brace t) = brace_follows t.
Proof.
  unfold re_match, re_match_at.
  change (re_run NOFLAGS t re_ws_open_brace (0, []) Some)
    with (star_run (re_run NOFLAGS t r_s)
            (fun st' => re_run NOFLAGS t (RChar LBRACE) st' Some) (S (length t - 0)) (0, [])).
  pose proof (ws_brace_run t (S (length t - 0)) 0 [] ltac:(lia)) as H.
  rewrite drop_0 in H. rewrite <- H.
  by destruct (star_run _ _ _ _).
Qed.

(** ** The document after the repair of [defaultprops-brace] *)

Lemma brace_follows_cons (x : ascii) (t : list ascii) :
  brace_follows (x :: t) = if isspace x then brace_follows t else chr_eqb x LBRACE.
Proof. unfold brace_follows. simpl. by destruct (isspace x). Qed.

(** Whether a brace follows is decided by the text up to its first
    character that is not white space. *)
Lemma brace_follows_prefix (k : nat) :
  forall (t t' : list ascii) (c : ascii),
    (forall i, i <= k -> t' !! i = t !! i) -> t !! k = Some c -> isspace c = false ->
    brace_follows t = brace_follows t'.
Proof.
  induction k as [|k IH]; intros t t' c Hag Hc Hsp.
  - pose proof (Hag 0 ltac:(lia)) as H0. rewrite Hc in H0.
    destruct t as [|x t]; [done|]. destruct t' as [|x' t']; [done|].
    simpl in *. injection Hc as ->. injection H0 as ->.
    by rewrite !brace_follows_cons, Hsp.
  - destruct t as [|x t]; [done|].
    pose proof (Hag 0 ltac:(lia)) as H0. destruct t' as [|x' t']; [done|].
    simpl in H0. injection H0 as ->. rewrite !brace_follows_cons.
    destruct (isspace x); [|done].
    apply (IH t t' c); [|done|done]. intros i Hi. apply (Hag (S i)). lia.
Qed.

Lemma at_wordb_shift (X Y : list ascii) (i d : nat) :
  (forall j, i - 1 <= j <= i -> Y !! (j + d) = X !! j) -> (i = 0 -> d = 0) ->
  at_wordb Y (i + d) = at_wordb X i.
Proof.
  intros Hag H0. unfold at_wordb, word_at. destruct i as [|i].
  - rewrite (H0 eq_refl). simpl. by rewrite <- (Hag 0 ltac:(lia)), (H0 eq_refl), Nat.add_0_r.
  - replace (S i + d) with (S (i + d)) by lia.
    rewrite (Hag i ltac:(lia)). replace (S (i + d)) with (S i + d) by lia.
    by rewrite (Hag (S i) ltac:(lia)).
Qed.

Lemma word_stands_at_lookup (X w : list ascii) (q : nat) :
  word_stands_at X w q
  <-> (forall d c, w !! d = Some c -> exists x, X !! (q + d) = Some x /\ lower x = lower c)
      /\ at_wordb X q = true /\ at_wordb X (q + length w) = true.
Proof.
  unfold word_stands_at. split.
  - intros (Heq & H1 & H2). split; [|done]. intros d c Hc. by eapply word_chars.
  - intros (Hch & H1 & H2). split; [|done]. apply list_eq. intros d.
    rewrite !list_lookup_fmap. destruct (w !! d) as [c|] eqn:Hc.
    + destruct (Hch d c Hc) as (x & Hx & Hl).
      rewrite lookup_take_lt by (by eapply lookup_lt_Some).
      rewrite lookup_drop, Hx. simpl. by rewrite Hl.
    + apply lookup_ge_None in Hc. rewrite lookup_take_ge by lia. done.
Qed.

Lemma word_stands_at_shift (X Y w : list ascii) (q d : nat) :
  (forall j, q - 1 <= j <= q + length w -> Y !! (j + d) = X !! j) -> (q = 0 -> d = 0) ->
  word_stands_at Y w (q + d) <-> word_stands_at X w q.
Proof.
  intros Hag H0. rewrite !word_stands_at_lookup.
  assert (at_wordb Y (q + d) = at_wordb X q) as ->.
  { apply at_wordb_shift; [|done]. intros j Hj. apply Hag. lia. }
  assert (at_wordb Y (q + d + length w) = at_wordb X (q + length w)) as ->.
  { replace (q + d + length w) with (q + length w + d) by lia.
    apply at_wordb_shift; [|lia]. intros j Hj. apply Hag. lia. }
  split; intros (Hch & H1 & H2); (split; [|done]); intros i c Hc;
    destruct (Hch i c Hc) as (x & Hx & Hl); exists x; (split; [|done]).
  - rewrite <- Hag; [by replace (q + i + d) with (q + d + i) by lia|].
    apply lookup_lt_Some in Hc. lia.
  - replace (q + d + i) with (q + i + d) by lia. rewrite Hag; [done|].
    apply lookup_lt_Some in Hc. lia.
Qed.

Lemma lower_d_letter (x : ascii) :
  lower x = lower "d"%char -> isword x = true /\ isspace x = false.
Proof.
  destruct x as [[] [] [] [] [] [] [] []]; vm_compute; intros H; try discriminate H; done.
Qed.

Lemma lower_s_letter (x : ascii) : lower x = lower "s"%char -> isword x = true.
Proof.
  destruct x as [[] [] [] [] [] [] [] []]; vm_compute; intros H; try discriminate H; done.
Qed.

Section Repaired.
Variable doc : list ascii.
Variable p : nat.
Hypothesis stands : word_stands_at doc DEFAULTPROPERTIES p.

Lemma repaired_end : p + 17 <= length doc.
Proof.
  destruct stands as (Hw & _). apply (f_equal length) in Hw.
  rewrite !length_fmap, length_take, length_drop in Hw.
  change (length DEFAULTPROPERTIES) with 17 in *. lia.
Qed.

Lemma repaired_before (i : nat) :
  i < p + 17 -> defaultprops_repaired doc p !! i = doc !! i.
Proof.
  intros Hi. pose proof repaired_end. unfold defaultprops_repaired.
  change (length DEFAULTPROPERTIES) with 17.
  rewrite lookup_app_l by (rewrite length_take; lia). by rewrite lookup_take_lt.
Qed.

Lemma repaired_block (d : nat) :
  d < 5 -> defaultprops_repaired doc p !! (p + 17 + d) = DEFAULTPROPS_BLOCK !! d.
Proof.
  intros Hd. pose proof repaired_end. unfold defaultprops_repaired.
  change (length DEFAULTPROPERTIES) with 17.
  rewrite lookup_app_r by (rewrite length_take; lia).
  rewrite length_take. replace (p + 17 + d - (p + 17) `min` length doc) with d by lia.
  by rewrite lookup_app_l by (simpl; lia).
Qed.

Lemma repaired_after (i : nat) :
  p + 17 <= i -> defaultprops_repaired doc p !! (i + 5) = doc !! i.
Proof.
  intros Hi. pose proof repaired_end. unfold defaultprops_repaired.
  change (length DEFAULTPROPERTIES) with 17.
  rewrite lookup_app_r by (rewrite length_take; lia).
  rewrite length_take. rewrite lookup_app_r by (simpl; lia).
  rewrite lookup_drop. f_equal. simpl. lia.
Qed.

Lemma repaired_drop (n : nat) :
  p + 17 <= n -> drop (n + 5) (defaultprops_repaired doc p) = drop n doc.
Proof.
  intros Hn. apply list_eq. intros i. rewrite !lookup_drop.
  replace (n + 5 + i) with (n + i + 5) by lia. apply repaired_after. lia.
Qed.

Lemma stands_first : exists x, doc !! p = Some x /\ lower x = lower "d"%char.
Proof.
  destruct stands as (Hw & _).
  destruct (word_chars doc DEFAULTPROPERTIES p 0 "d"%char Hw eq_refl) as (x & Hx & Hl).
  rewrite Nat.add_0_r in Hx. by exists x.
Qed.

Lemma stands_last : word_at doc (p + 16) = true /\ word_at doc (p + 17) = false.
Proof.
  destruct stands as (Hw & _ & Hb).
  destruct (word_chars doc DEFAULTPROPERTIES p 16 "s"%char Hw eq_refl) as (x & Hx & Hl).
  assert (word_at doc (p + 16) = true) as H16.
  { unfold word_at. rewrite Hx. by apply lower_s_letter. }
  split; [done|]. change (length DEFAULTPROPERTIES) with 17 in Hb.
  unfold at_wordb in Hb. replace (p + 17) with (S (p + 16)) in Hb by lia.
  rewrite H16 in Hb. replace (p + 17) with (S (p + 16)) by lia.
  by destruct (word_at doc (S (p + 16))).
Qed.

(** The word still stands at [p], and a brace follows it. *)
Lemma repaired_stands : word_stands_at (defaultprops_repaired doc p) DEFAULTPROPERTIES p.
Proof.
  pose proof stands as Hs. rewrite word_stands_at_lookup in Hs.
  destruct Hs as (Hch & H1 & H2). apply word_stands_at_lookup. split; [|split].
  - intros d c Hc. destruct (Hch d c Hc) as (x & Hx & Hl). exists x. split; [|done].
    rewrite repaired_before; [done|]. apply lookup_lt_Some in Hc.
    change (length DEFAULTPROPERTIES) with 17 in Hc. lia.
  - rewrite <- H1.
    pose proof (at_wordb_shift doc (defaultprops_repaired doc p) p 0) as Hsh.
    rewrite Nat.add_0_r in Hsh. apply Hsh; [|done].
    intros j Hj. rewrite Nat.add_0_r. apply repaired_before. lia.
  - change (length DEFAULTPROPERTIES) with 17. destruct stands_last as [H16 _].
    unfold at_wordb, word_at in *. replace (p + 17) with (S (p + 16)) by lia.
    rewrite repaired_before by lia.
    replace (S (p + 16)) with (p + 17 + 0) by lia. rewrite repaired_block by lia.
    simpl. by destruct (doc !! (p + 16)) as [x|]; [destruct (isword x)|].
Qed.

Lemma repaired_not_flagged : ~ defaultprops_flagged (defaultprops_repaired doc p) p.
Proof.
  intros [_ Hnb]. rewrite ws_open_brace_match in Hnb.
  change (length DEFAULTPROPERTIES) with 17 in Hnb.
  assert (drop (p + 17) (defaultprops_repaired doc p)
          = DEFAULTPROPS_BLOCK ++ drop (p + 17) doc) as Heq.
  { pose proof repaired_end. unfold defaultprops_repaired.
    change (length DEFAULTPROPERTIES) with 17.
    rewrite drop_app_length'; [done|]. rewrite length_take. lia. }
  rewrite Heq in Hnb. done.
Qed.

(** An occurrence before [p]. *)
Lemma repaired_flagged_before (q : nat) :
  q + 17 <= p ->
  defaultprops_flagged (defaultprops_repaired doc p) q <-> defaultprops_flagged doc q.
Proof.
  intros Hq. unfold defaultprops_flagged. change (length DEFAULTPROPERTIES) with 17.
  rewrite !ws_open_brace_match.
  assert (word_stands_at (defaultprops_repaired doc p) DEFAULTPROPERTIES q
          <-> word_stands_at doc DEFAULTPROPERTIES q) as ->.
  { pose proof (word_stands_at_shift doc (defaultprops_repaired doc p)
                  DEFAULTPROPERTIES q 0) as Hsh.
    rewrite Nat.add_0_r in Hsh. apply Hsh; [|done].
    intros j Hj. change (length DEFAULTPROPERTIES) with 17 in Hj.
    rewrite Nat.add_0_r. apply repaired_before. lia. }
  destruct stands_first as (x & Hx & Hl). apply lower_d_letter in Hl as [_ Hsp].
  rewrite (brace_follows_prefix (p - (q + 17)) (drop (q + 17) doc)
             (drop (q + 17) (defaultprops_repaired doc p)) x); [done| |by rewrite lookup_drop; replace (q + 17 + (p - (q + 17))) with p by lia|done].
  intros i Hi. rewrite !lookup_drop. apply repaired_before. lia.
Qed.

(** An occurrence after [p]. *)
Lemma repaired_flagged_after (q : nat) :
  p + 17 < q ->
  defaultprops_flagged (defaultprops_repaired doc p) (q + 5) <-> defaultprops_flagged doc q.
Proof.
  intros Hq. unfold defaultprops_flagged. change (length DEFAULTPROPERTIES) with 17.
  replace (q + 5 + 17) with (q + 17 + 5) by lia. rewrite repaired_drop by lia.
  assert (word_stands_at (defaultprops_repaired doc p) DEFAULTPROPERTIES (q + 5)
          <-> word_stands_at doc DEFAULTPROPERTIES q) as ->; [|done].
  apply word_stands_at_shift; [|lia]. intros j Hj. apply repaired_after. lia.
Qed.

(** Where the word can stand, before the repair and after. *)
Lemma stands_places (q : nat) :
  word_stands_at doc DEFAULTPROPERTIES q -> q + 17 <= p \/ q = p \/ p + 17 < q.
Proof.
  intros Hq.
  destruct (decide (q < p)) as [Hlt|Hge].
  { left. pose proof (defaultproperties_apart doc q p Hq stands Hlt) as H.
    by change (length DEFAULTPROPERTIES) with 17 in H. }
  destruct (decide (q = p)) as [->|Hne]; [by right; left|]. right. right.
  pose proof (defaultproperties_apart doc p q stands Hq ltac:(lia)) as H.
  change (length DEFAULTPROPERTIES) with 17 in H.
  destruct (decide (q = p + 17)) as [->|]; [|lia]. exfalso.
  destruct Hq as (Hw & _).
  destruct (word_chars doc DEFAULTPROPERTIES (p + 17) 0 "d"%char Hw eq_refl) as (x & Hx & Hl).
  rewrite Nat.add_0_r in Hx. apply lower_d_letter in Hl as [Hword _].
  destruct stands_last as [_ H17]. unfold word_at in H17. rewrite Hx in H17. congruence.
Qed.

Lemma repaired_places (q : nat) :
  word_stands_at (defaultprops_repaired doc p) DEFAULTPROPERTIES q ->
  q + 17 <= p \/ q = p \/ p + 17 + 5 < q.
Proof.
  intros Hq.
  destruct (decide (q < p)) as [Hlt|Hge].
  { left. pose proof (defaultproperties_apart _ q p Hq repaired_stands Hlt) as H.
    by change (length DEFAULTPROPERTIES) with 17 in H. }
  destruct (decide (q = p)) as [->|Hne]; [by right; left|]. right. right.
  pose proof (defaultproperties_apart _ p q repaired_stands Hq ltac:(lia)) as H.
  change (length DEFAULTPROPERTIES) with 17 in H.
  destruct Hq as (Hw & _).
  destruct (word_chars _ DEFAULTPROPERTIES q 0 "d"%char Hw eq_refl) as (x & Hx & Hl).
  rewrite Nat.add_0_r in Hx. pose proof (lower_d_letter x Hl) as [Hword _].
  destruct (decide (p + 17 + 5 < q)) as [|Hin]; [done|exfalso].
  destruct (decide (q = p + 17 + 5)) as [->|Hne5].
  - replace (p + 17 + 5) with (p + 17 + 5) in Hx by lia.
    rewrite repaired_after in Hx by lia.
    destruct stands_last as [_ H17]. unfold word_at in H17. rewrite Hx in H17. congruence.
  - assert (exists d, q = p + 17 + d /\ d < 5) as (d & -> & Hd) by (exists (q - (p + 17)); lia).
    rewrite repaired_block in Hx by lia.
    do 5 (destruct d as [|d]; [injection Hx as <-; discriminate Hl|]). lia.
Qed.

(** The occurrences that the scan of the repaired document reports:
    those of the document before [p], and those after [p], five
    characters further. *)
Lemma repaired_flagged (q : nat) :
  defaultprops_flagged (defaultprops_repaired doc p) q
  <-> (q + 17 <= p /\ defaultprops_flagged doc q)
      \/ (p + 17 + 5 < q /\ defaultprops_flagged doc (q - 5)).
Proof.
  split.
  - intros Hf. destruct (repaired_places q (proj1 Hf)) as [Hq|[->|Hq]].
    + left. split; [done|]. by apply repaired_flagged_before.
    + by apply repaired_not_flagged in Hf.
    + right. split; [done|]. apply repaired_flagged_after; [lia|].
      by replace (q - 5 + 5) with q by lia.
  - intros [[Hq Hf]|[Hq Hf]].
    + by apply repaired_flagged_before.
    + replace q with (q - 5 + 5) by lia. apply repaired_flagged_after; [lia|done].
Qed.
End Repaired.

(** ** The line counter of the parenthesis walk *)

Lemma count_nl_next (doc : list ascii) (j : nat) :
  count_nl_before doc (j + 1)
  = count_nl_before doc j
    + match doc !! j with
      | Some c => if chr_eqb c NL then 1 else 0
      | None => 0
      end.
Proof.
  unfold count_nl_before. rewrite Nat.add_1_r. destruct (doc !! j) as [c|] eqn:Hc.
  - rewrite (take_S_r _ _ _ Hc), count_app, count_cons, count_nil. lia.
  - apply lookup_ge_None in Hc. rewrite !take_ge by lia. lia.
Qed.

Lemma count_nl_next_other (doc : list ascii) (j : nat) (c : ascii) :
  doc !! j = Some c -> chr_eqb c NL = false ->
  count_nl_before doc (j + 1) = count_nl_before doc j.
Proof. intros Hc Hn. rewrite count_nl_next, Hc, Hn. lia. Qed.

Lemma skip_line_comment_lines (doc : list ascii) (j : nat) :
  j <= length doc ->
  returns (skip_line_comment doc j)
          (fun j' => j <= j' <= length doc
                     /\ count_nl_before doc j' = count_nl_before doc j).
Proof.
  intros Hj. unfold skip_line_comment.
  apply (loop_rule (fun j' => j <= j' <= length doc
                              /\ count_nl_before doc j' = count_nl_before doc j)
                   (fun j' => length doc - j')); [|split; [lia|done]|lia].
  intros j' [Hj' Hc]. unfold skip_line_comment_step.
  destruct (j' <? length doc) eqn:Hlt; simpl; [|by split].
  apply Nat.ltb_lt in Hlt. destruct (getitem_lt doc j' Hlt) as (c & Hc' & ->). simpl.
  destruct (chr_eqb c NL) eqn:Hn; simpl; [by split|].
  rewrite (count_nl_next_other doc j' c Hc' Hn). lia.
Qed.

Ltac line_rel_lia exact :=
  unfold line_rel in *; destruct exact; lia.

Lemma skip_block_comment_lines (exact : bool) (doc : list ascii) (i : nat) (line : Z) :
  i + 2 <= length doc ->
  count_nl_before doc (i + 2) = count_nl_before doc i ->
  returns (skip_block_comment doc i line)
          (fun r => r.1 < length doc ->
                    line_rel exact (r.2 - Z.of_nat (count_nl_before doc r.1))
                                   (line - Z.of_nat (count_nl_before doc i))).
Proof.
  intros Hi Hstart. unfold skip_block_comment.
  eapply returns_bind.
  - apply (loop_rule
             (fun st => i + 2 <= st.1
                        /\ line_rel exact (st.2 - Z.of_nat (count_nl_before doc st.1))
                                          (line - Z.of_nat (count_nl_before doc i)))
             (fun st => length doc - st.1)
             (fun st => line_rel exact (st.2 - Z.of_nat (count_nl_before doc st.1))
                                       (line - Z.of_nat (count_nl_before doc i))
                        /\ (st.1 + 1 < length doc ->
                            doc !! st.1 = Some STAR /\ doc !! (st.1 + 1) = Some SLASH)));
      [|simpl; split; [lia|line_rel_lia exact]|simpl; lia].
    intros [j l] [Hj Hl]. simpl in Hj, Hl. unfold skip_block_comment_step.
    destruct (j + 1 <? length doc) eqn:Hlt; simpl.
    2:{ apply Nat.ltb_ge in Hlt. split; [done|lia]. }
    apply Nat.ltb_lt in Hlt.
    destruct (getitem_lt doc j ltac:(lia)) as (c & Hc & ->). simpl.
    destruct (getitem_lt doc (j + 1) Hlt) as (c1 & Hc1 & Hg1).
    pose proof (count_nl_next doc j) as Hn. rewrite Hc in Hn.
    destruct (chr_eqb c STAR) eqn:Hst; simpl.
    + rewrite Hg1. simpl. destruct (chr_eqb c1 SLASH) eqn:Hsl; simpl.
      * apply chr_eqb_eq in Hst as ->. apply chr_eqb_eq in Hsl as ->. done.
      * destruct (chr_eqb c NL); (split; [split; [lia|]|lia]); line_rel_lia exact.
    + destruct (chr_eqb c NL); (split; [split; [lia|]|lia]); line_rel_lia exact.
  - intros [j l] [Hl Hend]. simpl in *. intros Hlt.
    assert (j + 2 < length doc) as Hj2 by lia.
    rewrite Nat.min_l by lia.
    destruct (Hend ltac:(lia)) as [Hc Hc1].
    replace (j + 2) with (j + 1 + 1) by lia.
    rewrite (count_nl_next_other doc (j + 1) SLASH Hc1 eq_refl),
            (count_nl_next_other doc j STAR Hc eq_refl). exact Hl.
Qed.

Lemma skip_string_lines (exact : bool) (doc : list ascii) (i : nat) (quote : ascii)
    (line : Z) :
  (exact = true -> no_escaped_newline doc) -> chr_eqb quote NL = false ->
  count_nl_before doc (i + 1) = count_nl_before doc i ->
  returns (skip_string doc i quote line)
          (fun r => line_rel exact (r.2 - Z.of_nat (count_nl_before doc r.1))
                                   (line - Z.of_nat (count_nl_before doc i))).
Proof.
  intros Hesc Hq Hstart. unfold skip_string.
  apply (loop_rule (fun st => line_rel exact (st.2 - Z.of_nat (count_nl_before doc st.1))
                                             (line - Z.of_nat (count_nl_before doc i)))
                   (fun st => length doc - st.1));
    [|simpl; line_rel_lia exact|simpl; lia].
  intros [j l] Hl. simpl in Hl. unfold skip_string_step.
  destruct (j <? length doc) eqn:Hlt; simpl; [|done].
  apply Nat.ltb_lt in Hlt.
  destruct (getitem_lt doc j Hlt) as (c & Hc & ->). simpl.
  pose proof (count_nl_next doc j) as Hn. rewrite Hc in Hn.
  destruct (chr_eqb c BACKSLASH) eqn:Hb; simpl.
  { apply chr_eqb_eq in Hb as ->. split; [|lia].
    change (chr_eqb BACKSLASH NL) with false in Hn. cbv iota in Hn.
    replace (j + 2) with (j + 1 + 1) by lia.
    pose proof (count_nl_next doc (j + 1)) as Hn1.
    destruct (doc !! (j + 1)) as [c1|] eqn:Hc1; [|line_rel_lia exact].
    destruct (chr_eqb c1 NL) eqn:Hnl; [|line_rel_lia exact].
    apply chr_eqb_eq in Hnl as ->. unfold line_rel in *. destruct exact; [|lia].
    by destruct (Hesc eq_refl j Hc). }
  destruct (chr_eqb c quote) eqn:Hcq; simpl.
  { apply chr_eqb_eq in Hcq as ->. rewrite Hq in Hn. line_rel_lia exact. }
  destruct (chr_eqb c NL); (split; [|lia]); line_rel_lia exact.
Qed.

Lemma lex_at_lines (exact : bool) (doc : list ascii) (i : nat) (line : Z) :
  (exact = true -> no_escaped_newline doc) -> i < length doc ->
  returns (lex_at doc i line) (lexeme_line exact doc i line).
Proof.
  intros Hesc Hi. unfold lex_at.
  destruct (getitem_lt doc i Hi) as (c & Hc & ->). simpl.
  pose proof (count_nl_next doc i) as Hn. rewrite Hc in Hn.
  destruct (chr_eqb c NL) eqn:Hnl; [exact Hn|].
  rewrite Nat.add_0_r in Hn.
  assert (returns ('(j, line') ← skip_string doc i c line; Ret (LSkipTo j line'))
                  (lexeme_line exact doc i line)) as Hstring.
  { eapply returns_bind; [by apply skip_string_lines|].
    intros [j l] Hj. simpl in *. intros _. exact Hj. }
  destruct (chr_eqb c SLASH) eqn:Hsl; simpl.
  - destruct (i + 1 <? length doc) eqn:Hlt; simpl.
    + apply Nat.ltb_lt in Hlt.
      destruct (getitem_lt doc (i + 1) Hlt) as (c1 & Hc1 & ->). simpl.
      destruct (chr_eqb c1 SLASH) eqn:Hs1; simpl.
      * apply chr_eqb_eq in Hs1 as ->.
        eapply returns_bind; [apply skip_line_comment_lines; lia|].
        intros j [_ Hj]. simpl. intros _. rewrite Hj.
        replace (i + 2) with (i + 1 + 1) by lia.
        rewrite (count_nl_next_other doc (i + 1) SLASH Hc1 eq_refl), Hn.
        unfold line_rel. destruct exact; lia.
      * destruct (chr_eqb c1 STAR) eqn:Hs2; simpl.
        -- apply chr_eqb_eq in Hs2 as ->.
           eapply returns_bind.
           ++ apply (skip_block_comment_lines exact); [lia|].
              replace (i + 2) with (i + 1 + 1) by lia.
              by rewrite (count_nl_next_other doc (i + 1) STAR Hc1 eq_refl).
           ++ intros [j l] Hj. simpl in *. exact Hj.
        -- destruct (chr_eqb c SQUOTE || chr_eqb c DQUOTE); simpl; [exact Hstring|done].
    + destruct (chr_eqb c SQUOTE || chr_eqb c DQUOTE); simpl; [exact Hstring|done].
  - destruct (chr_eqb c SQUOTE || chr_eqb c DQUOTE); simpl; [exact Hstring|done].
Qed.

(** The line that the walk gives to a parenthesis it keeps is at most
    one plus the number of newlines before it, and exactly that when no
    newline is escaped. *)
Lemma paren_tokens_lines (exact : bool) (doc : list ascii) :
  (exact = true -> no_escaped_newline doc) ->
  returns (paren_tokens doc)
          (Forall (fun t : token =>
                     line_rel exact t.1.2 (Z.of_nat (count_nl_before doc t.1.1 + 1)))).
Proof.
  intros Hesc. unfold paren_tokens.
  apply (loop_rule
           (fun st : nat * Z * list token =>
              (st.1.1 < length doc ->
               line_rel exact st.1.2 (Z.of_nat (count_nl_before doc st.1.1 + 1)))
              /\ Forall (fun t : token =>
                           line_rel exact t.1.2 (Z.of_nat (count_nl_before doc t.1.1 + 1)))
                        st.2)
           (fun st => length doc - st.1.1)); [| |simpl; lia].
  - intros [[i line] toks] (Hline & Hf). simpl in *. unfold paren_token_step.
    destruct (i <? length doc) eqn:Hlt; [|done].
    apply Nat.ltb_lt in Hlt. specialize (Hline Hlt).
    eapply returns_bind.
    { apply returns_and; [by apply lex_at_returns|by apply (lex_at_lines exact)]. }
    intros [|i' line'|c] [Hok Hlx]; simpl in *.
    + split; [|lia]. split; [|done]. intros _. line_rel_lia exact.
    + split; [|lia]. split; [|done]. intros Hi'. specialize (Hlx Hi').
      line_rel_lia exact.
    + split; [|lia]. split; [intros _; line_rel_lia exact|].
      destruct (chr_eqb c LPAREN || chr_eqb c RPAREN); [|done].
      apply Forall_app. split; [done|]. constructor; [|constructor]. done.
  - simpl. split; [intros _|constructor]. unfold line_rel. by destruct exact.
Qed.

Lemma no_backslash_no_escape (doc : list ascii) :
  Forall (fun c => chr_eqb c BACKSLASH = false) doc -> no_escaped_newline doc.
Proof.
  intros Hf j Hj. rewrite Forall_lookup in Hf. by specialize (Hf _ _ Hj).
Qed.

(** ** The braces of a block *)

Lemma count_take_next (c : ascii) (s : list ascii) (j : nat) :
  count c (take (j + 1) s)
  = count c (take j s)
    + match s !! j with
      | Some x => if chr_eqb x c then 1 else 0
      | None => 0
      end.
Proof.
  rewrite Nat.add_1_r. destruct (s !! j) as [x|] eqn:Hx.
  - rewrite (take_S_r _ _ _ Hx), count_app, count_cons, count_nil. lia.
  - apply lookup_ge_None in Hx. rewrite !take_ge by lia. lia.
Qed.

Lemma block_depth_start (text : list ascii) (from : nat) : block_depth text from from = 1%Z.
Proof. unfold block_depth. by rewrite Nat.sub_diag, take_0. Qed.

Lemma block_depth_next (text : list ascii) (from k : nat) :
  from <= k ->
  block_depth text from (k + 1)
  = (block_depth text from k
     + match text !! k with
       | Some x => if chr_eqb x LBRACE then 1 else if chr_eqb x RBRACE then -1 else 0
       | None => 0
       end)%Z.
Proof.
  intros Hk. unfold block_depth.
  replace (k + 1 - from) with (k - from + 1) by lia.
  rewrite !count_take_next, lookup_drop.
  replace (from + (k - from)) with k by lia.
  destruct (text !! k) as [x|]; [|lia].
  destruct (chr_eqb x LBRACE) eqn:Hl.
  - apply chr_eqb_eq in Hl as ->. change (chr_eqb LBRACE RBRACE) with false.
    change (chr_eqb LBRACE LBRACE) with true. cbv iota. lia.
  - destruct (chr_eqb x RBRACE); cbv iota; lia.
Qed.

Lemma block_depth_flat (text : list ascii) (from a : nat) :
  from <= a ->
  forall d,
    (forall q c, a <= q < a + d -> text !! q = Some c -> is_brace c = false) ->
    block_depth text from (a + d) = block_depth text from a.
Proof.
  intros Ha. induction d as [|d IH]; intros Hflat.
  - by rewrite Nat.add_0_r.
  - replace (a + S d) with (a + d + 1) by lia.
    rewrite block_depth_next by lia.
    rewrite IH by (intros q c Hq; apply Hflat; lia).
    destruct (text !! (a + d)) as [x|] eqn:Hx; [|lia].
    specialize (Hflat (a + d) x ltac:(lia) Hx). unfold is_brace in Hflat.
    apply orb_false_iff in Hflat as [-> ->]. lia.
Qed.

Lemma re_match_at_brace_None (s : list ascii) (q : nat) (c : ascii) :
  re_match_at NOFLAGS re_brace s q = None -> s !! q = Some c -> is_brace c = false.
Proof.
  unfold re_match_at, re_brace. simpl. intros Hm Hc. rewrite Hc in Hm.
  unfold is_brace. by destruct (chr_eqb c _ || chr_eqb c _).
Qed.

Lemma re_search_brace_None (s : list ascii) :
  re_search NOFLAGS re_brace s = None ->
  forall q c, s !! q = Some c -> is_brace c = false.
Proof.
  unfold re_search. intros Hs q c Hc.
  apply (re_match_at_brace_None s q); [|done].
  apply (re_search_from_None _ _ _ _ _ Hs). apply lookup_lt_Some in Hc. lia.
Qed.

Lemma re_search_brace_Some (s : list ascii) (m : rmatch) :
  re_search NOFLAGS re_brace s = Some m ->
  (exists c, s !! m_start m = Some c /\ is_brace c = true)
  /\ forall q c, q < m_start m -> s !! q = Some c -> is_brace c = false.
Proof.
  intros Hs. split.
  - apply re_search_set in Hs as (c & Hc & Hp & _). by exists c.
  - unfold re_search in Hs. apply re_search_from_Some in Hs as (_ & _ & Hbefore).
    intros q c Hq Hc. apply (re_match_at_brace_None s q); [|done]. apply Hbefore. lia.
Qed.

(** The [while True] of [extended_struct_enum_closer] comes out with the
    count at zero when the block closes; when it does not, it comes out
    past the last brace of the text. *)
Lemma struct_enum_loop_spec (text : list ascii) (from : nat) :
  from <= length text ->
  returns (loop (S (length text)) (struct_enum_step text) (1%Z, from))
          (fun st => (st.1 = 0%Z /\ block_closes text from)
                     \/ (st.1 <> 0%Z /\ ~ block_closes text from
                         /\ past_braces text from st.2)).
Proof.
  intros Hfrom.
  apply (loop_rule
           (fun st : Z * nat =>
              from <= st.2 <= length text
              /\ (1 <= st.1)%Z /\ block_depth text from st.2 = st.1
              /\ (forall k, from <= k <= st.2 -> block_depth text from k <> 0%Z)
              /\ (st.2 = from
                  \/ from < st.2
                     /\ exists c, text !! (st.2 - 1) = Some c /\ is_brace c = true))
           (fun st => length text - st.2)); [| |simpl; lia].
  - intros [count pos] (Hpos & Hcount & Hdepth & Hopen & Hlast). simpl in *.
    unfold struct_enum_step.
    destruct (re_search NOFLAGS re_brace (drop pos text)) as [nxt|] eqn:Hnxt.
    + apply re_search_brace_Some in Hnxt as [(c & Hc & Hbr) Hbefore].
      rewrite lookup_drop in Hc.
      unfold getitem. rewrite Hc. simpl.
      pose proof (lookup_lt_Some _ _ _ Hc) as Hlt.
      assert (forall d, d <= m_start nxt ->
                block_depth text from (pos + d) = count) as Hflat.
      { intros d Hd. rewrite block_depth_flat; [done|lia|].
        intros q x Hq Hx. apply (Hbefore (q - pos)); [lia|].
        rewrite lookup_drop. by replace (pos + (q - pos)) with q by lia. }
      assert (block_depth text from (pos + m_start nxt + 1)
              = if chr_eqb c LBRACE then (count + 1)%Z else (count - 1)%Z) as Hnext.
      { rewrite block_depth_next, Hflat, Hc by lia.
        destruct (chr_eqb c LBRACE) eqn:Hl; [done|].
        unfold is_brace in Hbr. rewrite Hl in Hbr. simpl in Hbr. rewrite Hbr. lia. }
      set (count' := if chr_eqb c LBRACE then (count + 1)%Z else (count - 1)%Z) in *.
      assert (0 <= count')%Z as Hc' by (unfold count'; destruct (chr_eqb c LBRACE); lia).
      destruct (count' =? 0)%Z eqn:Hz; simpl.
      * apply Z.eqb_eq in Hz. left. split; [done|].
        exists (pos + m_start nxt + 1). split; [lia|]. by rewrite Hnext.
      * apply Z.eqb_neq in Hz. split; [|lia].
        split; [lia|]. split; [lia|]. split; [done|]. split.
        -- intros k Hk. destruct (decide (k <= pos)) as [Hle|Hgt]; [apply Hopen; lia|].
           destruct (decide (k = pos + m_start nxt + 1)) as [->|Hne]; [by rewrite Hnext|].
           replace k with (pos + (k - pos)) by lia. rewrite Hflat by lia. lia.
        -- right. split; [lia|]. exists c.
           by replace (pos + m_start nxt + 1 - 1) with (pos + m_start nxt) by lia.
    + simpl. right. split; [lia|].
      assert (forall q x, pos <= q -> text !! q = Some x -> is_brace x = false) as Hnone.
      { intros q x Hq Hx. apply (re_search_brace_None _ Hnxt (q - pos)).
        rewrite lookup_drop. by replace (pos + (q - pos)) with q by lia. }
      split; [|split; [lia|split; [exact Hnone|exact Hlast]]].
      intros (k & Hk & Hzero).
      destruct (decide (k <= pos)) as [Hle|Hgt]; [by apply (Hopen k ltac:(lia))|].
      replace k with (pos + (k - pos)) in Hzero by lia.
      rewrite block_depth_flat in Hzero; [lia|lia|].
      intros q x Hq Hx. apply (Hnone q x); [lia|done].
  - simpl. split; [lia|]. split; [lia|]. split; [apply block_depth_start|].
    split; [|by left]. intros k Hk. replace k with from by lia.
    rewrite block_depth_start. lia.
Qed.

Lemma open_blocks_snoc_closed (text : list ascii) (ms : list rmatch) (its : list Issue)
    (m : rmatch) :
  open_blocks text ms its -> block_closes text (m_end m) ->
  open_blocks text (ms ++ [m]) its.
Proof.
  intros Hob Hm. induction Hob; simpl.
  - apply open_blocks_closed; [done|constructor].
  - by apply open_blocks_closed.
  - by apply open_blocks_open.
Qed.

Lemma open_blocks_snoc_open (text : list ascii) (ms : list rmatch) (its : list Issue)
    (m : rmatch) (it : Issue) :
  open_blocks text ms its -> ~ block_closes text (m_end m) ->
  struct_enum_issue_at text m it ->
  open_blocks text (ms ++ [m]) (its ++ [it]).
Proof.
  intros Hob Hm Hit. induction Hob; simpl.
  - apply open_blocks_open; [done|done|constructor].
  - by apply open_blocks_closed.
  - by apply open_blocks_open.
Qed.

(** ** Well nested parentheses *)

(** The opening parentheses that nothing closes and the closing ones,
    against the opening ones and the closing ones that close nothing. *)
Lemma unmatched_balance (toks : list token) :
  length (unmatched_opens toks) + closes toks = opens toks + max_surplus toks.
Proof.
  induction toks as [|t r IH]; [done|].
  rewrite opens_cons, closes_cons. simpl.
  destruct (is_open t); simpl.
  - destruct (max_surplus r) as [|m]; simpl; lia.
  - lia.
Qed.

Lemma opens_app (a b : list token) : opens (a ++ b) = opens a + opens b.
Proof. unfold opens. by rewrite filter_app, length_app. Qed.

Lemma closes_app (a b : list token) : closes (a ++ b) = closes a + closes b.
Proof. unfold closes. by rewrite filter_app, length_app. Qed.

Lemma first_unmatched_close_None (toks : list token) :
  first_unmatched_close 0 toks = None <-> never_surplus 0 toks.
Proof.
  pose proof (first_unmatched_close_spec toks 0) as Hspec.
  destruct (first_unmatched_close 0 toks) as [t|]; [|done].
  destruct Hspec as (pre & post & -> & Ht & _ & Heq).
  split; [done|]. intros Hns.
  specialize (Hns (pre ++ [t])).
  rewrite closes_app, opens_app, closes_cons, opens_cons, Ht in Hns.
  change (closes []) with 0 in Hns. change (opens []) with 0 in Hns.
  assert (pre ++ [t] `prefix_of` pre ++ t :: post) as Hpre.
  { exists post. by rewrite <- app_assoc. }
  specialize (Hns Hpre). lia.
Qed.

(** * Further properties of the program

    ** The detectors that read line by line *)

(** X1: [find_cpptext_missing_brace] reports the lines that hold the
    word [cpptext], in any case of the letters, and no opening brace,
    where the next line that is neither blank nor a comment of two
    slashes does not start, after white space, with an opening brace,
    or where there is no such line.  There is one issue
    [cpptext-brace] for each such line and for no other, by growing
    line number; the line number counts from 1 and the span is the
    line, line boundary included. *)
Theorem cpptext_reports (doc : list ascii) :
  returns (find_cpptext_missing_brace doc)
          (reports_lines doc (cpptext_flagged (splitlines doc)) "cpptext-brace").
Proof.
  unfold find_cpptext_missing_brace. eapply returns_bind.
  - apply (for_each_rule
             (fun k st => st.2 = length (join (take k (splitlines doc)))
                          /\ reports_lines_upto doc (cpptext_flagged (splitlines doc))
                               "cpptext-brace" k st.1)) with (i := 0);
      [|split; [done|apply reports_lines_nil]].
    intros k x [issues offs] Hk Hinv. change (0 + k) with k in *. unfold cpptext_body.
    destruct (is_match (re_search RE_I re_cpptext x)) eqn:Hm.
    2: { eapply reports_inv_skip; [done| |done]. unfold cpptext_flagged. by rewrite Hm. }
    destruct (contains LBRACE x) eqn:Hbrace.
    { eapply reports_inv_skip; [done| |done]. unfold cpptext_flagged. by rewrite Hm, Hbrace. }
    destruct (cpptext_skip_next (splitlines doc) (S (length (splitlines doc))) (k + 1))
      as (j & Hj & Hnext); [lia|].
    rewrite Hj, bind_ret, Hnext, bind_ret.
    destruct (is_match (re_match NOFLAGS re_open_brace_line
                          (next_code_line (drop (k + 1) (splitlines doc))))) eqn:Hopen;
      simpl negb; cbv iota.
    + eapply reports_inv_skip; [done| |done].
      unfold cpptext_flagged. by rewrite Hm, Hbrace, Hopen.
    + eapply reports_inv_add; [done| |done|done|done|done].
      unfold cpptext_flagged. by rewrite Hm, Hbrace, Hopen.
  - intros [issues offs] [_ H]. exact H.
Qed.

(** X2: [check_semicolons_strict] reports the lines that, once stripped
    of the white space at both ends, are not empty, do not start with
    two slashes or with a slash and a star, do not end with a brace,
    match the pattern of a variable declaration or of an assignment,
    and do not end with a semicolon.  There is one issue
    [semicolon-missing] for each such line and for no other, by growing
    line number; the line number counts from 1 and the span is the
    line, line boundary included. *)
Theorem semicolons_reports (doc : list ascii) :
  returns (check_semicolons_strict doc)
          (reports_lines doc (fun _ => semicolons_flagged) "semicolon-missing").
Proof.
  unfold check_semicolons_strict. eapply returns_bind.
  - apply (for_each_rule
             (fun k st => st.2 = length (join (take k (splitlines doc)))
                          /\ reports_lines_upto doc (fun _ => semicolons_flagged)
                               "semicolon-missing" k st.1)) with (i := 0);
      [|split; [done|apply reports_lines_nil]].
    intros k x [issues offs] Hk Hinv. simpl in *. unfold semicolons_body.
    match goal with |- returns (if ?b then _ else _) _ => destruct b eqn:Hskip end.
    + eapply reports_inv_skip; [done| |done].
      unfold semicolons_flagged. cbv zeta. by rewrite Hskip.
    + match goal with |- returns (Ret (if ?b then _ else _, _)) _ => destruct b eqn:Hb end.
      * eapply reports_inv_add; [done| |done|done|done|done].
        unfold semicolons_flagged. cbv zeta. rewrite Hskip. simpl negb.
        by rewrite andb_true_l.
      * eapply reports_inv_skip; [done| |done].
        unfold semicolons_flagged. cbv zeta. rewrite Hskip. simpl negb.
        by rewrite andb_true_l.
  - intros [issues offs] [_ H]. exact H.
Qed.

(** X3: [extended_control_paren_balance] reports the lines that start,
    after white space, with [if], [while] or [for] and an opening
    parenthesis, in any case of the letters, and that hold one more
    opening than closing parenthesis.  There is one issue
    [paren-control-close] for each such line and for no other, by
    growing line number; the line number counts from 1 and the span is
    the line, line boundary included. *)
Theorem control_paren_reports (doc : list ascii) :
  returns (extended_control_paren_balance doc)
          (reports_lines doc (fun _ => control_paren_flagged) "paren-control-close").
Proof.
  unfold extended_control_paren_balance. eapply returns_bind.
  - apply (for_each_rule
             (fun k st => st.2 = length (join (take k (splitlines doc)))
                          /\ reports_lines_upto doc (fun _ => control_paren_flagged)
                               "paren-control-close" k st.1)) with (i := 0);
      [|split; [done|apply reports_lines_nil]].
    intros k x [issues offs] Hk Hinv. simpl in *. unfold control_paren_body.
    destruct (is_match (re_search RE_I CONTROL_LINE x)) eqn:Hm; simpl.
    + destruct (Z.of_nat (count LPAREN x) - Z.of_nat (count RPAREN x) =? 1)%Z eqn:Hb.
      * eapply reports_inv_add; [done| |done|done|done|done].
        unfold control_paren_flagged. by rewrite Hm, Hb.
      * eapply reports_inv_skip; [done| |done].
        unfold control_paren_flagged. by rewrite Hm, Hb.
    + eapply reports_inv_skip; [done| |done].
      unfold control_paren_flagged. by rewrite Hm.
  - intros [issues offs] [_ H]. exact H.
Qed.

(** ** The kinds of a scan *)

Ltac in_list := repeat first [apply list_elem_of_here | apply list_elem_of_further].

Lemma elem_of_kinds_strict (k : string) (extended unmatched_open : bool) :
  k ∈ strict_kinds -> k ∈ kinds_of_mode extended unmatched_open.
Proof. intros H. unfold kinds_of_mode. apply elem_of_app. by left. Qed.

Lemma elem_of_kinds_extended (k : string) (unmatched_open : bool) :
  k ∈ extended_kinds -> k ∈ kinds_of_mode true unmatched_open.
Proof.
  intros H. unfold kinds_of_mode. apply elem_of_app. right. apply elem_of_app. by left.
Qed.

(** X4: the kinds of the issues of a scan go by the mode.  Every scan
    may report [cpptext-brace], [brace-balance], [defaultprops-brace],
    [semicolon-missing] and [paren-balance]; [paren-control-close],
    [struct-enum-close] and [paren-extra-close] come in the extended
    mode only, and [paren-extra-open] only when its own toggle is
    set. *)
Theorem scan_kinds (doc : list ascii) (extended unmatched_open : bool) :
  returns (scan_now doc extended unmatched_open)
          (Forall (fun it => kind it ∈ kinds_of_mode extended unmatched_open)).
Proof.
  destruct (findings_exist doc) as (fs & Hfs).
  rewrite (scan_now_list doc extended unmatched_open fs Hfs). simpl.
  apply Forall_app. split.
  - apply Forall_forall. intros it Hin.
    assert (it ∈ gathered doc extended fs) as Hg.
    { eapply elem_of_sublist; [exact Hin|apply first_occurrences_sublist]. }
    destruct (gathered_origin doc extended fs it Hfs Hg)
      as [[Ho _]|[[Ho _]|[[Ho _]|[[Ho _]|[[Ho _]|[(-> & Ho & _)|[(-> & Ho & _)|(-> & Ho & _)]]]]]]];
      rewrite Ho.
    1-5: apply elem_of_kinds_strict; unfold strict_kinds; in_list.
    all: apply elem_of_kinds_extended; unfold extended_kinds; in_list.
  - destruct unmatched_open; [|constructor].
    destruct (findings_kinds doc fs Hfs) as (_ & _ & _ & _ & _ & _ & _ & K8).
    eapply Forall_impl; [exact K8|]. intros it Hk. simpl in Hk. rewrite Hk.
    unfold kinds_of_mode. rewrite !elem_of_app. right. right. in_list.
Qed.

(** X5: an issue of a scan has no repair when it is [paren-balance], or
    [brace-balance] with more closing than opening braces in the
    document, and in no other case. *)
Theorem no_repair_iff (doc : list ascii) (extended unmatched_open : bool) :
  returns (scan_now doc extended unmatched_open) (Forall (fun it =>
    apply_fn it = None
    <-> kind it = "paren-balance"
        \/ (kind it = "brace-balance" /\ (open_count doc < 0)%Z))).
Proof.
  eapply returns_mono; [apply scan_now_ok|].
  intros issues Hok. eapply Forall_impl; [exact Hok|].
  intros it [_ Hof].
  destruct Hof as
    [a Hk Ha Hl Hc| Hk Hl Ho Hc | Hk Hl Ho Hc | pos Hk Hp Hc | a Hk Ha Hl Hc
    | Hk Hl Hne Hc | a Hk Ha Hl Hc | ia Hk Hia Hc | idx Hk Hidx Hs Hc | idx Hk Hidx Hs Hc];
    rewrite Hc, Hk; split; try done; try (intros [H|[H ?]]; (discriminate H || lia)).
  - intros _. right. done.
  - intros _. by left.
Qed.

Lemma first_occurrences_app_prefix (l1 l2 : list Issue) :
  first_occurrences l1 `prefix_of` first_occurrences (l1 ++ l2).
Proof.
  induction l1 as [|it l1 [r IH]]; simpl; [apply prefix_nil|].
  rewrite IH, filter_app. apply prefix_cons, prefix_app_r. done.
Qed.

(** X6: the extended mode hides nothing: the issues of the scan in the
    strict mode are the first issues of the scan in the extended mode,
    in the same order. *)
Theorem extended_extends_strict (doc : list ascii) :
  returns (scan_doc_for_issues doc false) (fun strict =>
    returns (scan_doc_for_issues doc true) (fun ext => strict `prefix_of` ext)).
Proof.
  destruct (findings_exist doc) as (fs & Hfs).
  rewrite !(scan_doc_gathered doc _ fs Hfs). simpl.
  assert (gathered doc true fs
          = gathered doc false fs
            ++ (f_control_paren fs ++ f_struct_enum fs ++ f_close_paren fs)) as ->.
  { unfold gathered. by rewrite app_nil_r, <- !app_assoc. }
  apply first_occurrences_app_prefix.
Qed.

(** ** Repairs of lines, and the scan that follows *)

(** X7: the repair of [cpptext-brace] mends its line.  For every issue
    [cpptext-brace] of a scan of [doc], the repair returns on [doc],
    and the scan of what it returns, in the same mode, reports no
    [cpptext-brace] at the line of the issue. *)
Theorem cpptext_repair_converges (doc : list ascii) (extended : bool) :
  returns (scan_doc_for_issues doc extended) (Forall (fun it =>
    kind it = "cpptext-brace" -> forall f, apply_fn it = Some f ->
      returns (call f doc) (fun doc' =>
        returns (scan_doc_for_issues doc' extended) (not_reported it)))).
Proof.
  destruct (returns_inv _ _ (scan_doc_for_issues_ok doc extended)) as (issues & Hscan & _).
  rewrite Hscan. simpl. apply Forall_forall. intros it Hin Hk f Hf.
  by eapply cpptext_rescan.
Qed.

Lemma scan_doc_cpptext :
  exists it, scan_doc_for_issues doc_cpptext false = Ret [it]
             /\ kind it = "cpptext-brace" /\ apply_fn it = Some (Cpptext_apply 1).
Proof. eexists. split; [vm_compute; reflexivity|]. done. Qed.

Lemma cpptext_repair_converges_witness :
  exists it, kind it = "cpptext-brace"
    /\ returns (call (Cpptext_apply 1) doc_cpptext) (fun doc' =>
         returns (scan_doc_for_issues doc' false) (not_reported it)).
Proof.
  pose proof (cpptext_repair_converges doc_cpptext false) as H.
  destruct scan_doc_cpptext as (it & Hscan & Hk & Hf).
  rewrite Hscan in H. simpl in H. apply Forall_inv in H.
  exists it. split; [done|]. by apply H.
Defined.

(** X8: the repair of [paren-control-close] mends its line.  For every
    issue [paren-control-close] of a scan of [doc], the repair returns
    on [doc], and the scan of what it returns, in the same mode,
    reports no [paren-control-close] at the line of the issue. *)
Theorem control_paren_repair_converges (doc : list ascii) (extended : bool) :
  returns (scan_doc_for_issues doc extended) (Forall (fun it =>
    kind it = "paren-control-close" -> forall f, apply_fn it = Some f ->
      returns (call f doc) (fun doc' =>
        returns (scan_doc_for_issues doc' extended) (not_reported it)))).
Proof.
  destruct (returns_inv _ _ (scan_doc_for_issues_ok doc extended)) as (issues & Hscan & _).
  rewrite Hscan. simpl. apply Forall_forall. intros it Hin Hk f Hf.
  by eapply control_paren_rescan.
Qed.

Lemma scan_doc_control :
  exists it0 it, scan_doc_for_issues doc_control true = Ret [it0; it]
                 /\ kind it = "paren-control-close"
                 /\ apply_fn it = Some (Control_paren_apply 1).
Proof. do 2 eexists. split; [vm_compute; reflexivity|]. done. Qed.

Lemma control_paren_repair_converges_witness :
  exists it, kind it = "paren-control-close"
    /\ returns (call (Control_paren_apply 1) doc_control) (fun doc' =>
         returns (scan_doc_for_issues doc' true) (not_reported it)).
Proof.
  pose proof (control_paren_repair_converges doc_control true) as H.
  destruct scan_doc_control as (it0 & it & Hscan & Hk & Hf).
  rewrite Hscan in H. simpl in H. apply Forall_inv_tail, Forall_inv in H.
  exists it. split; [done|]. by apply H.
Defined.

(** X9: the repair of [semicolon-missing] mends its line when the line
    has no two slashes side by side.  For every issue
    [semicolon-missing] of a scan of [doc], the repair returns on
    [doc] and the scan of what it returns, in the same mode, returns;
    when the line of the issue has no two slashes, that scan reports no
    [semicolon-missing] at that line. *)
Theorem semicolon_repair_converges (doc : list ascii) (extended : bool) :
  returns (scan_doc_for_issues doc extended) (Forall (fun it =>
    kind it = "semicolon-missing" -> forall f, apply_fn it = Some f ->
      returns (call f doc) (fun doc' =>
        returns (scan_doc_for_issues doc' extended) (fun issues' =>
          line_without_slashes doc (line it) -> not_reported it issues')))).
Proof.
  destruct (returns_inv _ _ (scan_doc_for_issues_ok doc extended)) as (issues & Hscan & _).
  rewrite Hscan. simpl. apply Forall_forall. intros it Hin Hk f Hf.
  by eapply semicolons_rescan.
Qed.

Lemma scan_doc_semicolon :
  exists it, scan_doc_for_issues doc_semicolon false = Ret [it]
             /\ kind it = "semicolon-missing" /\ line it = 1%Z
             /\ apply_fn it = Some (Semicolons_apply 1).
Proof. eexists. split; [vm_compute; reflexivity|]. done. Qed.

Lemma doc_semicolon_no_slashes : line_without_slashes doc_semicolon 1.
Proof.
  intros l Hl. vm_compute in Hl. injection Hl as <-.
  intros (i & H1 & H2).
  do 14 (destruct i as [|i]; [vm_compute in H1; discriminate H1|]).
  vm_compute in H1. discriminate H1.
Qed.

Lemma semicolon_repair_converges_witness :
  exists it, kind it = "semicolon-missing"
    /\ line_without_slashes doc_semicolon (line it)
    /\ returns (call (Semicolons_apply 1) doc_semicolon) (fun doc' =>
         returns (scan_doc_for_issues doc' false) (not_reported it)).
Proof.
  pose proof (semicolon_repair_converges doc_semicolon false) as H.
  destruct scan_doc_semicolon as (it & Hscan & Hk & Hl & Hf).
  rewrite Hscan in H. simpl in H. apply Forall_inv in H.
  exists it. split; [done|]. rewrite Hl. split; [apply doc_semicolon_no_slashes|].
  specialize (H Hk _ Hf).
  eapply returns_mono; [exact H|]. intros doc' H'.
  eapply returns_mono; [exact H'|]. intros issues' Hnr. apply Hnr.
  rewrite Hl. apply doc_semicolon_no_slashes.
Defined.

(** ** Repairs on a text that is not the scanned document *)

(** X10: on any text, the repair of an issue of a scan returns, but for
    one case: the repair of [paren-control-close] raises [IndexError]
    when the text has fewer lines than the line number of the issue. *)
Theorem repair_raises (doc : list ascii) (extended unmatched_open : bool) :
  returns (scan_now doc extended unmatched_open) (Forall (fun it =>
    forall f text, apply_fn it = Some f ->
      if decide (kind it = "paren-control-close"
                 /\ (Z.of_nat (length (splitlines text)) < line it)%Z)
      then call f text = Raise IndexError
      else exists out, call f text = Ret out)).
Proof.
  eapply returns_mono; [apply scan_now_ok|].
  intros issues Hok. eapply Forall_impl; [exact Hok|].
  intros it [_ Hof] f text Hf.
  destruct Hof as
    [a Hk Ha Hl Hc| Hk Hl Ho Hc | Hk Hl Ho Hc | pos Hk Hp Hc | a Hk Ha Hl Hc
    | Hk Hl Hne Hc | a Hk Ha Hl Hc | ia Hk Hia Hc | idx Hk Hidx Hs Hc | idx Hk Hidx Hs Hc];
    rewrite Hc in Hf; try discriminate Hf; injection Hf as <-.
  5: { pose proof (control_paren_apply_cases a text) as Hcases. simpl call.
       destruct (a - 1 <? length (splitlines text)) eqn:Hlt.
       - apply Nat.ltb_lt in Hlt. rewrite decide_False; [done|]. intros [_ H]. lia.
       - apply Nat.ltb_ge in Hlt. rewrite decide_True; [done|]. split; [done|lia]. }
  all: rewrite decide_False by (intros [H _]; rewrite Hk in H; discriminate H).
  all: match goal with
       | |- exists out, call ?f ?t = Ret out =>
           destruct (call_cases f t) as [Hret|(a' & Heq & _)]; [exact Hret|discriminate Heq]
       end.
Qed.

(** ** The window *)

Lemma window_scan_now_returns (self : MainWindow.t) :
  exists l, scan_now (MainWindow.editor self) (MainWindow.extended_cb self)
              (MainWindow.unmatched_open_cb self) = Ret l
            /\ MainWindow.scan_now self = Ret (MainWindow.set_issues self l).
Proof.
  destruct (returns_inv _ _ (scan_now_ok (MainWindow.editor self)
              (MainWindow.extended_cb self) (MainWindow.unmatched_open_cb self)))
    as (l & Hl & _).
  exists l. split; [done|].
  unfold MainWindow.scan_now, MainWindow._extended_mode, MainWindow._unmatched_open_enabled.
  by rewrite Hl, bind_ret.
Qed.

Lemma fresh_after_scan (self : MainWindow.t) :
  returns (MainWindow.scan_now self) MainWindow.fresh.
Proof.
  destruct (window_scan_now_returns self) as (l & Hl & ->). simpl.
  unfold MainWindow.fresh.
  destruct (window_scan_now_returns (MainWindow.set_issues self l)) as (l' & Hl' & ->).
  simpl in Hl'. rewrite Hl in Hl'. by injection Hl' as <-.
Qed.

Lemma fresh_issues (self : MainWindow.t) :
  MainWindow.fresh self ->
  scan_now (MainWindow.editor self) (MainWindow.extended_cb self)
    (MainWindow.unmatched_open_cb self) = Ret (MainWindow.issues self).
Proof.
  unfold MainWindow.fresh. intros Hfresh.
  destruct (window_scan_now_returns self) as (l & Hl & Hw).
  rewrite Hw in Hfresh. injection Hfresh as Heq.
  rewrite Hl. f_equal. apply (f_equal MainWindow.issues) in Heq. by simpl in Heq.
Qed.

(** The repair of an issue of a scan returns on the scanned document. *)
Lemma repair_returns_on_scanned (doc : list ascii) (extended unmatched_open : bool)
    (l : list Issue) (it : Issue) (f : closure) :
  scan_now doc extended unmatched_open = Ret l -> it ∈ l -> apply_fn it = Some f ->
  exists out, call f doc = Ret out.
Proof.
  intros Hscan Hin Hf.
  destruct (call_cases f doc) as [Hret|(a & -> & Hlen & _)]; [done|exfalso].
  pose proof (scan_now_ok doc extended unmatched_open) as Hok.
  rewrite Hscan in Hok. simpl in Hok. rewrite Forall_forall in Hok.
  destruct (Hok it Hin) as [_ Hof].
  destruct (findings_exist doc) as (fs & Hfs).
  rewrite (scan_now_list doc extended unmatched_open fs Hfs) in Hscan.
  injection Hscan as <-.
  destruct Hof as
    [a' Hk Ha Hl Hc| Hk Hl Ho Hc | Hk Hl Ho Hc | pos Hk Hp Hc | a' Hk Ha Hl Hc
    | Hk Hl Hne Hc | a' Hk Ha Hl Hc | ia Hk Hia Hc | idx Hk Hidx Hs Hc | idx Hk Hidx Hs Hc];
    rewrite Hc in Hf; try discriminate Hf. injection Hf as ->.
  apply elem_of_app in Hin as [Hin|Hin].
  - destruct (scan_line_issue doc extended _ it (scan_doc_gathered doc extended fs Hfs) Hin)
      as (_ & _ & H3).
    destruct (H3 Hk) as (k & x & Hx & _ & Hline).
    apply lookup_lt_Some in Hx. lia.
  - destruct unmatched_open; [|by apply not_elem_of_nil in Hin].
    destruct (findings_kinds doc fs Hfs) as (_ & _ & _ & _ & _ & _ & _ & K8).
    rewrite Forall_forall in K8. specialize (K8 it Hin). congruence.
Qed.

(** X11: [_count_issues_for_text] gives the length of the list of
    issues that [scan_now] makes of the same text, in the same mode. *)
Theorem count_issues_is_length (self : MainWindow.t) (text : list ascii) :
  MainWindow._count_issues_for_text self text
  = (w ← MainWindow.scan_now (MainWindow.setPlainText self text);
     Ret (length (MainWindow.issues w))).
Proof.
  destruct (findings_exist text) as (fs & Hfs).
  rewrite (window_scan_now (MainWindow.setPlainText self text) fs Hfs), bind_ret. simpl.
  unfold MainWindow._count_issues_for_text, MainWindow._extended_mode,
    MainWindow._unmatched_open_enabled.
  rewrite (scan_doc_gathered text _ fs Hfs), bind_ret.
  pose proof Hfs as (_ & _ & _ & _ & _ & _ & _ & H8).
  assert (forall l, MainWindow.count_loop l ∅ 0 = length (first_occurrences l)) as Hcount.
  { intros l. pose proof (count_loop_dedup l ∅ 0 []) as H. simpl in H.
    rewrite <- dedup_issues_first_occurrences. unfold dedup_issues. lia. }
  assert (forall l, NoDup (issue_key <$> l) -> MainWindow.count_loop l ∅ 0 = length l) as Hid.
  { intros l Hnd. by rewrite Hcount, first_occurrences_id. }
  pose proof (scan_now_list text (MainWindow.extended_cb self)
                (MainWindow.unmatched_open_cb self) fs Hfs) as Hlist.
  rewrite (scan_now_gathered _ _ _ fs Hfs) in Hlist. injection Hlist as Hlist.
  destruct (MainWindow.unmatched_open_cb self).
  - rewrite H8, !bind_ret. f_equal. by rewrite Hcount, Hlist.
  - rewrite bind_ret. f_equal. rewrite app_nil_r in *. by rewrite Hcount, Hlist.
Qed.

Lemma autofixes_loop (self : MainWindow.t) (text : list ascii) (fs : findings) :
  findings_of text fs ->
  MainWindow._apply_autofixes self text
  = for_each (fun _ it text => match apply_fn it with
                               | Some _ => MainWindow.try_apply it text
                               | None => Ret text
                               end) 0
      (first_occurrences (gathered text (MainWindow.extended_cb self) fs)
       ++ (if MainWindow.unmatched_open_cb self then f_open_paren fs else [])) text.
Proof.
  intros Hfs. unfold MainWindow._apply_autofixes, MainWindow._extended_mode,
    MainWindow._unmatched_open_enabled. cbv zeta.
  rewrite (scan_doc_gathered text _ fs Hfs), bind_ret.
  destruct Hfs as (_ & _ & _ & _ & _ & _ & _ & H8).
  destruct (MainWindow.unmatched_open_cb self).
  - by rewrite H8, !bind_ret.
  - by rewrite bind_ret, app_nil_r.
Qed.

Lemma autofixes_body_returns (i : nat) (it : Issue) (text : list ascii) :
  exists out, match apply_fn it with
              | Some _ => MainWindow.try_apply it text
              | None => Ret text
              end = Ret out.
Proof. destruct (apply_fn it); [apply try_apply_returns|by eexists]. Qed.

(** X12: [apply_all], on a window that [scan_now] has just filled and
    with the question answered by yes or not asked, leaves in the
    editor the text that [_apply_autofixes] returns for the text of
    the editor: the batch repair of a file and the button of the
    window do the same to a text. *)
Theorem apply_all_is_autofixes (self : MainWindow.t) (yes : bool) :
  MainWindow.confirm_each self && negb yes = false ->
  returns (MainWindow.scan_now self) (fun w =>
    returns (MainWindow.apply_all w yes) (fun w' =>
      MainWindow._apply_autofixes self (MainWindow.editor self)
      = Ret (MainWindow.editor w'))).
Proof.
  intros Hyes. destruct (findings_exist (MainWindow.editor self)) as (fs & Hfs).
  rewrite (window_scan_now self fs Hfs), (autofixes_loop self _ fs Hfs). simpl.
  set (L := first_occurrences _ ++ _).
  unfold MainWindow.apply_all. simpl MainWindow.issues. simpl MainWindow.confirm_each.
  simpl MainWindow.editor. rewrite Hyes.
  pose proof (for_each_auto_issues L 0 0 (MainWindow.editor self)) as Hloop.
  destruct L as [|it L'] eqn:HL; [done|]. rewrite <- HL in *. clear HL.
  destruct (filter (fun i => is_Some (apply_fn i)) L) as [|it1 A] eqn:HA.
  { simpl. by rewrite <- Hloop. }
  rewrite <- Hloop.
  destruct (for_each_try_returns (fun _ it text => MainWindow.try_apply it text) (it1 :: A)
              (fun _ => try_apply_returns) 0 (MainWindow.editor self)) as (out & Hout).
  rewrite Hout, bind_ret. unfold MainWindow._post_apply_refresh.
  destruct (window_scan_now_returns
              (MainWindow.setPlainText
                 (MainWindow.set_issues self L) out)) as (l' & _ & ->).
  done.
Qed.

Lemma apply_all_is_autofixes_witness :
  MainWindow.confirm_each window_control && negb false = false
  /\ returns (MainWindow.scan_now window_control) (fun w =>
       returns (MainWindow.apply_all w false) (fun w' =>
         MainWindow._apply_autofixes window_control (MainWindow.editor window_control)
         = Ret (MainWindow.editor w'))).
Proof. split; [reflexivity|]. apply apply_all_is_autofixes. reflexivity. Defined.

(** X13: [_apply_autofixes] returns on every text, in every mode: what a
    repair raises is caught.  It returns the text as it is when no
    issue of the scan of the text has a repair. *)
Theorem autofixes_returns (self : MainWindow.t) (text : list ascii) :
  returns (MainWindow._apply_autofixes self text) (fun out =>
    returns (scan_now text (MainWindow.extended_cb self) (MainWindow.unmatched_open_cb self))
      (fun l => Forall (fun it => apply_fn it = None) l -> out = text)).
Proof.
  destruct (findings_exist text) as (fs & Hfs).
  rewrite (autofixes_loop self text fs Hfs), (scan_now_list _ _ _ fs Hfs).
  set (L := first_occurrences _ ++ _).
  destruct (for_each_try_returns _ L autofixes_body_returns 0 text) as (out & Hout).
  rewrite Hout. simpl. intros Hnone.
  rewrite (for_each_no_repair L Hnone) in Hout. by injection Hout.
Qed.

(** X14: [apply_selected] keeps the list of issues in step with the
    text.  On a window whose list of issues is that of a scan of its
    text, [apply_selected] returns, whatever the row and the answer:
    no repair raises on the document that was scanned.  The list of
    issues of the window it returns is that of a scan of the new
    text. *)
Theorem apply_selected_fresh (self : MainWindow.t) (row : Z) (yes : bool) :
  MainWindow.fresh self ->
  returns (MainWindow.apply_selected self row yes) MainWindow.fresh.
Proof.
  intros Hfresh. unfold MainWindow.apply_selected.
  destruct ((row <? 0)%Z || (row >=? Z.of_nat (length (MainWindow.issues self)))%Z) eqn:Hrow;
    [done|].
  apply orb_false_iff in Hrow as [Hr1 Hr2].
  destruct (getitem_lt (MainWindow.issues self) (Z.to_nat row)) as (it & Hit & ->); [lia|].
  rewrite bind_ret. destruct (apply_fn it) as [f|] eqn:Hf; [|done].
  destruct (MainWindow.confirm_each self && negb yes); [done|].
  destruct (repair_returns_on_scanned _ _ _ _ it f (fresh_issues self Hfresh))
    as (out & ->); [by eapply list_elem_of_lookup_2|done|].
  rewrite bind_ret. apply fresh_after_scan.
Qed.

Lemma window_control_fresh : MainWindow.fresh window_control_scanned.
Proof. vm_compute. reflexivity. Qed.

Lemma apply_selected_fresh_witness :
  MainWindow.fresh window_control_scanned
  /\ returns (MainWindow.apply_selected window_control_scanned 1 true) MainWindow.fresh.
Proof.
  split; [apply window_control_fresh|].
  apply apply_selected_fresh. apply window_control_fresh.
Defined.

(** X15: [apply_all] keeps the list of issues in step with the text.
    On a window whose list of issues is that of a scan of its text,
    [apply_all] returns, and the list of issues of the window it
    returns is that of a scan of the text it leaves in the editor. *)
Theorem apply_all_fresh (self : MainWindow.t) (yes : bool) :
  MainWindow.fresh self ->
  returns (MainWindow.apply_all self yes) MainWindow.fresh.
Proof.
  intros Hfresh. unfold MainWindow.apply_all.
  destruct (MainWindow.issues self) as [|it L]; [done|].
  destruct (filter _ _) as [|it1 A]; [done|].
  destruct (MainWindow.confirm_each self && negb yes); [done|].
  destruct (for_each_try_returns (fun _ it text => MainWindow.try_apply it text) (it1 :: A)
              (fun _ => try_apply_returns) 0 (MainWindow.editor self)) as (out & ->).
  rewrite bind_ret. apply fresh_after_scan.
Qed.

Lemma apply_all_fresh_witness :
  MainWindow.fresh window_control_scanned
  /\ returns (MainWindow.apply_all window_control_scanned true) MainWindow.fresh.
Proof.
  split; [apply window_control_fresh|].
  apply apply_all_fresh. apply window_control_fresh.
Defined.

(** ** The highlighter *)

(** X16: the underlines of [highlightBlock] are the error ranges cut to
    the block.  Each call of [setFormat] for an error range stays in
    the block and has a positive length, and a position of the block
    is covered by such a call when, and only when, its position in the
    document lies in one of the error ranges. *)
Theorem error_underlines (block_pos : Z) (text : list ascii) (error_ranges : list (Z * Z)) :
  Forall (fun c => (0 <= c.1 /\ 0 < c.2 /\ c.1 + c.2 <= Z.of_nat (length text))%Z)
         (USHighlighter.highlightBlock_errors block_pos text error_ranges)
  /\ forall p, (0 <= p < Z.of_nat (length text))%Z ->
       ((exists c, c ∈ USHighlighter.highlightBlock_errors block_pos text error_ranges
                   /\ USHighlighter.covers c p)
        <-> exists r, r ∈ error_ranges /\ (r.1 <= block_pos + p < r.2)%Z).
Proof.
  unfold USHighlighter.highlightBlock_errors.
  destruct (highlight_errors_fold block_pos (Z.of_nat (length text)) error_ranges [])
    as [Hok Hiff]; [constructor|].
  split; [done|]. intros p Hp. rewrite (Hiff p Hp). split.
  - intros [(c & Hin & _)|H]; [by apply not_elem_of_nil in Hin|done].
  - intros H. by right.
Qed.

(** ** What a line repair leaves as it is *)

Lemma text_around_line (text : list ascii) (k : nat) (l : list ascii) :
  splitlines text !! k = Some l ->
  text = join (take k (splitlines text)) ++ l ++ join (drop (S k) (splitlines text)).
Proof.
  intros Hk. rewrite <- (join_splitlines text) at 1.
  rewrite <- (take_drop_middle _ _ _ Hk) at 1.
  unfold join. by rewrite concat_app, concat_cons.
Qed.

Lemma join_insert_line (text : list ascii) (k : nat) (l new : list ascii) :
  splitlines text !! k = Some l ->
  line_replaced text k new (join (<[k := new]> (splitlines text))).
Proof.
  intros Hk. exists l. split; [done|]. split; [by apply text_around_line|].
  rewrite insert_take_drop by (by eapply lookup_lt_Some).
  unfold join. by rewrite concat_app, concat_cons.
Qed.

Lemma getitem_0 {A} (x : A) (l : list A) : getitem (x :: l) 0 = Ret x.
Proof. done. Qed.

Lemma getitem_1 {A} (x y : A) (l : list A) : getitem (x :: y :: l) 1 = Ret y.
Proof. done. Qed.

(** X17: a line repair changes its line and nothing else.  On any text
    that has the line of its number, the repair of [cpptext-brace] puts
    an opening brace and a newline after that line; the repair of
    [paren-control-close] replaces that line by a line with one more
    closing parenthesis and as many opening ones, that ends in a
    newline; the repair of [semicolon-missing] returns the text as it
    is or replaces that line by a line that ends in a newline.  What
    stands before the line and what stands after it stay as they
    are. *)
Theorem line_repairs_frame (a : nat) (text l : list ascii) :
  1 <= a -> splitlines text !! (a - 1) = Some l ->
  returns (cpptext_apply a text) (line_replaced text (a - 1) (l ++ [LBRACE; NL]))
  /\ returns (control_paren_apply a text) (fun out =>
       exists new, line_replaced text (a - 1) new out
         /\ count LPAREN new = count LPAREN l /\ count RPAREN new = S (count RPAREN l)
         /\ last new = Some NL)
  /\ returns (semicolons_apply a text) (fun out =>
       out = text
       \/ exists new, line_replaced text (a - 1) new out /\ last new = Some NL).
Proof.
  intros Ha Hk. split; [|split].
  - unfold cpptext_apply, list_insert_at. cbv zeta. apply returns_ret.
    replace (a - 1 + 1) with (S (a - 1)) by lia.
    exists l. split; [done|]. split; [by apply text_around_line|].
    rewrite (take_S_r _ _ _ Hk). unfold join.
    rewrite !concat_app, concat_cons. simpl. by rewrite app_nil_r, <- !app_assoc.
  - unfold control_paren_apply. cbv zeta. unfold getitem. rewrite Hk, bind_ret.
    apply returns_ret.
    destruct (lines_middle text _ l Hk) as [Hws _].
    destruct (well_split_mid _ _ _ Hws) as (body & term & -> & Hnb & _ & Hterm).
    assert (is_term term \/ term = []) as Ht by (destruct Hterm as [[? _]|[? _]]; auto).
    destruct (control_paren_line body term Hnb Ht)
      as (B & T & Heq & HnbB & HneB & HT & Hc1 & Hc2).
    cbv zeta in Heq. eexists. split; [by eapply join_insert_line|].
    rewrite Heq, (count_app LPAREN B), (count_app RPAREN B), Hc1, Hc2.
    destruct HT as [->|(x & -> & Hx)].
    + rewrite !count_cons, !count_nil.
      change (chr_eqb NL LPAREN) with false. change (chr_eqb NL RPAREN) with false.
      split; [lia|]. split; [lia|]. by rewrite last_snoc.
    + assert (chr_eqb x LPAREN = false /\ chr_eqb x RPAREN = false) as [H1 H2].
      { split; destruct (chr_eqb x _) eqn:Hc; try done; apply chr_eqb_eq in Hc as ->; done. }
      rewrite !count_cons, !count_nil, H1, H2.
      change (chr_eqb NL LPAREN) with false. change (chr_eqb NL RPAREN) with false.
      split; [lia|]. split; [lia|].
      change [x; NL] with ([x] ++ [NL]). by rewrite app_assoc, last_snoc.
  - unfold semicolons_apply. cbv zeta.
    rewrite (proj2 (Nat.ltb_lt _ _) (lookup_lt_Some _ _ _ Hk)).
    destruct (getitem_lt _ _ (lookup_lt_Some _ _ _ Hk)) as (l' & Hl' & ->).
    rewrite Hk in Hl'. injection Hl' as <-. rewrite bind_ret.
    destruct (endswith (rstrip l) [SEMI]); [by left|].
    unfold re_split1. destruct (re_search NOFLAGS re_trailing_comment l) as [m|].
    + change (length [take (m_start m) l; m_group l m 1; drop (m_end m) l] =? 3) with true.
      cbv iota. rewrite getitem_0, bind_ret, getitem_1, bind_ret. apply returns_ret.
      right. eexists. split; [by eapply join_insert_line|].
      by rewrite !app_assoc, last_snoc.
    + change (length [l] =? 3) with false. cbv iota. apply returns_ret.
      right. eexists. split; [by eapply join_insert_line|].
      change [SEMI; NL] with ([SEMI] ++ [NL]). by rewrite app_assoc, last_snoc.
Qed.

Lemma line_repairs_frame_witness :
  1 <= 1 /\ splitlines doc_control !! (1 - 1) = Some (ln "if (x > 0")
  /\ returns (control_paren_apply 1 doc_control) (fun out =>
       exists new, line_replaced doc_control (1 - 1) new out
         /\ count LPAREN new = count LPAREN (ln "if (x > 0")
         /\ count RPAREN new = S (count RPAREN (ln "if (x > 0"))
         /\ last new = Some NL).
Proof.
  split; [lia|]. split; [reflexivity|].
  destruct (line_repairs_frame 1 doc_control (ln "if (x > 0")) as (_ & H & _);
    [lia|reflexivity|exact H].
Defined.

(** ** A list of issues that is out of date *)

(** X18: [apply_selected] lets the exception of a repair through.  When
    the issue of the picked row has the repair of
    [paren-control-close] for a line that the text of the editor does
    not have, and the question is not asked or is answered by yes,
    [apply_selected] raises [IndexError]; [apply_all] returns on the
    same window. *)
Theorem apply_selected_stale (self : MainWindow.t) (row a : nat) (it : Issue) (yes : bool) :
  MainWindow.issues self !! row = Some it ->
  apply_fn it = Some (Control_paren_apply a) ->
  length (splitlines (MainWindow.editor self)) <= a - 1 ->
  MainWindow.confirm_each self && negb yes = false ->
  MainWindow.apply_selected self (Z.of_nat row) yes = Raise IndexError
  /\ exists w, MainWindow.apply_all self yes = Ret w.
Proof.
  intros Hrow Hf Hlen Hyes. split.
  - unfold MainWindow.apply_selected.
    pose proof (lookup_lt_Some _ _ _ Hrow) as Hlt.
    rewrite (proj2 (Z.ltb_ge _ _)) by lia.
    rewrite Z.geb_leb, (proj2 (Z.leb_gt _ _)) by lia.
    simpl orb. cbv iota. rewrite Nat2Z.id. unfold getitem at 1. rewrite Hrow, bind_ret.
    rewrite Hf, Hyes.
    pose proof (control_paren_apply_cases a (MainWindow.editor self)) as Hc.
    rewrite (proj2 (Nat.ltb_ge _ _) Hlen) in Hc. simpl call. by rewrite Hc.
  - unfold MainWindow.apply_all.
    destruct (MainWindow.issues self) as [|it0 L]; [by eexists|].
    destruct (filter _ _) as [|it1 A]; [by eexists|].
    rewrite Hyes.
    destruct (for_each_try_returns (fun _ it text => MainWindow.try_apply it text) (it1 :: A)
                (fun _ => try_apply_returns) 0 (MainWindow.editor self)) as (out & ->).
    rewrite bind_ret. unfold MainWindow._post_apply_refresh.
    destruct (window_scan_now_returns (MainWindow.setPlainText self out)) as (l' & _ & ->).
    by eexists.
Qed.

Lemma window_stale_row :
  exists it, MainWindow.issues window_stale !! 1 = Some it
             /\ apply_fn it = Some (Control_paren_apply 1).
Proof. eexists. split; [vm_compute; reflexivity|]. done. Qed.

Lemma apply_selected_stale_witness :
  MainWindow.apply_selected window_stale (Z.of_nat 1) false = Raise IndexError
  /\ exists w, MainWindow.apply_all window_stale false = Ret w.
Proof.
  destruct window_stale_row as (it & Hrow & Hf).
  apply (apply_selected_stale window_stale 1 1 it false Hrow Hf); [|reflexivity].
  vm_compute. lia.
Defined.

(** ** What [check_defaultproperties] reports *)

Lemma StronglySorted_lookup {A} (R : A -> A -> Prop) (l : list A) :
  forall i j x y, StronglySorted R l -> l !! i = Some x -> l !! j = Some y -> i < j -> R x y.
Proof.
  induction l as [|a l IH]; intros i j x y Hs Hi Hj Hlt; [done|].
  apply StronglySorted_inv in Hs as [Hs Ha].
  destruct j as [|j]; [lia|]. simpl in Hj. destruct i as [|i].
  - injection Hi as <-. rewrite Forall_forall in Ha. apply Ha.
    by eapply list_elem_of_lookup_2.
  - simpl in Hi. apply (IH i j); [done|done|done|lia].
Qed.

Lemma finditer_lookup_lt (fl : flags) (r : regex) (s : list ascii) (i j : nat)
    (mi mj : rmatch) :
  re_finditer fl r s !! i = Some mi -> re_finditer fl r s !! j = Some mj -> i < j ->
  m_start mi < m_start mj.
Proof.
  intros Hi Hj Hlt.
  pose proof (re_finditer_from_sorted fl r s (S (length s)) 0) as Hs.
  fold (re_finditer fl r s) in Hs.
  by apply (StronglySorted_lookup _ _ i j mi mj Hs).
Qed.

(** The places that [check_defaultproperties] reports. *)
Lemma check_defaultproperties_places (doc : list ascii) :
  returns (check_defaultproperties doc) (fun issues =>
    exists ps, StronglySorted lt ps
      /\ (forall p, p ∈ ps <-> defaultprops_flagged doc p)
      /\ Forall2 (defaultprops_issue_at doc) ps issues).
Proof.
  unfold check_defaultproperties.
  set (ms := re_finditer RE_I re_defaultproperties doc).
  set (nb := fun m : rmatch =>
               is_match (re_match NOFLAGS re_ws_open_brace (drop (m_end m) doc)) = false).
  eapply returns_mono.
  - apply (for_each_rule
             (fun k issues => exists ps,
                StronglySorted lt ps
                /\ Forall (fun p => exists j m, j < k /\ ms !! j = Some m /\ nb m
                                                /\ p = m_start m) ps
                /\ (forall j m, j < k -> ms !! j = Some m -> nb m -> m_start m ∈ ps)
                /\ Forall2 (defaultprops_issue_at doc) ps issues)) with (i := 0).
    + intros k m issues Hk (ps & Hsorted & Hfrom & Hall & Hissues).
      change (0 + k) with k in *. unfold defaultproperties_body.
      assert (m ∈ ms) as Hin by (by eapply list_elem_of_lookup_2).
      apply defaultproperties_matches in Hin as (Hw & Hend & _).
      destruct (is_match (re_match NOFLAGS re_ws_open_brace (drop (m_end m) doc))) eqn:Hb;
        simpl negb; cbv iota; apply returns_ret.
      * exists ps. split; [done|]. split; [|split; [|done]].
        -- eapply Forall_impl; [exact Hfrom|]. intros p (j & mj & Hj & Hrest).
           exists j, mj. split; [lia|done].
        -- intros j mj Hj Hmj Hnb. destruct (decide (j = k)) as [->|Hne].
           ++ rewrite Hk in Hmj. injection Hmj as <-. unfold nb in Hnb. congruence.
           ++ apply (Hall j mj); [lia|done|done].
      * exists (ps ++ [m_start m]). split; [|split; [|split]].
        -- apply StronglySorted_snoc; [done|].
           eapply Forall_impl; [exact Hfrom|]. intros p (j & mj & Hj & Hmj & _ & ->).
           by apply (finditer_lookup_lt RE_I re_defaultproperties doc j k).
        -- apply Forall_app. split.
           ++ eapply Forall_impl; [exact Hfrom|]. intros p (j & mj & Hj & Hrest).
              exists j, mj. split; [lia|done].
           ++ constructor; [|constructor]. exists k, m. split; [lia|done].
        -- intros j mj Hj Hmj Hnb. apply elem_of_app.
           destruct (decide (j = k)) as [->|Hne].
           ++ right. rewrite Hk in Hmj. injection Hmj as <-. by apply list_elem_of_singleton.
           ++ left. apply (Hall j mj); [lia|done|done].
        -- apply Forall2_app; [done|]. constructor; [|constructor].
           unfold defaultprops_issue_at. rewrite <- Hend. simpl. done.
    + exists []. split; [constructor|]. split; [constructor|]. split; [|constructor].
      intros j m Hj. lia.
  - simpl. intros issues (ps & Hsorted & Hfrom & Hall & Hissues).
    exists ps. split; [done|]. split; [|done]. rewrite Forall_forall in Hfrom.
    intros p. split.
    + intros Hp. destruct (Hfrom p Hp) as (j & m & _ & Hm & Hnb & ->).
      apply list_elem_of_lookup_2, defaultproperties_matches in Hm as (Hw & Hend & _).
      split; [done|]. unfold nb in Hnb. by rewrite <- Hend.
    + intros [Hw Hnb].
      assert ({| m_start := p; m_end := p + length DEFAULTPROPERTIES; m_caps := [] |} ∈ ms)
        as Hin by (by apply defaultproperties_matches).
      apply list_elem_of_lookup_1 in Hin as (j & Hj).
      apply (Hall j _ (lookup_lt_Some _ _ _ Hj) Hj). exact Hnb.
Qed.

(** X20: [check_defaultproperties] reports the places where the word
    [defaultproperties] stands as a whole word, in any case of the
    letters and wherever it stands, a comment or a string included,
    with no opening brace after it, white space apart.  There is one
    issue [defaultprops-brace] for each such place and for no other,
    in the order of the places.  Its line number is one more than the
    number of newlines before the word, its span is the word with up
    to five characters on each side, and its repair holds the offset
    of the end of the word. *)
Theorem defaultproperties_reports (doc : list ascii) :
  returns (check_defaultproperties doc) (fun issues =>
    exists ps, StronglySorted lt ps
      /\ (forall p, p ∈ ps <-> defaultprops_flagged doc p)
      /\ Forall2 (defaultprops_issue_at doc) ps issues).
Proof.
  unfold check_defaultproperties.
  set (ms := re_finditer RE_I re_defaultproperties doc).
  set (nb := fun m : rmatch =>
               is_match (re_match NOFLAGS re_ws_open_brace (drop (m_end m) doc)) = false).
  eapply returns_mono.
  - apply (for_each_rule
             (fun k issues => exists ps,
                StronglySorted lt ps
                /\ Forall (fun p => exists j m, j < k /\ ms !! j = Some m /\ nb m
                                                /\ p = m_start m) ps
                /\ (forall j m, j < k -> ms !! j = Some m -> nb m -> m_start m ∈ ps)
                /\ Forall2 (defaultprops_issue_at doc) ps issues)) with (i := 0).
    + intros k m issues Hk (ps & Hsorted & Hfrom & Hall & Hissues).
      change (0 + k) with k in *. unfold defaultproperties_body.
      assert (m ∈ ms) as Hin by (by eapply list_elem_of_lookup_2).
      apply defaultproperties_matches in Hin as (Hw & Hend & _).
      destruct (is_match (re_match NOFLAGS re_ws_open_brace (drop (m_end m) doc))) eqn:Hb;
        simpl negb; cbv iota; apply returns_ret.
      * exists ps. split; [done|]. split; [|split; [|done]].
        -- eapply Forall_impl; [exact Hfrom|]. intros p (j & mj & Hj & Hrest).
           exists j, mj. split; [lia|done].
        -- intros j mj Hj Hmj Hnb. destruct (decide (j = k)) as [->|Hne].
           ++ rewrite Hk in Hmj. injection Hmj as <-. unfold nb in Hnb. congruence.
           ++ apply (Hall j mj); [lia|done|done].
      * exists (ps ++ [m_start m]). split; [|split; [|split]].
        -- apply StronglySorted_snoc; [done|].
           eapply Forall_impl; [exact Hfrom|]. intros p (j & mj & Hj & Hmj & _ & ->).
           by apply (finditer_lookup_lt RE_I re_defaultproperties doc j k).
        -- apply Forall_app. split.
           ++ eapply Forall_impl; [exact Hfrom|]. intros p (j & mj & Hj & Hrest).
              exists j, mj. split; [lia|done].
           ++ constructor; [|constructor]. exists k, m. split; [lia|done].
        -- intros j mj Hj Hmj Hnb. apply elem_of_app.
           destruct (decide (j = k)) as [->|Hne].
           ++ right. rewrite Hk in Hmj. injection Hmj as <-. by apply list_elem_of_singleton.
           ++ left. apply (Hall j mj); [lia|done|done].
        -- apply Forall2_app; [done|]. constructor; [|constructor].
           unfold defaultprops_issue_at. rewrite <- Hend. simpl. done.
    + exists []. split; [constructor|]. split; [constructor|]. split; [|constructor].
      intros j m Hj. lia.
  - simpl. intros issues (ps & Hsorted & Hfrom & Hall & Hissues).
    exists ps. split; [done|]. split; [|done]. rewrite Forall_forall in Hfrom.
    intros p. split.
    + intros Hp. destruct (Hfrom p Hp) as (j & m & _ & Hm & Hnb & ->).
      apply list_elem_of_lookup_2, defaultproperties_matches in Hm as (Hw & Hend & _).
      split; [done|]. unfold nb in Hnb. by rewrite <- Hend.
    + intros [Hw Hnb].
      assert ({| m_start := p; m_end := p + length DEFAULTPROPERTIES; m_caps := [] |} ∈ ms)
        as Hin by (by apply defaultproperties_matches).
      apply list_elem_of_lookup_1 in Hin as (j & Hj).
      apply (Hall j _ (lookup_lt_Some _ _ _ Hj) Hj). exact Hnb.
Qed.

Lemma StronglySorted_lt_NoDup (l : list nat) : StronglySorted lt l -> NoDup l.
Proof.
  induction 1 as [|x l _ IH Hx]; constructor; [|done].
  intros Hin. rewrite Forall_forall in Hx. specialize (Hx x Hin). lia.
Qed.

Lemma length_without (p : nat) (l : list nat) :
  NoDup l -> p ∈ l -> length l = S (length (filter (fun q => q <> p) l)).
Proof.
  intros Hnd Hin.
  assert (l ≡ₚ p :: filter (fun q => q <> p) l) as Hperm.
  { apply NoDup_Permutation; [done| |].
    - constructor; [|by apply NoDup_filter].
      intros [Hne _]%list_elem_of_filter. done.
    - intros x. rewrite elem_of_cons, list_elem_of_filter.
      destruct (decide (x = p)) as [->|Hne]; [naive_solver|naive_solver]. }
  apply Permutation_length in Hperm. by rewrite Hperm.
Qed.

(** The offsets of the occurrences after the repair of the one at [p]. *)
Lemma repaired_places_count (doc : list ascii) (p : nat) (ps ps' : list nat) :
  NoDup ps -> NoDup ps' ->
  (forall q, q ∈ ps <-> defaultprops_flagged doc q) ->
  (forall q, q ∈ ps' <-> defaultprops_flagged (defaultprops_repaired doc p) q) ->
  p ∈ ps -> length ps' + 1 = length ps.
Proof.
  intros Hnd Hnd' Hps Hps' Hp.
  assert (word_stands_at doc DEFAULTPROPERTIES p) as Hst by (by apply Hps in Hp as [? _]).
  set (g := fun q => if decide (q < p) then q else q + 5).
  assert (ps' ≡ₚ g <$> filter (fun q => q <> p) ps) as Hperm.
  { apply NoDup_Permutation; [done| |].
    - apply NoDup_fmap_2_strong; [|by apply NoDup_filter].
      intros x y [Hx Hxin]%list_elem_of_filter [Hy Hyin]%list_elem_of_filter.
      unfold g. destruct (decide (x < p)), (decide (y < p)); lia.
    - intros z. rewrite Hps', (repaired_flagged doc p Hst), list_elem_of_fmap. split.
      + intros [[Hz Hf]|[Hz Hf]].
        * exists z. split; [unfold g; by rewrite decide_True by lia|].
          apply list_elem_of_filter. split; [lia|by apply Hps].
        * exists (z - 5). split; [unfold g; rewrite decide_False by lia; lia|].
          apply list_elem_of_filter. split; [lia|by apply Hps].
      + intros (q & -> & [Hne Hq]%list_elem_of_filter). apply Hps in Hq.
        destruct (stands_places doc p Hst q (proj1 Hq)) as [Hl|[->|Hr]]; [|done|].
        * left. unfold g. rewrite decide_True by lia. done.
        * right. unfold g. rewrite decide_False by lia.
          split; [lia|]. by replace (q + 5 - 5) with q by lia. }
  apply Permutation_length in Hperm.
  rewrite Hperm, length_fmap, (length_without p ps Hnd Hp). lia.
Qed.

(** X21: the repair of an issue [defaultprops-brace] takes that issue
    away and no other.  For every issue of [check_defaultproperties]
    on [doc], the repair returns on [doc] the document with a block of
    braces right after the word, and [check_defaultproperties] reports
    on it one issue fewer: the occurrences before the word are
    reported as they were, those after the word are reported five
    characters further, and the repaired one is not reported. *)
Theorem defaultprops_repair_removes_one (doc : list ascii) :
  returns (check_defaultproperties doc) (fun issues =>
    forall it f, it ∈ issues -> apply_fn it = Some f ->
      exists p, defaultprops_flagged doc p
        /\ call f doc = Ret (defaultprops_repaired doc p)
        /\ returns (check_defaultproperties (defaultprops_repaired doc p)) (fun issues' =>
             length issues' + 1 = length issues
             /\ exists ps', Forall2 (defaultprops_issue_at (defaultprops_repaired doc p))
                              ps' issues'
                  /\ forall q, q ∈ ps'
                       <-> (q + 17 <= p /\ defaultprops_flagged doc q)
                           \/ (p + 17 + 5 < q /\ defaultprops_flagged doc (q - 5)))).
Proof.
  eapply returns_mono; [apply check_defaultproperties_places|].
  intros issues (ps & Hsorted & Hps & Hissues) it f Hin Hf.
  apply list_elem_of_lookup_1 in Hin as (i & Hi).
  destruct (Forall2_lookup_r _ _ _ _ _ Hissues Hi) as (p & Hp & _ & _ & _ & Hfn).
  apply list_elem_of_lookup_2 in Hp.
  exists p. split; [by apply Hps|].
  rewrite Hfn in Hf. injection Hf as <-. split; [done|].
  eapply returns_mono; [apply check_defaultproperties_places|].
  intros issues' (ps' & Hsorted' & Hps' & Hissues').
  assert (word_stands_at doc DEFAULTPROPERTIES p) as Hst by (by apply Hps in Hp as [? _]).
  split.
  - rewrite <- (Forall2_length _ _ _ Hissues), <- (Forall2_length _ _ _ Hissues').
    apply (repaired_places_count doc p);
      [by apply StronglySorted_lt_NoDup|by apply StronglySorted_lt_NoDup|done|done|done].
  - exists ps'. split; [done|]. intros q. by rewrite Hps', (repaired_flagged doc p Hst).
Qed.

(** X22: the line of an unmatched parenthesis.  The issue of
    [extended_unmatched_close_paren] and the issue of
    [extended_unmatched_open_paren] stand on a parenthesis of the
    document: the span is that one character.  The line they report is
    never past the line of the parenthesis, one plus the number of
    newlines before it; it is that line when no backslash of the
    document stands directly before a newline.  (In a string, the walk
    steps over the character that follows a backslash without looking
    at it, so a newline there is not counted.) *)
Theorem paren_issue_line (doc : list ascii) (it : Issue) :
  returns (extended_unmatched_close_paren doc) (fun l => it ∈ l)
  \/ returns (extended_unmatched_open_paren doc) (fun l => it ∈ l) ->
  exists idx c,
    doc !! idx = Some c /\ (c = LPAREN \/ c = RPAREN)
    /\ span it = (Z.of_nat idx, Z.of_nat (idx + 1))
    /\ (1 <= line it <= Z.of_nat (count_nl_before doc idx + 1))%Z
    /\ (no_escaped_newline doc -> line it = Z.of_nat (count_nl_before doc idx + 1)).
Proof.
  intros Hin.
  destruct (paren_detectors_tokens doc) as (toks & Hret & Hok & _ & Hclose & Hopen).
  assert (forall t : token, t ∈ toks ->
            doc !! t.1.1 = Some t.2 /\ (t.2 = LPAREN \/ t.2 = RPAREN)
            /\ (1 <= t.1.2 <= Z.of_nat (count_nl_before doc t.1.1 + 1))%Z
            /\ (no_escaped_newline doc ->
                t.1.2 = Z.of_nat (count_nl_before doc t.1.1 + 1))) as Htok.
  { intros t Ht.
    rewrite Forall_forall in Hok. destruct (Hok t Ht) as (Hc & Hp & Hl).
    pose proof (paren_tokens_lines false doc ltac:(done)) as Hle.
    rewrite Hret in Hle. simpl in Hle. rewrite Forall_forall in Hle.
    specialize (Hle t Ht). unfold line_rel in Hle.
    split; [done|]. split; [done|]. split; [lia|]. intros Hesc.
    pose proof (paren_tokens_lines true doc (fun _ => Hesc)) as Heq.
    rewrite Hret in Heq. simpl in Heq. rewrite Forall_forall in Heq.
    exact (Heq t Ht). }
  assert (exists t : token, t ∈ toks
            /\ span it = (Z.of_nat t.1.1, Z.of_nat (t.1.1 + 1)) /\ line it = t.1.2)
    as (t & Ht & Hspan & Hline).
  { destruct Hin as [Hin|Hin].
    - rewrite Hclose in Hin. simpl in Hin.
      pose proof (first_unmatched_close_spec toks 0) as Hspec.
      destruct (first_unmatched_close 0 toks) as [t|]; [|by apply elem_of_nil in Hin].
      destruct Hspec as (pre & post & -> & _).
      apply list_elem_of_singleton in Hin as ->.
      exists t. split; [|done]. apply elem_of_app. right. apply list_elem_of_here.
    - rewrite Hopen in Hin. simpl in Hin.
      destruct (last (unmatched_opens toks)) as [[idx ln]|] eqn:Hlast;
        [|by apply elem_of_nil in Hin].
      apply list_elem_of_singleton in Hin as ->.
      apply last_Some_elem_of, unmatched_opens_offsets in Hlast as (t & Ht & Heq).
      exists t. split; [done|]. destruct t as [[i l] c]. simpl in *.
      by injection Heq as -> ->. }
  destruct (Htok t Ht) as (Hc & Hp & Hl & Hex).
  exists t.1.1, t.2. rewrite Hline. done.
Qed.

Lemma doc_paren_line_close :
  extended_unmatched_close_paren doc_paren_line = Ret [close_issue 11 2].
Proof. vm_compute. reflexivity. Qed.

Lemma doc_paren_line_no_escape : no_escaped_newline doc_paren_line.
Proof. apply no_backslash_no_escape. vm_compute. repeat constructor. Qed.

Lemma paren_issue_line_witness :
  no_escaped_newline doc_paren_line
  /\ exists idx c,
       doc_paren_line !! idx = Some c /\ (c = LPAREN \/ c = RPAREN)
       /\ span (close_issue 11 2) = (Z.of_nat idx, Z.of_nat (idx + 1))
       /\ line (close_issue 11 2) = Z.of_nat (count_nl_before doc_paren_line idx + 1).
Proof.
  split; [exact doc_paren_line_no_escape|].
  destruct (paren_issue_line doc_paren_line (close_issue 11 2))
    as (idx & c & Hc & Hp & Hs & _ & Hex).
  { left. rewrite doc_paren_line_close. apply list_elem_of_here. }
  exists idx, c. split; [exact Hc|]. split; [exact Hp|]. split; [exact Hs|].
  exact (Hex doc_paren_line_no_escape).
Defined.

(** X23: what [extended_struct_enum_closer] reports.  Of the headers
    that its pattern finds, in their order, it reports those whose block
    does not close, one issue each, and no other: the block closes when,
    somewhere after the opening brace of the header, the text from that
    brace on holds one closing brace more than it holds opening ones.
    Every brace counts, also one in a comment or a string.  The issue
    has the line and the span of the header; its repair keeps, as the
    place of the new brace, the first top-level word after the last
    brace of the whole text (after the header when no brace follows it),
    or the end of the text. *)
Theorem struct_enum_reports (doc : list ascii) :
  returns (extended_struct_enum_closer doc)
          (open_blocks doc (re_finditer RE_IM re_struct_enum doc)).
Proof.
  unfold extended_struct_enum_closer.
  pose proof (re_finditer_bounds RE_IM doc re_struct_enum) as Hb.
  set (ms := re_finditer RE_IM re_struct_enum doc) in *.
  eapply returns_mono.
  - apply (for_each_rule (fun k issues => open_blocks doc (take k ms) issues))
      with (i := 0); [|constructor].
    intros k m issues Hk Hinv. change (0 + k) with k in *. unfold struct_enum_body.
    rewrite Forall_lookup in Hb. specialize (Hb _ _ Hk). cbv beta in Hb.
    eapply returns_bind; [apply struct_enum_loop_spec; lia|].
    intros [count pos] Hspec. cbv beta iota. rewrite (take_S_r _ _ _ Hk).
    destruct Hspec as [[Hz Hcl]|(Hnz & Hncl & Hpast)]; cbn [fst snd] in *.
    + rewrite Hz. change (negb (0 =? 0)%Z) with false. cbv iota.
      by apply open_blocks_snoc_closed.
    + apply Z.eqb_neq in Hnz. rewrite Hnz. change (negb false) with true. cbv iota zeta.
      apply open_blocks_snoc_open; [done|done|].
      split; [done|]. split; [done|]. split; [done|]. exists pos. split; [done|]. done.
  - cbv beta. intros issues H. change (0 + length ms) with (length ms) in H.
    by rewrite firstn_all in H.
Qed.

(** X24: when the two detectors of parentheses are silent.  With [toks]
    the parentheses of the code in the order of the scan (those in
    comments and strings left out), [extended_unmatched_close_paren]
    reports nothing exactly when no closing parenthesis comes before
    the opening one it would close, and both it and
    [extended_unmatched_open_paren] report nothing exactly when the
    parentheses of the code are well nested: no closing one comes too
    early, and there are as many closing as opening ones. *)
Theorem paren_detectors_silent (doc : list ascii) :
  returns (paren_tokens doc) (fun toks =>
    (extended_unmatched_close_paren doc = Ret [] <-> never_surplus 0 toks)
    /\ (extended_unmatched_close_paren doc = Ret []
        /\ extended_unmatched_open_paren doc = Ret []
        <-> never_surplus 0 toks /\ closes toks = opens toks)).
Proof.
  destruct (paren_detectors_tokens doc) as (toks & Hret & _ & _ & Hclose & Hopen).
  rewrite Hret. simpl. rewrite Hclose, Hopen.
  pose proof (first_unmatched_close_None toks) as Hnone.
  pose proof (unmatched_balance toks) as Hbal.
  pose proof (max_surplus_spec toks 0) as Hms.
  assert (Ret (match first_unmatched_close 0 toks with
               | Some t => [close_issue t.1.1 t.1.2]
               | None => []
               end) = Ret [] <-> never_surplus 0 toks) as Hc.
  { rewrite <- Hnone. destruct (first_unmatched_close 0 toks); [|done].
    split; intros H; discriminate H. }
  assert (Ret (match last (unmatched_opens toks) with
               | Some (idx, ln) => [open_issue idx ln]
               | None => []
               end) = Ret [] <-> unmatched_opens toks = []) as Ho.
  { rewrite <- last_None.
    destruct (last (unmatched_opens toks)) as [[idx ln]|]; [|done].
    split; intros H; discriminate H. }
  split; [exact Hc|]. rewrite Hc, Ho. split.
  - intros [Hns Hu]. split; [done|]. rewrite Hu in Hbal. simpl in Hbal.
    apply Hms in Hns. lia.
  - intros [Hns Heq]. split; [done|]. apply Hms in Hns.
    apply length_zero_iff_nil. lia.
Qed.

(** ** A scan that reports nothing *)

Lemma first_occurrences_nil (l : list Issue) : first_occurrences l = [] <-> l = [].
Proof. destruct l; simpl; split; intros H; done. Qed.

Lemma reports_lines_none (doc : list ascii) (flag : nat -> list ascii -> bool) (K : string)
    (issues : list Issue) :
  reports_lines doc flag K issues -> issues = [] <-> no_line_flagged doc flag.
Proof.
  intros (Hsound & Hcomplete & _). split.
  - intros -> k l Hk. destruct (flag k l) eqn:Hf; [|done].
    destruct (Hcomplete k l) as (it & Hin & _); [by apply lookup_lt_Some in Hk|done|done|].
    by apply elem_of_nil in Hin.
  - intros Hnone. destruct issues as [|it issues]; [done|].
    destruct (Hsound it) as (_ & k & l & _ & Hk & Hf & _); [apply list_elem_of_here|].
    by rewrite (Hnone k l Hk) in Hf.
Qed.

Lemma safe_close_balance_none (doc : list ascii) (issues : list Issue) :
  safe_close_balance doc = Ret issues ->
  issues = [] <-> count LBRACE doc = count RBRACE doc.
Proof.
  unfold safe_close_balance. cbv zeta. rewrite open_count_counts.
  destruct (_ <? 0)%Z eqn:Hlt.
  { apply Z.ltb_lt in Hlt. intros [= <-]. split; [done|lia]. }
  destruct (_ >? 0)%Z eqn:Hgt.
  { apply Z.gtb_lt in Hgt. intros [= <-]. split; [done|lia]. }
  apply Z.ltb_ge in Hlt. rewrite Z.gtb_ltb in Hgt. apply Z.ltb_ge in Hgt.
  intros [= <-]. split; [lia|done].
Qed.

Lemma paren_balance_none (doc : list ascii) :
  paren_balance doc = [] <-> count LPAREN doc = count RPAREN doc.
Proof.
  unfold paren_balance. cbv zeta.
  destruct (_ =? _)%Z eqn:Heq; simpl.
  - apply Z.eqb_eq in Heq. split; [lia|done].
  - apply Z.eqb_neq in Heq. split; [done|lia].
Qed.

Lemma defaultproperties_none (doc : list ascii) (issues : list Issue) :
  check_defaultproperties doc = Ret issues ->
  issues = [] <-> forall p, ~ defaultprops_flagged doc p.
Proof.
  intros Hret. pose proof (check_defaultproperties_places doc) as Hp.
  rewrite Hret in Hp. simpl in Hp. destruct Hp as (ps & _ & Hps & Hf2).
  apply Forall2_length in Hf2. split.
  - intros -> p Hp. apply Hps in Hp. destruct ps; [by apply elem_of_nil in Hp|done].
  - intros Hnone. destruct ps as [|p ps].
    + by destruct issues.
    + destruct (Hnone p). apply Hps, list_elem_of_here.
Qed.

Lemma open_blocks_none (text : list ascii) (ms : list rmatch) :
  open_blocks text ms [] <-> forall m, m ∈ ms -> block_closes text (m_end m).
Proof.
  induction ms as [|m ms IH].
  - split; [intros _ m Hm; by apply elem_of_nil in Hm|intros _; constructor].
  - split.
    + intros Hob. inversion Hob; subst. intros m' [->|Hin]%elem_of_cons; [done|].
      by apply IH.
    + intros Hall. apply open_blocks_closed; [apply Hall, list_elem_of_here|].
      apply IH. intros m' Hin. by apply Hall, list_elem_of_further.
Qed.

Lemma struct_enum_open_blocks (doc : list ascii) :
  returns (extended_struct_enum_closer doc)
          (open_blocks doc (re_finditer RE_IM re_struct_enum doc)).
Proof.
  unfold extended_struct_enum_closer.
  pose proof (re_finditer_bounds RE_IM doc re_struct_enum) as Hb.
  set (ms := re_finditer RE_IM re_struct_enum doc) in *.
  eapply returns_mono.
  - apply (for_each_rule (fun k issues => open_blocks doc (take k ms) issues))
      with (i := 0); [|constructor].
    intros k m issues Hk Hinv. change (0 + k) with k in *. unfold struct_enum_body.
    rewrite Forall_lookup in Hb. specialize (Hb _ _ Hk). cbv beta in Hb.
    eapply returns_bind; [apply struct_enum_loop_spec; lia|].
    intros [count pos] Hspec. cbv beta iota. rewrite (take_S_r _ _ _ Hk).
    destruct Hspec as [[Hz Hcl]|(Hnz & Hncl & Hpast)]; cbn [fst snd] in *.
    + rewrite Hz. change (negb (0 =? 0)%Z) with false. cbv iota.
      by apply open_blocks_snoc_closed.
    + apply Z.eqb_neq in Hnz. rewrite Hnz. change (negb false) with true. cbv iota zeta.
      apply open_blocks_snoc_open; [done|done|].
      split; [done|]. split; [done|]. split; [done|]. exists pos. split; [done|]. done.
  - cbv beta. intros issues H. change (0 + length ms) with (length ms) in H.
    by rewrite firstn_all in H.
Qed.

Lemma struct_enum_none (doc : list ascii) (issues : list Issue) :
  extended_struct_enum_closer doc = Ret issues ->
  issues = [] <-> forall m, m ∈ re_finditer RE_IM re_struct_enum doc ->
                            block_closes doc (m_end m).
Proof.
  intros Hret. pose proof (struct_enum_open_blocks doc) as Hob.
  rewrite Hret in Hob. simpl in Hob. rewrite <- open_blocks_none. split.
  - by intros ->.
  - intros Hnone. destruct issues as [|it issues]; [done|]. exfalso.
    assert (forall ms its, open_blocks doc ms its -> open_blocks doc ms [] -> its = [])
      as Hfun.
    { clear. intros ms its Hob. induction Hob as [|m ms its Hcl _ IH|m ms it its Hncl _ _ _];
        intros Hnil.
      - done.
      - inversion Hnil; subst. by apply IH.
      - inversion Hnil; subst. done. }
    by specialize (Hfun _ _ Hob Hnone).
Qed.

Lemma close_paren_none (doc : list ascii) (issues : list Issue) :
  extended_unmatched_close_paren doc = Ret issues ->
  issues = [] <-> returns (paren_tokens doc) (never_surplus 0).
Proof.
  intros Hret.
  destruct (paren_detectors_tokens doc) as (toks & Htoks & _ & _ & Hclose & _).
  rewrite Htoks. simpl. rewrite Hclose in Hret. injection Hret as <-.
  rewrite <- first_unmatched_close_None.
  destruct (first_unmatched_close 0 toks); split; intros H; done.
Qed.

(** X25: what a scan without issues means.  [scan_doc_for_issues]
    returns the empty list exactly when no detector of the mode has
    anything to report.  In every mode: no line is flagged for
    [cpptext] or for a missing semicolon, the document holds as many
    closing braces as opening ones and as many closing parentheses as
    opening ones (those of comments and strings counted), and every
    [defaultproperties] is followed by its brace.  In the extended
    mode, moreover: no control line lacks its closing parenthesis,
    every block of a [struct] or [enum] header closes, and no closing
    parenthesis of the code comes before the opening one it would
    close. *)
Theorem scan_clean_iff (doc : list ascii) (extended : bool) :
  scan_doc_for_issues doc extended = Ret []
  <-> strict_clean doc /\ (extended = true -> extended_clean doc).
Proof.
  destruct (findings_exist doc) as [fs Hfs].
  rewrite (scan_doc_gathered doc extended fs Hfs).
  destruct Hfs as (H1 & H2 & H3 & H4 & H5 & H6 & H7 & _).
  pose proof (cpptext_lines doc) as L1. rewrite H1 in L1. unfold returns in L1.
  apply reports_lines_none in L1.
  pose proof (semicolons_lines doc) as L4. rewrite H4 in L4. unfold returns in L4.
  apply reports_lines_none in L4.
  pose proof (control_paren_lines doc) as L5. rewrite H5 in L5. unfold returns in L5.
  apply reports_lines_none in L5.
  pose proof (safe_close_balance_none doc _ H2) as L2.
  pose proof (defaultproperties_none doc _ H3) as L3.
  pose proof (paren_balance_none doc) as Lp.
  pose proof (struct_enum_none doc _ H6) as L6.
  pose proof (close_paren_none doc _ H7) as L7.
  assert (Ret (first_occurrences (gathered doc extended fs)) = Ret []
          <-> gathered doc extended fs = []) as ->.
  { rewrite <- first_occurrences_nil. split; [by intros [= ->]|by intros ->]. }
  unfold gathered, strict_clean, extended_clean.
  rewrite !app_nil, L1, L2, L3, L4, Lp.
  destruct extended.
  - rewrite !app_nil, L5, L6, L7. split.
    + intros (C1 & C2 & C3 & C4 & C5 & C6 & C7 & C8). done.
    + intros ((C1 & C2 & C3 & C4 & C5) & Hext).
      destruct (Hext eq_refl) as (C6 & C7 & C8). done.
  - split.
    + intros (C1 & C2 & C3 & C4 & C5 & _). done.
    + intros ((C1 & C2 & C3 & C4 & C5) & _). done.
Qed.

(** X26: the list of issues of the window.  [scan_now] shows the issues
    of [scan_doc_for_issues] in their order, followed, when the toggle
    of the unmatched opening parenthesis is set, by the issue of
    [extended_unmatched_open_paren], of which there is at most one: the
    de-duplication that [scan_now] runs over the joined list drops
    nothing. *)
Theorem scan_now_appends (doc : list ascii) (extended unmatched_open : bool) :
  returns (scan_doc_for_issues doc extended) (fun scanned =>
    returns (extended_unmatched_open_paren doc) (fun found =>
      scan_now doc extended unmatched_open
      = Ret (scanned ++ (if unmatched_open then found else []))
      /\ length found <= 1
      /\ Forall (fun it => kind it = "paren-extra-open") found)).
Proof.
  destruct (findings_exist doc) as [fs Hfs].
  rewrite (scan_doc_gathered doc extended fs Hfs). unfold returns at 1.
  pose proof (scan_now_list doc extended unmatched_open fs Hfs) as Hlist.
  destruct (findings_kinds doc fs Hfs) as (_ & _ & _ & _ & _ & _ & _ & K8).
  pose proof (open_paren_at_most_one doc fs Hfs) as Hnd.
  destruct Hfs as (_ & _ & _ & _ & _ & _ & _ & H8).
  rewrite H8. unfold returns. split; [exact Hlist|]. split; [|exact K8].
  destruct (paren_detectors_tokens doc) as (toks & _ & _ & _ & _ & L8).
  rewrite H8 in L8. injection L8 as ->.
  destruct (last (unmatched_opens toks)) as [[idx ln]|]; simpl; lia.
Qed.
